(** * The node-draining engine of estafette-gke-preemptible-killer

    A shallow embedding of [kubernetes_client.go]: the pod filters, the
    per-pod evictor, the batch evictor, the drain coordinator, the kube-dns
    drainer and the node operations: the provider id, the annotations, the
    unschedulable flag and the listing of preemptible nodes.

    Go values are rendered as follows.
    - [string] is [string]; a slice is a [list]; a [map[string]string] is an
      [option (gmap string string)], where [None] is the nil map.
    - [error] is [option Err]: [None] is [nil].
    - [int] values that hold lengths and indexes of a slice are [nat]; they
      stay between [0] and [len(pods)], so Go's 64-bit [int] never wraps.
    - a goroutine is a component of a labelled transition system whose
      labels are the scheduling choices; channels are records with a
      capacity, a buffer and a closed flag. *)

From Stdlib Require Import DecimalString.
From stdpp Require Import gmap strings list.

Open Scope string_scope.
Open Scope list_scope.
Open Scope nat_scope.

(** ** Data model (k8s.io/api/core/v1, the fields the client reads) *)

(** [metav1.OwnerReference]; [RefName] is its field [Name]. *)
Record OwnerReference := {
  Kind : string;
  RefName : string
}.

(** [metav1.ObjectMeta], embedded in pods and nodes. *)
Record ObjectMeta := {
  Name : string;
  Namespace : string;
  OwnerReferences : list OwnerReference;
  Annotations : option (gmap string string)
}.

Record PodSpec := { NodeName : string }.

(** [v1.Pod]: [pod.ObjectMeta] and [pod.Spec]. *)
Record Pod := {
  pod_ObjectMeta : ObjectMeta;
  pod_Spec : PodSpec
}.

Record NodeSpec := {
  ProviderID : string;
  Unschedulable : bool
}.

(** [v1.Node]: [node.ObjectMeta] and [node.Spec]. *)
Record Node := {
  node_ObjectMeta : ObjectMeta;
  node_Spec : NodeSpec
}.

#[global] Instance OwnerReference_eq_dec : EqDecision OwnerReference.
Proof. solve_decision. Defined.
#[global] Instance ObjectMeta_eq_dec : EqDecision ObjectMeta.
Proof. solve_decision. Defined.
#[global] Instance PodSpec_eq_dec : EqDecision PodSpec.
Proof. solve_decision. Defined.
#[global] Instance Pod_eq_dec : EqDecision Pod.
Proof. solve_decision. Defined.

(** ** Errors

    An error value is its message together with the verdicts of the four
    apimachinery predicates the client asks about it
    ([errors.IsNotFound], [errors.IsTooManyRequests], [errors.IsForbidden],
    [errors.HasStatusCause(err, v1.NamespaceTerminatingCause)]).  Every
    combination of verdicts is a value of the type. *)

Record Err := {
  Error : string;
  IsNotFound : bool;
  IsTooManyRequests : bool;
  IsForbidden : bool;
  HasNamespaceTerminatingCause : bool
}.

Abbreviation error := (option Err).
Abbreviation nil_error := (@None Err).

#[global] Instance Err_eq_dec : EqDecision Err.
Proof. solve_decision. Defined.

(** [fmt.Errorf] builds a plain error: none of the API predicates holds. *)
Definition fmt_Errorf (msg : string) : Err :=
  {| Error := msg; IsNotFound := false; IsTooManyRequests := false;
     IsForbidden := false; HasNamespaceTerminatingCause := false |}.

(** ** PodSetFilter *)

Module Filter.

(** Lines 142-146: the inner loop over the owner references of one pod. *)
Definition inner_loop (pod : Pod) (kind : string)
    (output : list Pod) (refs : list OwnerReference) : list Pod :=
  fold_left
    (fun output ownerReference =>
       if negb (String.eqb (Kind ownerReference) kind)
       then output ++ [pod]
       else output)
    refs output.

(** Lines 140-150. *)
Definition filterOutPodByOwnerReferenceKind
    (podList : list Pod) (kind : string) : list Pod :=
  fold_left
    (fun output pod =>
       inner_loop pod kind output (OwnerReferences (pod_ObjectMeta pod)))
    podList [].

(** Lines 153-161. *)
Definition filterOutPodByNode
    (podList : list Pod) (nodeName : string) : list Pod :=
  fold_left
    (fun output pod =>
       if String.eqb (NodeName (pod_Spec pod)) nodeName
       then output ++ [pod]
       else output)
    podList [].

(** The owner references of a pod whose kind differs from [kind]. *)
Definition differing_refs (pod : Pod) (kind : string) : list OwnerReference :=
  List.filter (fun r => negb (String.eqb (Kind r) kind))
              (OwnerReferences (pod_ObjectMeta pod)).

(** Number of times [p] occurs in a list of pods. *)
Definition occurrences (p : Pod) (l : list Pod) : nat :=
  length (List.filter (fun q => bool_decide (q = p)) l).

End Filter.

(** ** PodEvictor *)

Module EvictPod.

(** The branch of the if-chain of lines 428-448 that an [Evict] response
    selects.  The chain is tried in this order, so a response that several
    predicates accept takes the first branch that accepts it. *)
Inductive branch :=
| Evicted                (* err == nil: break *)
| AlreadyGone            (* errors.IsNotFound: break *)
| Throttled              (* errors.IsTooManyRequests: sleep, then poll stop *)
| NamespaceTerminating   (* IsForbidden && HasStatusCause: break *)
| Fatal (e : Err).       (* return err *)

Definition classify (err : error) : branch :=
  match err with
  | None => Evicted
  | Some e =>
      if IsNotFound e then AlreadyGone
      else if IsTooManyRequests e then Throttled
      else if IsForbidden e && HasNamespaceTerminatingCause e
           then NamespaceTerminating
      else Fatal e
  end.

(** What one run of [evictPod] does, in program order. *)
Inductive event :=
| CallEvict (namespace name : string) (resp : error)  (* line 427 *)
| Sleep (seconds : nat)                               (* line 440 *)
| PollStop (ready : bool).                            (* lines 449-453 *)

(** The call of line 427 for the eviction object of lines 420-425. *)
Definition call_of (pod : Pod) (resp : error) : event :=
  CallEvict (Namespace (pod_ObjectMeta pod)) (Name (pod_ObjectMeta pod)) resp.

(** The backoff of line 440, in seconds. *)
Definition backoff : nat := 5.

(** Lines 426-455.  [api k] is the answer of the control plane to the
    [k]-th call of [Evict] made by this run (counted from 0) and [stop k]
    tells whether a receive from the stop channel is ready when the run
    polls it after that call.  The [for] loop has no bound: [fuel] bounds
    the number of iterations that are unfolded, and [None] means that the
    loop is still running after [fuel] iterations. *)
Fixpoint evictPod_loop (fuel : nat) (api : nat -> error) (stop : nat -> bool)
    (pod : Pod) (k : nat) : option (error * list event) :=
  match fuel with
  | 0 => None
  | S fuel' =>
      let err := api k in
      let call := call_of pod err in
      match classify err with
      | Evicted | AlreadyGone | NamespaceTerminating =>
          Some (None, [call])
      | Throttled =>
          if stop k then Some (None, [call; Sleep backoff; PollStop true])
          else
            match evictPod_loop fuel' api stop pod (S k) with
            | Some (r, tr) =>
                Some (r, call :: Sleep backoff :: PollStop false :: tr)
            | None => None
            end
      | Fatal e => Some (Some e, [call])
      end
  end.

Definition evictPod (fuel : nat) (api : nat -> error) (stop : nat -> bool)
    (pod : Pod) : option (error * list event) :=
  evictPod_loop fuel api stop pod 0.

Definition is_call (ev : event) : bool :=
  match ev with CallEvict _ _ _ => true | _ => false end.

(** Number of eviction attempts in a trace. *)
Definition attempts (tr : list event) : nat :=
  length (List.filter is_call tr).

(** The durations slept, in order. *)
Fixpoint sleeps (tr : list event) : list nat :=
  match tr with
  | [] => []
  | Sleep d :: tr => d :: sleeps tr
  | _ :: tr => sleeps tr
  end.

(** The responses received, in order. *)
Fixpoint responses (tr : list event) : list error :=
  match tr with
  | [] => []
  | CallEvict _ _ r :: tr => r :: responses tr
  | _ :: tr => responses tr
  end.

(** The trace of a run that is throttled [n] times without seeing the
    stop signal and then ends with the response [last]. *)
Fixpoint throttled_then (pod : Pod) (rs : list error) (last : error)
    : list event :=
  match rs with
  | [] => [call_of pod last]
  | r :: rs =>
      call_of pod r
      :: Sleep backoff :: PollStop false :: throttled_then pod rs last
  end.

(** The trace of a run that is throttled, does not see the stop signal
    during the responses [rs], is throttled once more by [last] and then
    sees the stop signal. *)
Fixpoint throttled_until_stop (pod : Pod) (rs : list error) (last : error)
    : list event :=
  match rs with
  | [] => [call_of pod last; Sleep backoff; PollStop true]
  | r :: rs =>
      call_of pod r
      :: Sleep backoff :: PollStop false :: throttled_until_stop pod rs last
  end.

(** The result of a run whose last response is [resp] and leaves the loop. *)
Definition result_of (resp : error) : error :=
  match classify resp with
  | Fatal e => Some e
  | _ => None
  end.

(** A response that the if-chain sends to the backoff branch. *)
Definition throttling (resp : error) : Prop := classify resp = Throttled.

(** A response that the if-chain sends to [return err]. *)
Definition fatal (e : Err) : Prop :=
  IsNotFound e = false /\ IsTooManyRequests e = false /\
  (IsForbidden e && HasNamespaceTerminatingCause e) = false.

(** Shape of the trace of any run that returns. *)
Inductive run_shape (api : nat -> error) (stop : nat -> bool) (pod : Pod)
    : nat -> error -> list event -> Prop :=
| shape_leave k :
    classify (api k) <> Throttled ->
    run_shape api stop pod k
      (match classify (api k) with Fatal e => Some e | _ => None end)
      [call_of pod (api k)]
| shape_stopped k :
    classify (api k) = Throttled -> stop k = true ->
    run_shape api stop pod k None
      [call_of pod (api k); Sleep backoff; PollStop true]
| shape_retry k r tr :
    classify (api k) = Throttled -> stop k = false ->
    run_shape api stop pod (S k) r tr ->
    run_shape api stop pod k r
      (call_of pod (api k) :: Sleep backoff :: PollStop false :: tr).

(** The stop signal was seen by the run. *)
Definition stop_observed (tr : list event) : Prop := In (PollStop true) tr.

(** The response of the last attempt of the run. *)
Definition last_response (tr : list event) : option error :=
  last (responses tr).

End EvictPod.

(** ** Node operations *)

Module NodeOps.

(** A Go call either returns or panics. *)
Inductive outcome (A : Type) :=
| Returns (a : A)
| Panics (msg : string).
Arguments Returns {A} a.
Arguments Panics {A} msg.

(** The typed client [kubeClientset.CoreV1().Nodes()] over the state of
    the API server.  [Get] always hands back a node object (the client
    allocates it before decoding the answer) and an error. *)
Class Clientset (Server : Type) := {
  Nodes_Get : string -> Server -> Node * error;
  Nodes_Update : Node -> Server -> (Node * error) * Server
}.

(** [strings.Split(s, sep)] for a separator of one byte. *)
Fixpoint strings_Split (s : string) (sep : Ascii.ascii) : list string :=
  match s with
  | EmptyString => [EmptyString]
  | String a rest =>
      if Ascii.eqb a sep then EmptyString :: strings_Split rest sep
      else match strings_Split rest sep with
           | [] => [String a EmptyString]
           | hd :: tl => String a hd :: tl
           end
  end.

Definition slash : Ascii.ascii := Ascii.ascii_of_nat 47.

(** [strconv.Itoa] on a number that is not negative. *)
Definition strconv_Itoa (n : nat) : string :=
  NilZero.string_of_uint (Nat.to_uint n).

(** The message of the run-time error of an index expression [s[i]] on a
    slice of length [len] with [len <= i]. *)
Definition index_out_of_range (i len : nat) : string :=
  "runtime error: index out of range [" +:+ strconv_Itoa i
    +:+ "] with length " +:+ strconv_Itoa len.

Definition newline : string := String (Ascii.ascii_of_nat 10) EmptyString.

Definition set_Annotations (n : Node) (a : option (gmap string string))
    : Node :=
  {| node_ObjectMeta :=
       {| Name := Name (node_ObjectMeta n);
          Namespace := Namespace (node_ObjectMeta n);
          OwnerReferences := OwnerReferences (node_ObjectMeta n);
          Annotations := a |};
     node_Spec := node_Spec n |}.

Section WithClient.
Context {Server : Type} `{Clientset Server}.

(** Lines 81-88. *)
Definition GetNode (nodeName : string) (srv : Server) : Node * error :=
  Nodes_Get nodeName srv.

(** Lines 45-57.  The results are named, so the bare [return] of line 49
    hands back the zero strings and the error. *)
Definition GetProjectIdAndZoneFromNode (nodeName : string) (srv : Server)
    : outcome (string * string * error) :=
  let '(node, err) := GetNode nodeName srv in
  match err with
  | Some _ => Returns (EmptyString, EmptyString, err)
  | None =>
      let s := strings_Split (ProviderID (node_Spec node)) slash in
      match s !! 2 with
      | None => Panics (index_out_of_range 2 (length s))
      | Some projectID =>
          match s !! 3 with
          | None => Panics (index_out_of_range 3 (length s))
          | Some zone => Returns (projectID, zone, None)
          end
      end
  end.

(** Lines 102-118.  The assignment of line 110 panics on the nil map. *)
Definition SetNodeAnnotation (nodeName key value : string) (srv : Server)
    : outcome (error * Server) :=
  let '(newNode, err) := GetNode nodeName srv in
  match err with
  | Some e =>
      Returns
        (Some (fmt_Errorf
                 ("Error getting node information before setting annotation:"
                    +:+ newline +:+ Error e)),
         srv)
  | None =>
      match Annotations (node_ObjectMeta newNode) with
      | None => Panics "assignment to entry in nil map"
      | Some m =>
          let updated := set_Annotations newNode (Some (<[key:=value]> m)) in
          let '(_, err, srv') := Nodes_Update updated srv in
          Returns (err, srv')
      end
  end.

End WithClient.

(** A test double for the API server: it keeps the nodes in a list, finds
    them by name and can be told to fail every update. *)
Record fake_server := {
  fs_nodes : list Node;
  fs_update_error : error
}.

Definition empty_node : Node :=
  {| node_ObjectMeta :=
       {| Name := EmptyString; Namespace := EmptyString;
          OwnerReferences := []; Annotations := None |};
     node_Spec := {| ProviderID := EmptyString; Unschedulable := false |} |}.

Definition not_found (name : string) : Err :=
  {| Error := "nodes " +:+ name +:+ " not found";
     IsNotFound := true; IsTooManyRequests := false;
     IsForbidden := false; HasNamespaceTerminatingCause := false |}.

Definition fake_get (name : string) (srv : fake_server) : Node * error :=
  match List.find (fun n => String.eqb (Name (node_ObjectMeta n)) name)
                  (fs_nodes srv) with
  | Some n => (n, None)
  | None => (empty_node, Some (not_found name))
  end.

Definition fake_update (n : Node) (srv : fake_server)
    : (Node * error) * fake_server :=
  match fs_update_error srv with
  | Some e => ((empty_node, Some e), srv)
  | None =>
      ((n, None),
       {| fs_nodes :=
            List.map (fun m =>
                        if String.eqb (Name (node_ObjectMeta m))
                                      (Name (node_ObjectMeta n))
                        then n else m) (fs_nodes srv);
          fs_update_error := None |})
  end.

#[global] Instance fake_clientset : Clientset fake_server :=
  {| Nodes_Get := fake_get; Nodes_Update := fake_update |}.

(** The layout of a provider id: [scheme://project/zone/instance]. *)
Definition provider_id (scheme project zone instance : string) : string :=
  scheme +:+ String slash (String slash
    (project +:+ String slash (zone +:+ String slash instance))).

(** Number of separators in a string. *)
Fixpoint count_sep (s : string) (sep : Ascii.ascii) : nat :=
  match s with
  | EmptyString => 0
  | String a rest => (if Ascii.eqb a sep then 1 else 0) + count_sep rest sep
  end.

(** Gluing the segments back with the separator gives the string. *)
Fixpoint join (segs : list string) (sep : Ascii.ascii) : string :=
  match segs with
  | [] => EmptyString
  | [x] => x
  | x :: rest => x +:+ String sep (join rest sep)
  end.

End NodeOps.

(** ** Channels and goroutine steps *)

(** What happens when the scheduler picks a goroutine: it moves on, it
    cannot move (it is blocked, or the choice does not apply to the state),
    or it panics. *)
Inductive step_result (S : Type) :=
| Next (s : S)
| Blocked
| Panic (msg : string).
Arguments Next {S} s.
Arguments Blocked {S}.
Arguments Panic {S} msg.

Module Chan.

(** A channel made by [make(chan T, cap)]; [make(chan T)] has capacity 0. *)
Record chan (A : Type) := {
  cap : nat;
  buf : list A;
  closed : bool
}.
Arguments cap {A} c.
Arguments buf {A} c.
Arguments closed {A} c.

Definition make {A : Type} (n : nat) : chan A :=
  {| cap := n; buf := []; closed := false |}.

(** [len(c)]: the number of elements queued in the buffer. *)
Definition len {A : Type} (c : chan A) : nat := length (buf c).

(** [c <- v] while no goroutine is receiving from [c]: the value is queued
    if the buffer has room, and the sender blocks otherwise. *)
Definition send {A : Type} (c : chan A) (v : A) : option (chan A) :=
  if length (buf c) <? cap c
  then Some {| cap := cap c; buf := buf c ++ [v]; closed := closed c |}
  else None.

(** [<-c] of a queued element. *)
Definition recv {A : Type} (c : chan A) : option (A * chan A) :=
  match buf c with
  | v :: rest => Some (v, {| cap := cap c; buf := rest; closed := closed c |})
  | [] => None
  end.

(** A receive in a [select] is ready when an element is queued or the
    channel is closed. *)
Definition ready {A : Type} (c : chan A) : bool :=
  closed c || (0 <? length (buf c)).

(** [close(c)].  Every channel of this program is closed at a single place
    that runs at most once. *)
Definition close {A : Type} (c : chan A) : chan A :=
  {| cap := cap c; buf := buf c; closed := true |}.

End Chan.

(** ** BatchEvictor *)

Module EvictPods.
Import EvictPod.

Definition podsPerBatch : nat := 10.

(** [l[lo:hi]]; [None] is the panic for bounds out of range. *)
Definition go_slice {A : Type} (l : list A) (lo hi : nat) : option (list A) :=
  if (lo <=? hi) && (hi <=? length l)
  then Some (firstn (hi - lo) (skipn lo l))
  else None.

(** Where the goroutine of lines 389-398 stands. *)
Inductive task_pc :=
| AtEvict            (* inside evictPod, about to call Evict (line 427) *)
| AtSleep            (* throttled: sleeping, then polling its stop channel *)
| AtSend (e : Err)   (* evictPod returned e: at [errCh <- err] (line 395) *)
| Finished.          (* past [wg.Done()] *)

Record task := {
  t_pod : Pod;              (* podsThisBatch[i] *)
  t_batch : nat;            (* the iteration of the loop that spawned it *)
  t_stop : Chan.chan bool;  (* stopChs[i] *)
  t_pc : task_pc
}.

(** Where the goroutine that runs [evictPods] stands. *)
Inductive main_pc :=
| AtLoop                    (* line 379 *)
| AtSelect                  (* line 401 *)
| AtWait                    (* line 408 *)
| Returned (lastErr : error).

Record state := {
  pods : list Pod;
  stop : Chan.chan bool;
  errCh : Chan.chan Err;
  numPodsLeft : nat;
  podsProcessedSoFar : nat;
  numPodsThisBatch : nat;
  wgs : list nat;                (* counter of the WaitGroup of each batch *)
  tasks : list task;             (* the goroutines spawned, in spawn order *)
  dispatched : list (list Pod);  (* history: the batches dispatched so far *)
  pc : main_pc
}.

(** Lines 368-371. *)
Definition init (pods : list Pod) : state :=
  {| pods := pods;
     stop := Chan.make 0;
     errCh := Chan.make 0;
     numPodsLeft := length pods;
     podsProcessedSoFar := 0;
     numPodsThisBatch := 0;
     wgs := [];
     tasks := [];
     dispatched := [];
     pc := AtLoop |}.

Definition set_pc (s : state) (p : main_pc) : state :=
  {| pods := pods s; stop := stop s; errCh := errCh s;
     numPodsLeft := numPodsLeft s;
     podsProcessedSoFar := podsProcessedSoFar s;
     numPodsThisBatch := numPodsThisBatch s;
     wgs := wgs s; tasks := tasks s; dispatched := dispatched s; pc := p |}.

Definition set_stop (s : state) (c : Chan.chan bool) : state :=
  {| pods := pods s; stop := c; errCh := errCh s;
     numPodsLeft := numPodsLeft s;
     podsProcessedSoFar := podsProcessedSoFar s;
     numPodsThisBatch := numPodsThisBatch s;
     wgs := wgs s; tasks := tasks s; dispatched := dispatched s; pc := pc s |}.

Definition set_errCh (s : state) (c : Chan.chan Err) : state :=
  {| pods := pods s; stop := stop s; errCh := c;
     numPodsLeft := numPodsLeft s;
     podsProcessedSoFar := podsProcessedSoFar s;
     numPodsThisBatch := numPodsThisBatch s;
     wgs := wgs s; tasks := tasks s; dispatched := dispatched s; pc := pc s |}.

Definition set_tasks (s : state) (ws : list nat) (ts : list task) : state :=
  {| pods := pods s; stop := stop s; errCh := errCh s;
     numPodsLeft := numPodsLeft s;
     podsProcessedSoFar := podsProcessedSoFar s;
     numPodsThisBatch := numPodsThisBatch s;
     wgs := ws; tasks := ts; dispatched := dispatched s; pc := pc s |}.

Definition set_task_pc (t : task) (p : task_pc) : task :=
  {| t_pod := t_pod t; t_batch := t_batch t; t_stop := t_stop t; t_pc := p |}.

(** Lines 372-377, the deferred function.  [lastErr] is nil at every
    [return] of the body, so the result is decided here. *)
Definition deferred (s : state) : state :=
  if 0 <? Chan.len (errCh s) then
    match Chan.recv (errCh s) with
    | Some (thisErr, c) =>
        set_pc (set_errCh s c)
          (Returned
             (Some (fmt_Errorf
                      ("error evicting pods, last error was: "
                         +:+ Error thisErr))))
    | None => set_pc s (Returned None)
    end
  else set_pc s (Returned None).

(** Lines 380-399: slice the batch, make its stop channels and WaitGroup,
    add one to the counter and start one goroutine for each of its pods. *)
Definition dispatch (s : state) : step_result state :=
  let n := Nat.min (numPodsLeft s) podsPerBatch in
  match go_slice (pods s) (podsProcessedSoFar s) (podsProcessedSoFar s + n) with
  | None => Panic "slice bounds out of range"
  | Some podsThisBatch =>
      Next
        {| pods := pods s; stop := stop s; errCh := errCh s;
           numPodsLeft := numPodsLeft s;
           podsProcessedSoFar := podsProcessedSoFar s;
           numPodsThisBatch := n;
           wgs := wgs s ++ [n];
           tasks :=
             tasks s ++
             List.map (fun pod =>
                         {| t_pod := pod; t_batch := length (wgs s);
                            t_stop := Chan.make 0; t_pc := AtEvict |})
                      podsThisBatch;
           dispatched := dispatched s ++ [podsThisBatch];
           pc := AtSelect |}
  end.

(** Lines 403-405: close the stop channels of the current batch. *)
Definition close_stopCh (batches : nat) (t : task) : task :=
  if S (t_batch t) =? batches
  then {| t_pod := t_pod t; t_batch := t_batch t;
          t_stop := Chan.close (t_stop t); t_pc := t_pc t |}
  else t.

Definition close_stopChs (s : state) : state :=
  set_tasks s (wgs s) (List.map (close_stopCh (length (wgs s))) (tasks s)).

(** One step of the goroutine that runs [evictPods]. *)
Definition main_step (s : state) : step_result state :=
  match pc s with
  | AtLoop =>
      if 0 <? numPodsLeft s then dispatch s else Next (deferred s)
  | AtSelect =>
      if Chan.ready (stop s)
      then Next (deferred (close_stopChs s))
      else Next (set_pc s AtWait)
  | AtWait =>
      match last (wgs s) with
      | Some 0 =>
          Next
            {| pods := pods s; stop := stop s; errCh := errCh s;
               numPodsLeft := numPodsLeft s - numPodsThisBatch s;
               podsProcessedSoFar := podsProcessedSoFar s + numPodsThisBatch s;
               numPodsThisBatch := numPodsThisBatch s;
               wgs := wgs s; tasks := tasks s; dispatched := dispatched s;
               pc := AtLoop |}
      | _ => Blocked
      end
  | Returned _ => Blocked
  end.

(** [wg.Done()] on the WaitGroup of batch [b]. *)
Definition wg_Done (b : nat) (ws : list nat) : option (list nat) :=
  match ws !! b with
  | Some (S c) => Some (<[b:=c]> ws)
  | _ => None
  end.

(** The goroutine [i] moves to the program point [p]. *)
Definition move (i : nat) (t : task) (p : task_pc) (s : state) : state :=
  set_tasks s (wgs s) (<[i:=set_task_pc t p]> (tasks s)).

(** The goroutine [i] leaves line 397. *)
Definition finish (i : nat) (t : task) (s : state) : step_result state :=
  match wg_Done (t_batch t) (wgs s) with
  | Some ws => Next (set_tasks s ws (<[i:=set_task_pc t Finished]> (tasks s)))
  | None => Panic "sync: negative WaitGroup counter"
  end.

Inductive label :=
| Main                                (* the evictPods goroutine moves *)
| StopFires                           (* the caller closes [stop] *)
| TaskEvict (i : nat) (resp : error)  (* task i calls Evict and gets resp *)
| TaskWake (i : nat)                  (* task i wakes up and polls its stop *)
| TaskSend (i : nat).                 (* the send of task i goes through *)

(** One step of the goroutine [i].  Nothing receives from [errCh] while the
    tasks run (its only receive is in the deferred function, behind the
    length test), so the send of line 395 goes through only into a free
    buffer slot. *)
Definition task_step (l : label) (i : nat) (s : state) : step_result state :=
  match tasks s !! i with
  | None => Blocked
  | Some t =>
      match l, t_pc t with
      | TaskEvict _ resp, AtEvict =>
          match classify resp with
          | Evicted | AlreadyGone | NamespaceTerminating => finish i t s
          | Throttled => Next (move i t AtSleep s)
          | Fatal e => Next (move i t (AtSend e) s)
          end
      | TaskWake _, AtSleep =>
          if Chan.ready (t_stop t) then finish i t s
          else Next (move i t AtEvict s)
      | TaskSend _, AtSend e =>
          match Chan.send (errCh s) e with
          | Some c => finish i t (set_errCh s c)
          | None => Blocked
          end
      | _, _ => Blocked
      end
  end.

Definition step (l : label) (s : state) : step_result state :=
  match l with
  | Main => main_step s
  | StopFires =>
      if Chan.closed (stop s) then Blocked
      else Next (set_stop s (Chan.close (stop s)))
  | TaskEvict i _ | TaskWake i | TaskSend i => task_step l i s
  end.

(** A schedule runs from left to right. *)
Fixpoint exec (ls : list label) (s : state) : step_result state :=
  match ls with
  | [] => Next s
  | l :: ls =>
      match step l s with
      | Next s' => exec ls s'
      | Blocked => Blocked
      | Panic msg => Panic msg
      end
  end.

(** The state that a schedule reaches (the start state when it cannot run
    to its end). *)
Definition run_to (ls : list label) (s : state) : state :=
  match exec ls s with
  | Next s' => s'
  | _ => s
  end.

(** The batches that the loop of lines 379-412 cuts when every barrier is
    passed: the sequential skeleton of the loop. *)
Fixpoint plan_from (fuel : nat) (pods : list Pod)
    (numPodsLeft podsProcessedSoFar : nat) : list (list Pod) :=
  match fuel with
  | 0 => []
  | S fuel' =>
      if 0 <? numPodsLeft then
        let n := Nat.min numPodsLeft podsPerBatch in
        firstn n (skipn podsProcessedSoFar pods)
        :: plan_from fuel' pods (numPodsLeft - n) (podsProcessedSoFar + n)
      else []
  end.

Definition plan (pods : list Pod) : list (list Pod) :=
  plan_from (length pods) pods (length pods) 0.

(** The tasks that have not passed [wg.Done()]. *)
Definition outstanding (s : state) : list task :=
  List.filter (fun t => match t_pc t with Finished => false | _ => true end)
              (tasks s).

(** A schedule in which every eviction succeeds at once and the stop signal
    never comes. *)
Fixpoint calm_schedule (fuel left spawned : nat) : list label :=
  match fuel with
  | 0 => [Main]
  | S fuel' =>
      if 0 <? left then
        let n := Nat.min left podsPerBatch in
        [Main; Main]
          ++ List.map (fun i => TaskEvict i None) (seq spawned n)
          ++ [Main]
          ++ calm_schedule fuel' (left - n) (spawned + n)
      else [Main]
  end.

Definition is_finished (p : task_pc) : bool :=
  match p with Finished => true | _ => false end.

(** Number of tasks of batch [b] that have not passed [wg.Done()]. *)
Definition unfinished (b : nat) (ts : list task) : nat :=
  length (List.filter
            (fun t => (t_batch t =? b) && negb (is_finished (t_pc t))) ts).

(** The pods of the batches, each with the number of its batch, numbered
    from [b]. *)
Fixpoint tag_batches (b : nat) (d : list (list Pod)) : list (nat * Pod) :=
  match d with
  | [] => []
  | batch :: d => List.map (pair b) batch ++ tag_batches (S b) d
  end.

(** What holds of every state that a schedule reaches from [init ps]. *)
Record inv (ps : list Pod) (s : state) : Prop := {
  inv_pods : pods s = ps;
  inv_errCh : errCh s = Chan.make 0;
  inv_stop : Chan.buf (stop s) = [];
  inv_len : length (dispatched s) = length (wgs s);
  inv_tags :
    List.map (fun t => (t_batch t, t_pod t)) (tasks s) =
    tag_batches 0 (dispatched s);
  inv_batch : Forall (fun t => t_batch t < length (wgs s)) (tasks s);
  inv_wg : forall b c, wgs s !! b = Some c -> c = unfinished b (tasks s);
  inv_old : forall b, S b < length (wgs s) -> unfinished b (tasks s) = 0;
  inv_pc :
    match pc s with
    | AtLoop =>
        numPodsLeft s + podsProcessedSoFar s = length ps /\
        (forall b, unfinished b (tasks s) = 0) /\
        dispatched s ++
          plan_from (numPodsLeft s) ps (numPodsLeft s) (podsProcessedSoFar s)
        = plan ps
    | AtSelect | AtWait =>
        numPodsLeft s + podsProcessedSoFar s = length ps /\
        0 < numPodsLeft s /\
        numPodsThisBatch s = Nat.min (numPodsLeft s) podsPerBatch /\
        dispatched s ++
          plan_from (numPodsLeft s - numPodsThisBatch s) ps
            (numPodsLeft s - numPodsThisBatch s)
            (podsProcessedSoFar s + numPodsThisBatch s)
        = plan ps
    | Returned r =>
        r = None /\
        (exists rest, dispatched s ++ rest = plan ps) /\
        (Chan.closed (stop s) = false -> dispatched s = plan ps)
    end
}.

(** The main goroutine and the lists keep their place and size. *)
Definition same_main (s s' : state) : Prop :=
  pc s' = pc s /\ numPodsLeft s' = numPodsLeft s /\
  podsProcessedSoFar s' = podsProcessedSoFar s /\
  numPodsThisBatch s' = numPodsThisBatch s /\
  stop s' = stop s /\
  length (wgs s') = length (wgs s) /\
  length (tasks s') = length (tasks s).

(** The scheduling choices of task [i] that replay a trace of [evictPod]. *)
Fixpoint schedule_of_trace (i : nat) (tr : list event) : list label :=
  match tr with
  | [] => []
  | CallEvict _ _ resp :: tr => TaskEvict i resp :: schedule_of_trace i tr
  | Sleep _ :: tr => schedule_of_trace i tr
  | PollStop _ :: tr => TaskWake i :: schedule_of_trace i tr
  end.

(** Where the goroutine of a pod stands once [evictPod] has returned [r]. *)
Definition pc_after (r : error) : task_pc :=
  match r with
  | None => Finished
  | Some e => AtSend e
  end.

(** Unfolds the projections of a state that is given by its fields. *)
Ltac state_simpl :=
  cbn [pods stop errCh numPodsLeft podsProcessedSoFar numPodsThisBatch wgs
       tasks dispatched pc set_pc set_stop set_errCh set_tasks close_stopChs
       move].

End EvictPods.

(** ** DrainCoordinator *)

Module DrainNode.

(** Where the goroutine of lines 194-198 stands. *)
Inductive evictor_pc :=
| InEvictPods            (* line 195, inside evictPods *)
| AtErrSend (e : Err)    (* line 196, at [errCh <- err] *)
| EvictorExited.

(** Where the goroutine of lines 202-240 stands. *)
Inductive poller_pc :=
| Polling                (* in the loop *)
| AtDoneSend             (* line 225, at [doneDraining <- true] *)
| PollerExited.

(** Where [DrainNode] itself stands. *)
Inductive main_pc :=
| AtSelect               (* line 242 *)
| Returned (err : error).

Record state := {
  errCh : Chan.chan Err;
  stopPolling : Chan.chan bool;
  evict : EvictPods.state;  (* the run of evictPods, with stopEvicting *)
  evictor : evictor_pc;
  poller : poller_pc;
  pc : main_pc
}.

Definition stopEvicting (s : state) : Chan.chan bool :=
  EvictPods.stop (evict s).

Definition excluded_kind : string := "DaemonSet".

(** Lines 165-200 and 202: the listing of line 170 answers with the items
    and an error.  An error is returned as it is, before anything is
    started; otherwise the pods are filtered, the channels are made and
    both goroutines are started. *)
Definition start (items : list Pod) (err : error) : state :=
  match err with
  | Some e =>
      {| errCh := Chan.make 0; stopPolling := Chan.make 0;
         evict := EvictPods.init [];
         evictor := EvictorExited; poller := PollerExited;
         pc := Returned (Some e) |}
  | None =>
      {| errCh := Chan.make 0; stopPolling := Chan.make 0;
         evict :=
           EvictPods.init
             (Filter.filterOutPodByOwnerReferenceKind items excluded_kind);
         evictor := InEvictPods; poller := Polling;
         pc := AtSelect |}
  end.

Definition set_evict (s : state) (b : EvictPods.state) : state :=
  {| errCh := errCh s; stopPolling := stopPolling s; evict := b;
     evictor := evictor s; poller := poller s; pc := pc s |}.

Definition set_evictor (s : state) (c : Chan.chan Err) (p : evictor_pc)
    : state :=
  {| errCh := c; stopPolling := stopPolling s; evict := evict s;
     evictor := p; poller := poller s; pc := pc s |}.

Definition set_poller (s : state) (p : poller_pc) : state :=
  {| errCh := errCh s; stopPolling := stopPolling s; evict := evict s;
     evictor := evictor s; poller := p; pc := pc s |}.

(** Lines 249-250 and 253-254. *)
Definition close_both (s : state) : state :=
  {| errCh := errCh s; stopPolling := Chan.close (stopPolling s);
     evict :=
       EvictPods.set_stop (evict s) (Chan.close (EvictPods.stop (evict s)));
     evictor := evictor s; poller := poller s; pc := pc s |}.

(** Lines 188-192, the deferred function.  [err] is nil at the three
    [return]s that follow the listing, so the result is decided here. *)
Definition deferred (s : state) : state :=
  if 0 <? Chan.len (errCh s) then
    match Chan.recv (errCh s) with
    | Some (e, c) =>
        {| errCh := c; stopPolling := stopPolling s; evict := evict s;
           evictor := evictor s; poller := poller s; pc := Returned (Some e) |}
    | None =>
        {| errCh := errCh s; stopPolling := stopPolling s; evict := evict s;
           evictor := evictor s; poller := poller s; pc := Returned None |}
    end
  else
    {| errCh := errCh s; stopPolling := stopPolling s; evict := evict s;
       evictor := evictor s; poller := poller s; pc := Returned None |}.

Inductive label :=
| Pipeline (l : EvictPods.label)  (* a goroutine of the pipeline moves *)
| EvictorReturn               (* evictPods has returned; the test of line 195 *)
| EvictorSend                 (* the send of line 196 goes through *)
| Poll (items : list Pod) (err : error)  (* the poller lists the pods *)
| Drained                     (* the select receives from doneDraining *)
| Timeout                     (* the select receives from time.After *)
| Cancelled.                  (* the select receives from ctx.Done() *)

Definition lift (s : state) (r : step_result EvictPods.state)
    : step_result state :=
  match r with
  | Next b => Next (set_evict s b)
  | Blocked => Blocked
  | Panic msg => Panic msg
  end.

(** One iteration of the loop of lines 203-239 (the sleeps take no step). *)
Definition poll (items : list Pod) (err : error) (s : state) : state :=
  match err with
  | Some _ => s
  | None =>
      let podsPending :=
        length (Filter.filterOutPodByOwnerReferenceKind items excluded_kind) in
      if podsPending =? 0 then set_poller s AtDoneSend
      else if Chan.ready (stopPolling s) then set_poller s PollerExited
      else s
  end.

(** One scheduling choice.  [doneDraining] is unbuffered: the select
    receives from it only while the poller stands at its send.  The timer
    and the context can fire at any moment.  Only [DrainNode] closes
    [stopEvicting], so the pipeline's own [StopFires] is no choice here. *)
Definition step (l : label) (s : state) : step_result state :=
  match l with
  | Pipeline EvictPods.StopFires => Blocked
  | Pipeline EvictPods.Main =>
      match evictor s with
      | InEvictPods => lift s (EvictPods.step EvictPods.Main (evict s))
      | _ => Blocked
      end
  | Pipeline l' => lift s (EvictPods.step l' (evict s))
  | EvictorReturn =>
      match evictor s, EvictPods.pc (evict s) with
      | InEvictPods, EvictPods.Returned (Some e) =>
          Next (set_evictor s (errCh s) (AtErrSend e))
      | InEvictPods, EvictPods.Returned None =>
          Next (set_evictor s (errCh s) EvictorExited)
      | _, _ => Blocked
      end
  | EvictorSend =>
      match evictor s with
      | AtErrSend e =>
          match Chan.send (errCh s) e with
          | Some c => Next (set_evictor s c EvictorExited)
          | None => Blocked
          end
      | _ => Blocked
      end
  | Poll items err =>
      match poller s with
      | Polling => Next (poll items err s)
      | _ => Blocked
      end
  | Drained =>
      match pc s, poller s with
      | AtSelect, AtDoneSend => Next (deferred (set_poller s PollerExited))
      | _, _ => Blocked
      end
  | Timeout | Cancelled =>
      match pc s with
      | AtSelect => Next (deferred (close_both s))
      | Returned _ => Blocked
      end
  end.

Fixpoint exec (ls : list label) (s : state) : step_result state :=
  match ls with
  | [] => Next s
  | l :: ls =>
      match step l s with
      | Next s' => exec ls s'
      | Blocked => Blocked
      | Panic msg => Panic msg
      end
  end.

Definition run_to (ls : list label) (s : state) : state :=
  match exec ls s with
  | Next s' => s'
  | _ => s
  end.

(** What holds of every state that a schedule reaches after a listing
    without error. *)
Record inv (s : state) : Prop := {
  dinv_errCh : errCh s = Chan.make 0;
  dinv_stopPolling_buf : Chan.buf (stopPolling s) = [];
  dinv_evict : exists ps, EvictPods.inv ps (evict s);
  dinv_pc :
    match pc s with
    | AtSelect =>
        Chan.closed (stopPolling s) = false /\
        Chan.closed (stopEvicting s) = false
    | Returned r => r = None
    end
}.

End DrainNode.

(** ** Sample objects *)

Module Examples.

Definition owner (kind name : string) : OwnerReference :=
  {| Kind := kind; RefName := name |}.

Definition pod (name : string) (owners : list OwnerReference) : Pod :=
  {| pod_ObjectMeta :=
       {| Name := name; Namespace := "default";
          OwnerReferences := owners; Annotations := None |};
     pod_Spec := {| NodeName := "gke-pool-1-abcd" |} |}.

(** A pod of a ReplicaSet, a pod of a DaemonSet, a bare pod and a pod with
    two owners, none of them a DaemonSet. *)
Definition web : Pod := pod "web-0" [owner "ReplicaSet" "web"].
Definition agent : Pod := pod "agent-x" [owner "DaemonSet" "agent"].
Definition bare : Pod := pod "debug" [].
Definition shared : Pod :=
  pod "shared-0" [owner "ReplicaSet" "shared"; owner "Job" "warmup"].

Definition numbered (n : nat) : Pod :=
  pod (String (Ascii.ascii_of_nat (65 + n)) EmptyString)
      [owner "ReplicaSet" "web"].

(** Eleven distinct pods: one full batch and one more pod. *)
Definition eleven : list Pod := List.map numbered (seq 0 11).

Definition internal_error : Err :=
  {| Error := "Internal error occurred";
     IsNotFound := false; IsTooManyRequests := false;
     IsForbidden := false; HasNamespaceTerminatingCause := false |}.

Definition too_many_requests : Err :=
  {| Error := "Cannot evict pod as it would violate the pod's disruption budget.";
     IsNotFound := false; IsTooManyRequests := true;
     IsForbidden := false; HasNamespaceTerminatingCause := false |}.

Definition pod_not_found : Err :=
  {| Error := "pods web-0 not found";
     IsNotFound := true; IsTooManyRequests := false;
     IsForbidden := false; HasNamespaceTerminatingCause := false |}.

Definition node (name providerID : string)
    (annotations : option (gmap string string)) : Node :=
  {| node_ObjectMeta :=
       {| Name := name; Namespace := EmptyString;
          OwnerReferences := []; Annotations := annotations |};
     node_Spec := {| ProviderID := providerID; Unschedulable := false |} |}.

Definition gke_node (annotations : option (gmap string string)) : Node :=
  node "gke-pool-1-abcd" "gce://my-project/europe-west1-b/gke-pool-1-abcd"
       annotations.

Definition cluster (annotations : option (gmap string string))
    : NodeOps.fake_server :=
  {| NodeOps.fs_nodes := [gke_node annotations];
     NodeOps.fs_update_error := None |}.

(** Two throttled attempts, then an internal error. *)
Definition api_throttle_then_fail (k : nat) : error :=
  if k <? 2 then Some too_many_requests else Some internal_error.

(** Three throttled attempts, then success. *)
Definition api_throttle_then_ok (k : nat) : error :=
  if k <? 3 then Some too_many_requests else None.

Definition never_stopped (k : nat) : bool := false.

(** *** Runs of [evictPods] *)

(** The stop signal comes while the only pod of the batch is throttled
    and the loop waits at the barrier. *)
Definition schedule_stop_at_barrier : list EvictPods.label :=
  [EvictPods.Main; EvictPods.Main;
   EvictPods.TaskEvict 0 (Some too_many_requests);
   EvictPods.StopFires].

Definition at_barrier : EvictPods.state :=
  EvictPods.run_to schedule_stop_at_barrier (EvictPods.init [web]).

(** One more round of the throttled pod: it wakes up, polls its stop
    channel, calls Evict and is throttled again. *)
Definition throttled_round : list EvictPods.label :=
  [EvictPods.TaskWake 0; EvictPods.TaskEvict 0 (Some too_many_requests)].

(** Eleven pods; the stop signal comes during the first batch, whose ten
    evictions then succeed; the loop goes on. *)
Definition schedule_stop_first_batch : list EvictPods.label :=
  [EvictPods.Main; EvictPods.Main; EvictPods.StopFires]
    ++ List.map (fun i => EvictPods.TaskEvict i None) (seq 0 10)
    ++ [EvictPods.Main; EvictPods.Main; EvictPods.Main].

Definition after_first_batch : EvictPods.state :=
  EvictPods.run_to schedule_stop_first_batch (EvictPods.init eleven).

(** The stop signal is there before the select of the first batch. *)
Definition schedule_stop_before_select : list EvictPods.label :=
  [EvictPods.Main; EvictPods.StopFires; EvictPods.Main].

Definition stopped_early : EvictPods.state :=
  EvictPods.run_to schedule_stop_before_select (EvictPods.init [web]).

(** The first batch of eleven pods is dispatched and the loop is at its
    barrier. *)
Definition schedule_first_dispatch : list EvictPods.label :=
  [EvictPods.Main; EvictPods.Main].

Definition first_dispatch : EvictPods.state :=
  EvictPods.run_to schedule_first_dispatch (EvictPods.init eleven).

(** Eleven pods, every eviction succeeds at once. *)
Definition calm_eleven : EvictPods.state :=
  EvictPods.run_to (EvictPods.calm_schedule 11 11 0) (EvictPods.init eleven).

(** *** Runs of [DrainNode] *)

(** The eviction of the only pod fails; the poller then finds the node
    empty and the drain is resolved as drained. *)
Definition schedule_fatal : list DrainNode.label :=
  [DrainNode.Pipeline EvictPods.Main;
   DrainNode.Pipeline EvictPods.Main;
   DrainNode.Pipeline (EvictPods.TaskEvict 0 (Some internal_error));
   DrainNode.Poll [] None;
   DrainNode.Drained].

Definition fatal_then_drained : DrainNode.state :=
  DrainNode.run_to schedule_fatal (DrainNode.start [web] None).

(** The same failure, with the drain resolved by the timer. *)
Definition schedule_fatal_timeout : list DrainNode.label :=
  [DrainNode.Pipeline EvictPods.Main;
   DrainNode.Pipeline EvictPods.Main;
   DrainNode.Pipeline (EvictPods.TaskEvict 0 (Some internal_error));
   DrainNode.Timeout].

Definition fatal_then_timeout : DrainNode.state :=
  DrainNode.run_to schedule_fatal_timeout (DrainNode.start [web] None).

(** The pod with two owners: the first batch is dispatched. *)
Definition schedule_dispatch : list DrainNode.label :=
  [DrainNode.Pipeline EvictPods.Main].

Definition shared_dispatched : DrainNode.state :=
  DrainNode.run_to schedule_dispatch (DrainNode.start [shared] None).

(** One pod: the first batch is dispatched, then the timer fires. *)
Definition web_dispatched : DrainNode.state :=
  DrainNode.run_to schedule_dispatch (DrainNode.start [web] None).

Definition web_timed_out : DrainNode.state :=
  DrainNode.run_to (schedule_dispatch ++ [DrainNode.Timeout])
    (DrainNode.start [web] None).

(** Three pods of a ReplicaSet. *)
Definition three : list Pod := List.map numbered (seq 0 3).

(** Every eviction of the three pods succeeds, [evictPods] returns, the
    poller finds no pod left and the drain is resolved as drained. *)
Definition schedule_drained : list DrainNode.label :=
  [DrainNode.Pipeline EvictPods.Main; DrainNode.Pipeline EvictPods.Main;
   DrainNode.Pipeline (EvictPods.TaskEvict 0 None);
   DrainNode.Pipeline (EvictPods.TaskEvict 1 None);
   DrainNode.Pipeline (EvictPods.TaskEvict 2 None);
   DrainNode.Pipeline EvictPods.Main; DrainNode.Pipeline EvictPods.Main;
   DrainNode.EvictorReturn;
   DrainNode.Poll [] None;
   DrainNode.Drained].

Definition three_drained : DrainNode.state :=
  DrainNode.run_to schedule_drained (DrainNode.start three None).

(** Only a DaemonSet pod is listed: nothing to evict; the poller lists the
    same pod, counts no pending pod, and the drain is resolved as drained. *)
Definition schedule_daemonset_only : list DrainNode.label :=
  [DrainNode.Pipeline EvictPods.Main;
   DrainNode.EvictorReturn;
   DrainNode.Poll [agent] None;
   DrainNode.Drained].

Definition daemonset_drained : DrainNode.state :=
  DrainNode.run_to schedule_daemonset_only (DrainNode.start [agent] None).

(** Proves a conjunction of equations between closed terms by running
    both sides. *)
Ltac by_running := repeat apply conj; vm_compute; reflexivity.

End Examples.

(** ** More about PodSetFilter *)

Module FilterViews.

(** The test of line 155. *)
Definition on_node (nodeName : string) (pod : Pod) : bool :=
  String.eqb (NodeName (pod_Spec pod)) nodeName.

(** The test of line 143. *)
Definition differs (kind : string) (ownerReference : OwnerReference) : bool :=
  negb (String.eqb (Kind ownerReference) kind).

(** The pod has an owner reference whose kind differs from [kind]. *)
Definition has_other_owner (kind : string) (pod : Pod) : bool :=
  existsb (differs kind) (OwnerReferences (pod_ObjectMeta pod)).

(** Sum of the numbers of a list. *)
Definition total (ns : list nat) : nat := fold_right Nat.add 0 ns.

End FilterViews.

(** ** More about PodEvictor *)

Module EvictPodViews.
Import EvictPod.

(** The test of line 436, reached when the two tests before it fail. *)
Definition is_throttled (resp : error) : bool :=
  match classify resp with Throttled => true | _ => false end.

(** The outcomes of the polls of the stop channel, in order. *)
Fixpoint polls (tr : list event) : list bool :=
  match tr with
  | [] => []
  | PollStop b :: tr => b :: polls tr
  | _ :: tr => polls tr
  end.

(** The run saw the stop signal at one of its polls. *)
Definition saw_stop (tr : list event) : bool := existsb (fun b => b) (polls tr).

(** The iteration [k] of the loop is the last one: the response is not a
    throttling one, or the stop signal is there at the poll. *)
Definition leaves (api : nat -> error) (stop : nat -> bool) (k : nat) : bool :=
  negb (is_throttled (api k)) || stop k.

(** An event of a run on [pod]: a call for the eviction object of lines
    420-425, a sleep of line 440, or a poll. *)
Definition event_of (pod : Pod) (ev : event) : Prop :=
  match ev with
  | CallEvict namespace name _ =>
      namespace = Namespace (pod_ObjectMeta pod) /\
      name = Name (pod_ObjectMeta pod)
  | Sleep seconds => seconds = 5
  | PollStop _ => True
  end.

End EvictPodViews.

(** ** More about BatchEvictor *)

Module EvictPodsViews.
Import EvictPod EvictPods.

(** The moves that the goroutines of [evictPods] make in a run, by the
    line of the source that makes them. *)
Inductive transition (s : state) : state -> Prop :=
| tr_dispatch :                                     (* lines 379-399 *)
    pc s = AtLoop -> 0 < numPodsLeft s ->
    transition s
      {| pods := pods s; stop := stop s; errCh := errCh s;
         numPodsLeft := numPodsLeft s;
         podsProcessedSoFar := podsProcessedSoFar s;
         numPodsThisBatch := Nat.min (numPodsLeft s) podsPerBatch;
         wgs := wgs s ++ [Nat.min (numPodsLeft s) podsPerBatch];
         tasks :=
           tasks s ++
           List.map (fun pod =>
                       {| t_pod := pod; t_batch := length (wgs s);
                          t_stop := Chan.make 0; t_pc := AtEvict |})
                    (take (Nat.min (numPodsLeft s) podsPerBatch)
                          (drop (podsProcessedSoFar s) (pods s)));
         dispatched :=
           dispatched s ++
           [take (Nat.min (numPodsLeft s) podsPerBatch)
                 (drop (podsProcessedSoFar s) (pods s))];
         pc := AtSelect |}
| tr_done :                                         (* lines 379, 413 *)
    pc s = AtLoop -> numPodsLeft s = 0 ->
    transition s (set_pc s (Returned None))
| tr_stop_seen :                                    (* lines 402-406 *)
    pc s = AtSelect -> Chan.closed (stop s) = true ->
    transition s (set_pc (close_stopChs s) (Returned None))
| tr_default :                                      (* line 407 *)
    pc s = AtSelect -> Chan.closed (stop s) = false ->
    transition s (set_pc s AtWait)
| tr_barrier :                                      (* lines 408-410 *)
    pc s = AtWait -> (forall b, unfinished b (tasks s) = 0) ->
    transition s
      {| pods := pods s; stop := stop s; errCh := errCh s;
         numPodsLeft := numPodsLeft s - numPodsThisBatch s;
         podsProcessedSoFar := podsProcessedSoFar s + numPodsThisBatch s;
         numPodsThisBatch := numPodsThisBatch s;
         wgs := wgs s; tasks := tasks s; dispatched := dispatched s;
         pc := AtLoop |}
| tr_stop_fires :                                   (* the caller *)
    Chan.closed (stop s) = false ->
    transition s (set_stop s (Chan.close (stop s)))
| tr_move i t p :                                   (* lines 427-453 *)
    tasks s !! i = Some t ->
    (t_pc t = AtEvict /\ (p = AtSleep \/ exists e, p = AtSend e)) \/
    (t_pc t = AtSleep /\ Chan.ready (t_stop t) = false /\ p = AtEvict) ->
    transition s (move i t p s)
| tr_finish i t c :                                 (* line 397 *)
    tasks s !! i = Some t ->
    t_pc t = AtEvict \/ (t_pc t = AtSleep /\ Chan.ready (t_stop t) = true) ->
    wgs s !! t_batch t = Some (S c) ->
    transition s
      (set_tasks s (<[t_batch t:=c]> (wgs s))
         (<[i:=set_task_pc t Finished]> (tasks s))).

(** The goroutine [i] stands at the send of line 395 with the error [e]. *)
Definition stuck_at (i : nat) (e : Err) (s : state) : Prop :=
  exists t, tasks s !! i = Some t /\ t_pc t = AtSend e.

Definition is_send (l : label) : bool :=
  match l with TaskSend _ => true | _ => false end.

Definition is_task_label (l : label) : bool :=
  match l with TaskEvict _ _ | TaskWake _ | TaskSend _ => true | _ => false end.

Definition has_returned (s : state) : bool :=
  match pc s with Returned _ => true | _ => false end.

(** The stop channel of a goroutine holds nothing, and it is closed only
    by the return of lines 402-406, for the batch that was running. *)
Definition stop_closed_late (s : state) (t : task) : Prop :=
  Chan.buf (t_stop t) = [] /\
  (Chan.closed (t_stop t) = true ->
   has_returned s = true /\ S (t_batch t) = length (wgs s) /\
   Chan.closed (stop s) = true).

(** Once [evictPods] has returned without the stop signal, no goroutine
    is left. *)
Definition quiet_return (s : state) : Prop :=
  has_returned s = true -> Chan.closed (stop s) = false ->
  Forall (fun t => t_pc t = Finished) (tasks s).

(** While the loop stands at the select or at the barrier of a batch, the
    WaitGroup of that batch exists. *)
Definition batch_open (s : state) : Prop :=
  match pc s with
  | AtSelect | AtWait => wgs s <> []
  | _ => True
  end.

(** Unfolds the projections of a state that is given by its fields, in a
    hypothesis. *)
Ltac state_simpl_in H :=
  cbn [pods stop errCh numPodsLeft podsProcessedSoFar numPodsThisBatch wgs
       tasks dispatched pc set_pc set_stop set_errCh set_tasks close_stopChs
       move] in H.

End EvictPodsViews.

(** ** KubeDNSDrainer *)

Module DrainKubeDNS.
Import DrainNode.

(** Lines 266-302 and 304: the listing of line 272 answers with the items
    and an error.  An error is returned as it is, before anything is
    started; otherwise the pods of other nodes are filtered out, the
    channels are made and both goroutines are started. *)
Definition start (nodeName : string) (items : list Pod) (err : error)
    : state :=
  match err with
  | Some e =>
      {| errCh := Chan.make 0; stopPolling := Chan.make 0;
         evict := EvictPods.init [];
         evictor := EvictorExited; poller := PollerExited;
         pc := Returned (Some e) |}
  | None =>
      {| errCh := Chan.make 0; stopPolling := Chan.make 0;
         evict := EvictPods.init (Filter.filterOutPodByNode items nodeName);
         evictor := InEvictPods; poller := Polling;
         pc := AtSelect |}
  end.

(** One iteration of the loop of lines 305-341 (the sleeps take no step). *)
Definition poll (nodeName : string) (items : list Pod) (err : error)
    (s : state) : state :=
  match err with
  | Some _ => s
  | None =>
      let podsPending := length (Filter.filterOutPodByNode items nodeName) in
      if podsPending =? 0 then set_poller s AtDoneSend
      else if Chan.ready (stopPolling s) then set_poller s PollerExited
      else s
  end.

(** One scheduling choice.  The evictor of lines 296-300, the select of
    lines 344-358 and the deferred function of lines 290-294 are, line for
    line, those of [DrainNode]; the poller is the one above. *)
Definition step (nodeName : string) (l : label) (s : state)
    : step_result state :=
  match l with
  | Poll items err =>
      match poller s with
      | Polling => Next (poll nodeName items err s)
      | _ => Blocked
      end
  | _ => DrainNode.step l s
  end.

Fixpoint exec (nodeName : string) (ls : list label) (s : state)
    : step_result state :=
  match ls with
  | [] => Next s
  | l :: ls =>
      match step nodeName l s with
      | Next s' => exec nodeName ls s'
      | Blocked => Blocked
      | Panic msg => Panic msg
      end
  end.

Definition run_to (nodeName : string) (ls : list label) (s : state) : state :=
  match exec nodeName ls s with
  | Next s' => s'
  | _ => s
  end.

End DrainKubeDNS.

(** ** More about the drains *)

Module DrainViews.
Import DrainNode.

(** Every owner reference of every listed pod is of the excluded kind. *)
Definition only_excluded_owners (items : list Pod) : Prop :=
  forall p r,
    In p items -> In r (OwnerReferences (pod_ObjectMeta p)) ->
    Kind r = excluded_kind.

(** No listed pod sits on the node. *)
Definition none_on_node (nodeName : string) (items : list Pod) : Prop :=
  forall p, In p items -> NodeName (pod_Spec p) <> nodeName.

(** The three ways in which the select of lines 242-256 is resolved. *)
Definition resolves (l : label) : bool :=
  match l with Drained | Timeout | Cancelled => true | _ => false end.

(** [evictPods] has been started on [ps] and has got to where it is by
    steps of its own. *)
Definition evicting (ps : list Pod) (s : state) : Prop :=
  exists ls, EvictPods.exec ls (EvictPods.init ps) = Next (evict s).

(** The goroutine of lines 194-198 never gets an error to send. *)
Definition evictor_quiet (s : state) : Prop :=
  forall e, evictor s <> AtErrSend e.

(** Where a drain that has returned [r] in the state [s0] can still be. *)
Definition settled (r : error) (s0 s : state) : Prop :=
  pc s = Returned r /\
  stopPolling s = stopPolling s0 /\
  stopEvicting s = stopEvicting s0 /\
  (poller s0 = AtDoneSend -> poller s = AtDoneSend).

End DrainViews.

(** ** More node operations *)

Module NodeWrites.
Import NodeOps.

Definition set_Unschedulable (n : Node) (unschedulable : bool) : Node :=
  {| node_ObjectMeta := node_ObjectMeta n;
     node_Spec :=
       {| ProviderID := ProviderID (node_Spec n);
          Unschedulable := unschedulable |} |}.

Section WithClient.
Context {Server : Type} `{Clientset Server}.

(** Lines 121-137. *)
Definition SetUnschedulableState (nodeName : string) (unschedulable : bool)
    (srv : Server) : outcome (error * Server) :=
  let '(node, err) := GetNode nodeName srv in
  match err with
  | Some e =>
      Returns
        (Some (fmt_Errorf
                 ("Error getting node information before setting unschedulable state:"
                    +:+ newline +:+ Error e)),
         srv)
  | None =>
      let '(_, err, srv') :=
        Nodes_Update (set_Unschedulable node unschedulable) srv in
      Returns (err, srv')
  end.

(** An API server that answers a [Get] by name with the node of that name
    and that keeps the node it was given by an [Update] that succeeded,
    as long as nobody else writes to it. *)
Record StoresUpdates : Prop := {
  get_named :
    forall name srv n,
      Nodes_Get name srv = (n, None) -> Name (node_ObjectMeta n) = name;
  update_stored :
    forall name srv n n' r srv',
      Nodes_Get name srv = (n, None) ->
      Name (node_ObjectMeta n') = name ->
      Nodes_Update n' srv = ((r, None), srv') ->
      Nodes_Get name srv' = (n', None)
}.

End WithClient.
Arguments StoresUpdates Server {_}.

(** The message of the error that [SetNodeAnnotation] returns when the
    node cannot be fetched. *)
Definition annotation_get_failed (e : Err) : Err :=
  fmt_Errorf ("Error getting node information before setting annotation:"
                +:+ newline +:+ Error e).

Definition unschedulable_get_failed (e : Err) : Err :=
  fmt_Errorf
    ("Error getting node information before setting unschedulable state:"
       +:+ newline +:+ Error e).

End NodeWrites.

(** ** NodeLister *)

Module NodeList.

(** [kubeClientset.CoreV1().Nodes().List] over the state of the API
    server.  The label set stands for the selector that
    [labelSelector.String()] renders from it. *)
Class NodeLister (Server : Type) := {
  Nodes_List : gmap string string -> Server -> list Node * error
}.

Definition preemptible_label : string := "cloud.google.com/gke-preemptible".

(** Line 67, for one entry of [filters]. *)
Definition assign (key value : string) (labelSelector : gmap string string)
    : gmap string string :=
  <[key:=value]> labelSelector.

(** Lines 62-68.  [filters] may be nil: ranging over a nil map visits
    nothing, as for the empty map. *)
Definition labelSelector (filters : gmap string string)
    : gmap string string :=
  map_fold assign {[ preemptible_label := "true" ]} filters.

(** The loop of lines 66-68 when [range] visits the entries in the order
    of [entries]. *)
Definition labelSelector_in_order (entries : list (string * string))
    : gmap string string :=
  fold_left (fun labelSelector kv => assign kv.1 kv.2 labelSelector) entries
            {[ preemptible_label := "true" ]}.

(** Lines 60-78. *)
Definition GetPreemptibleNodes {Server : Type} `{NodeLister Server}
    (filters : gmap string string) (srv : Server) : list Node * error :=
  Nodes_List (labelSelector filters) srv.

(** A test double for the API server: every node comes with its labels,
    and a node is listed when it carries every label of the selector. *)
Definition labelled_server : Type := list (gmap string string * Node).

Definition matches (selector labels : gmap string string) : bool :=
  forallb (fun kv => bool_decide (labels !! kv.1 = Some kv.2))
          (map_to_list selector).

Definition fake_list (selector : gmap string string) (srv : labelled_server)
    : list Node * error :=
  (List.map snd (List.filter (fun ln => matches selector ln.1) srv), None).

#[global] Instance fake_lister : NodeLister labelled_server :=
  {| Nodes_List := fake_list |}.

End NodeList.

(** ** More sample objects *)

Module MoreExamples.
Import Examples.

(** Two kube-dns pods, one on the node that is drained and one elsewhere. *)
Definition pod_on (name nodeName : string) : Pod :=
  {| pod_ObjectMeta :=
       {| Name := name; Namespace := "kube-system";
          OwnerReferences := [owner "ReplicaSet" "kube-dns"];
          Annotations := None |};
     pod_Spec := {| NodeName := nodeName |} |}.

Definition dns_here : Pod := pod_on "kube-dns-1" "gke-pool-1-abcd".
Definition dns_there : Pod := pod_on "kube-dns-2" "gke-pool-1-efgh".

(** *** Runs of [evictPods] *)

(** The eviction of the only pod fails. *)
Definition schedule_failed : list EvictPods.label :=
  [EvictPods.Main; EvictPods.Main;
   EvictPods.TaskEvict 0 (Some internal_error)].

Definition web_failed : EvictPods.state :=
  EvictPods.run_to schedule_failed (EvictPods.init [web]).

Definition failed_task : EvictPods.task :=
  {| EvictPods.t_pod := web; EvictPods.t_batch := 0;
     EvictPods.t_stop := Chan.make 0;
     EvictPods.t_pc := EvictPods.AtSend internal_error |}.

(** The stop signal comes afterwards. *)
Definition web_failed_stopped : EvictPods.state :=
  EvictPods.run_to [EvictPods.StopFires] web_failed.

(** Eleven pods; the eviction of the first pod fails while the loop waits
    at the barrier of the first batch, and no stop signal comes. *)
Definition eleven_failed : EvictPods.state :=
  EvictPods.run_to schedule_failed (EvictPods.init eleven).

(** The evictions of the other nine pods of the batch succeed. *)
Definition schedule_nine_evicted : list EvictPods.label :=
  List.map (fun i => EvictPods.TaskEvict i None) (seq 1 9).

Definition eleven_nine_evicted : EvictPods.state :=
  EvictPods.run_to schedule_nine_evicted eleven_failed.

(** The throttled goroutine of [at_barrier]. *)
Definition sleeping_task : EvictPods.task :=
  {| EvictPods.t_pod := web; EvictPods.t_batch := 0;
     EvictPods.t_stop := Chan.make 0; EvictPods.t_pc := EvictPods.AtSleep |}.

(** The first goroutine of [first_dispatch]. *)
Definition first_task : EvictPods.task :=
  {| EvictPods.t_pod := numbered 0; EvictPods.t_batch := 0;
     EvictPods.t_stop := Chan.make 0; EvictPods.t_pc := EvictPods.AtEvict |}.

(** *** Runs of [DrainNode] *)

(** After the timeout, the loop of [evictPods] finds the stop signal. *)
Definition web_stopped : DrainNode.state :=
  DrainNode.run_to [DrainNode.Pipeline EvictPods.Main] web_timed_out.

(** The only pod is throttled; the poller lists no pod. *)
Definition schedule_throttled_polled : list DrainNode.label :=
  [DrainNode.Pipeline EvictPods.Main;
   DrainNode.Pipeline EvictPods.Main;
   DrainNode.Pipeline (EvictPods.TaskEvict 0 (Some too_many_requests));
   DrainNode.Poll [] None].

Definition web_throttled_polled : DrainNode.state :=
  DrainNode.run_to schedule_throttled_polled (DrainNode.start [web] None).

(** The select is resolved by the poller, and the throttled goroutine
    wakes up afterwards. *)
Definition web_throttled_drained : DrainNode.state :=
  DrainNode.run_to [DrainNode.Drained] web_throttled_polled.

Definition web_retrying : DrainNode.state :=
  DrainNode.run_to [DrainNode.Pipeline (EvictPods.TaskWake 0)]
    web_throttled_drained.

(** *** Runs of [DrainKubeDNSFromNode] *)

Definition kube_start : DrainNode.state :=
  DrainKubeDNS.start "gke-pool-1-abcd" [dns_here; dns_there] None.

Definition kube_dispatched : DrainNode.state :=
  DrainKubeDNS.run_to "gke-pool-1-abcd" [DrainNode.Pipeline EvictPods.Main]
    kube_start.

(** *** Servers *)

(** The sample cluster after its node has been cordoned. *)
Definition cordoned : NodeOps.fake_server :=
  {| NodeOps.fs_nodes := [NodeWrites.set_Unschedulable (gke_node None) true];
     NodeOps.fs_update_error := None |}.

(** A node without provider id. *)
Definition bare_metal : NodeOps.fake_server :=
  {| NodeOps.fs_nodes := [node "node-1" EmptyString None];
     NodeOps.fs_update_error := None |}.

(** A preemptible node and an on-demand node of the same cluster. *)
Definition spot_node : Node := node "gke-pool-1-abcd" "gce://p/z/abcd" None.
Definition steady_node : Node := node "gke-pool-2-wxyz" "gce://p/z/wxyz" None.

Definition labelled_cluster : NodeList.labelled_server :=
  [({[ NodeList.preemptible_label := "true" ]}, spot_node);
   ({[ NodeList.preemptible_label := "false" ]}, steady_node)].

End MoreExamples.

(** * Theorems *)

(** ** Theorems about PodSetFilter *)

Module FilterFacts.
Import Filter.

Lemma inner_loop_spec pod kind refs : forall output,
  inner_loop pod kind output refs =
  output ++ repeat pod
    (length (List.filter (fun r => negb (String.eqb (Kind r) kind)) refs)).
Proof.
  unfold inner_loop.
  induction refs as [|r refs IH]; intros output; simpl.
  - by rewrite app_nil_r.
  - rewrite IH. destruct (negb (String.eqb (Kind r) kind)); simpl.
    + by rewrite <- app_assoc.
    + done.
Qed.

Lemma outer_loop_spec kind podList : forall output,
  fold_left
    (fun output pod =>
       inner_loop pod kind output (OwnerReferences (pod_ObjectMeta pod)))
    podList output =
  output ++ flat_map
    (fun pod => repeat pod (length (differing_refs pod kind))) podList.
Proof.
  induction podList as [|pod podList IH]; intros output; simpl.
  - by rewrite app_nil_r.
  - rewrite IH, inner_loop_spec. by rewrite <- app_assoc.
Qed.

Lemma filter_flat_map podList kind :
  filterOutPodByOwnerReferenceKind podList kind =
  flat_map (fun pod => repeat pod (length (differing_refs pod kind))) podList.
Proof. unfold filterOutPodByOwnerReferenceKind. by rewrite outer_loop_spec. Qed.

Lemma occurrences_app p l1 l2 :
  occurrences p (l1 ++ l2) = occurrences p l1 + occurrences p l2.
Proof. unfold occurrences. by rewrite List.filter_app, length_app. Qed.

Lemma occurrences_repeat p q n :
  occurrences p (repeat q n) = if bool_decide (q = p) then n else 0.
Proof.
  unfold occurrences. induction n as [|n IH]; simpl.
  - by destruct (bool_decide (q = p)).
  - destruct (bool_decide (q = p)) eqn:E; simpl; rewrite IH; done.
Qed.

Lemma occurrences_cons p q l :
  occurrences p (q :: l) =
  (if bool_decide (q = p) then 1 else 0) + occurrences p l.
Proof. unfold occurrences. simpl. by destruct (bool_decide (q = p)). Qed.

Lemma occurrences_filter p podList kind :
  occurrences p (filterOutPodByOwnerReferenceKind podList kind) =
  occurrences p podList * length (differing_refs p kind).
Proof.
  rewrite filter_flat_map.
  induction podList as [|q podList IH]; [done|].
  cbn [flat_map]. rewrite occurrences_app, IH, occurrences_repeat.
  rewrite occurrences_cons.
  destruct (bool_decide (q = p)) eqn:E.
  - apply bool_decide_eq_true in E. subst q. lia.
  - lia.
Qed.

Lemma occurrences_zero_not_in p l : occurrences p l = 0 -> ~ In p l.
Proof.
  unfold occurrences. induction l as [|q l IH]; simpl; [tauto|].
  destruct (bool_decide (q = p)) eqn:E; simpl; [discriminate|].
  apply bool_decide_eq_false in E. intros H [Hq|Hin]; [done|by apply IH].
Qed.

(** C2. For every pod list and excluded kind, the output of
    [filterOutPodByOwnerReferenceKind] lists, pod after pod in input
    order, one copy of the pod for every owner reference whose kind
    differs from the excluded kind; so a pod occurs in the output as
    often as it occurs in the input times the number of its differing
    owner references.  A pod without owner references is never in the
    output, and neither is a pod whose single owner reference has the
    excluded kind. *)
Theorem filterOutPodByOwnerReferenceKind_spec :
  forall (podList : list Pod) (kind : string),
    filterOutPodByOwnerReferenceKind podList kind =
      flat_map (fun pod => repeat pod (length (differing_refs pod kind)))
               podList
    /\ (forall p,
          occurrences p (filterOutPodByOwnerReferenceKind podList kind) =
          occurrences p podList * length (differing_refs p kind))
    /\ (forall p,
          OwnerReferences (pod_ObjectMeta p) = [] ->
          ~ In p (filterOutPodByOwnerReferenceKind podList kind))
    /\ (forall p r,
          OwnerReferences (pod_ObjectMeta p) = [r] ->
          Kind r = kind ->
          ~ In p (filterOutPodByOwnerReferenceKind podList kind)).
Proof.
  intros podList kind. split; [apply filter_flat_map|].
  split; [intros p; apply occurrences_filter|].
  split.
  - intros p Hrefs. apply occurrences_zero_not_in.
    rewrite occurrences_filter. unfold differing_refs. rewrite Hrefs.
    simpl. lia.
  - intros p r Hrefs Hkind. apply occurrences_zero_not_in.
    rewrite occurrences_filter. unfold differing_refs. rewrite Hrefs.
    simpl. rewrite Hkind, String.eqb_refl. simpl. lia.
Qed.

(** The sibling filter keeps a pod at most once: its output is the input
    filtered by the node name. *)
Lemma filterOutPodByNode_spec podList nodeName :
  filterOutPodByNode podList nodeName =
  List.filter (fun pod => String.eqb (NodeName (pod_Spec pod)) nodeName) podList.
Proof.
  unfold filterOutPodByNode.
  assert (H : forall output,
    fold_left
      (fun output pod =>
         if String.eqb (NodeName (pod_Spec pod)) nodeName
         then output ++ [pod] else output) podList output =
    output ++ List.filter
      (fun pod => String.eqb (NodeName (pod_Spec pod)) nodeName) podList).
  { induction podList as [|pod podList IH]; intros output; simpl.
    - by rewrite app_nil_r.
    - rewrite IH. destruct (String.eqb (NodeName (pod_Spec pod)) nodeName);
        [by rewrite <- app_assoc|done]. }
  by rewrite H.
Qed.

Lemma in_filter_in p podList kind :
  In p (filterOutPodByOwnerReferenceKind podList kind) -> In p podList.
Proof.
  rewrite filter_flat_map, in_flat_map. intros (q & Hq & Hin).
  apply repeat_spec in Hin. by subst.
Qed.

(** When the listed pods are distinct and none has more than one owner
    reference, the filter lists no pod twice. *)
Lemma filter_NoDup podList kind :
  NoDup podList ->
  Forall (fun p => length (OwnerReferences (pod_ObjectMeta p)) <= 1) podList ->
  NoDup (filterOutPodByOwnerReferenceKind podList kind).
Proof.
  intros Hnd Hone.
  induction podList as [|pod podList IH].
  - rewrite filter_flat_map. constructor.
  - apply NoDup_cons in Hnd as [Hni Hnd]. apply Forall_cons in Hone as [H1 Hone].
    specialize (IH Hnd Hone). rewrite filter_flat_map in *. cbn [flat_map].
    apply NoDup_app. split; [|split; [|done]].
    + assert (length (differing_refs pod kind) <= 1) as Hle.
      { unfold differing_refs.
        pose proof (List.filter_length_le
          (fun r => negb (String.eqb (Kind r) kind))
          (OwnerReferences (pod_ObjectMeta pod))). lia. }
      destruct (length (differing_refs pod kind)) as [|[|k]]; simpl.
      * constructor.
      * apply NoDup_singleton.
      * lia.
    + intros x Hx Hin. apply list_elem_of_In, repeat_spec in Hx. subst x.
      apply Hni. apply list_elem_of_In, (in_filter_in pod podList kind).
      rewrite filter_flat_map. by apply list_elem_of_In.
Qed.

End FilterFacts.

(** ** Theorems about PodEvictor *)

Module EvictPodFacts.
Import EvictPod.

Lemma classify_fatal e : fatal e -> classify (Some e) = Fatal e.
Proof. intros (H1 & H2 & H3). unfold classify. by rewrite H1, H2, H3. Qed.

Lemma classify_Fatal_inv resp e :
  classify resp = Fatal e -> resp = Some e /\ fatal e.
Proof.
  unfold classify, fatal. destruct resp as [e'|]; [|done].
  destruct (IsNotFound e') eqn:E1; [done|].
  destruct (IsTooManyRequests e') eqn:E2; [done|].
  destruct (IsForbidden e' && HasNamespaceTerminatingCause e') eqn:E3; [done|].
  intros [= ->]. done.
Qed.

Lemma classify_Throttled_inv resp :
  classify resp = Throttled ->
  exists e, resp = Some e /\ IsNotFound e = false /\ IsTooManyRequests e = true.
Proof.
  unfold classify. destruct resp as [e|]; [|done].
  destruct (IsNotFound e) eqn:E1; [done|].
  destruct (IsTooManyRequests e) eqn:E2; [eauto|].
  by destruct (IsForbidden e && HasNamespaceTerminatingCause e).
Qed.

(** The loop started at attempt [k] over [n] throttling responses during
    which the stop signal is not seen behaves like the loop started at
    attempt [k + n], with the throttled prefix in front of its trace. *)
Lemma loop_throttled_prefix api stop pod n : forall k fuel,
  (forall i, k <= i < k + n -> throttling (api i)) ->
  (forall i, k <= i < k + n -> stop i = false) ->
  evictPod_loop (n + fuel) api stop pod k =
  match evictPod_loop fuel api stop pod (k + n) with
  | Some (r, tr) =>
      Some (r, flat_map (fun resp => [call_of pod resp; Sleep backoff; PollStop false])
                        (List.map api (seq k n)) ++ tr)
  | None => None
  end.
Proof.
  induction n as [|n IH]; intros k fuel Hthr Hstop.
  - simpl. rewrite Nat.add_0_r. by destruct (evictPod_loop _ _ _ _ _) as [[r tr]|].
  - cbn [Nat.add evictPod_loop].
    rewrite (Hthr k) by lia. rewrite (Hstop k) by lia.
    rewrite IH by (intros; first [apply Hthr | apply Hstop]; lia).
    replace (S k + n) with (k + S n) by lia.
    destruct (evictPod_loop fuel api stop pod (k + S n)) as [[r tr]|]; done.
Qed.

Lemma throttled_then_flat pod rs last :
  throttled_then pod rs last =
  flat_map (fun resp => [call_of pod resp; Sleep backoff; PollStop false]) rs
    ++ [call_of pod last].
Proof. induction rs as [|r rs IH]; simpl; [done|by rewrite IH]. Qed.

Lemma attempts_throttled_then pod rs last :
  attempts (throttled_then pod rs last) = S (length rs).
Proof. unfold attempts. induction rs as [|r rs IH]; simpl; [done|by rewrite IH]. Qed.

Lemma responses_throttled_then pod rs last :
  responses (throttled_then pod rs last) = rs ++ [last].
Proof. induction rs as [|r rs IH]; simpl; [done|by rewrite IH]. Qed.

(** A run whose first [n] responses throttle, unseen by the stop signal,
    and whose next response takes a leaving branch ends at that response. *)
Lemma run_throttled_then api stop pod n fuel :
  (forall i, i < n -> throttling (api i)) ->
  (forall i, i < n -> stop i = false) ->
  classify (api n) <> Throttled ->
  n < fuel ->
  evictPod fuel api stop pod =
  Some (match classify (api n) with Fatal e => Some e | _ => None end,
        throttled_then pod (List.map api (seq 0 n)) (api n)).
Proof.
  intros Hthr Hstop Hlast Hfuel. unfold evictPod.
  replace fuel with (n + S (fuel - S n)) by lia.
  rewrite loop_throttled_prefix
    by (intros; first [apply Hthr | apply Hstop]; lia).
  cbn [Nat.add evictPod_loop]. rewrite throttled_then_flat.
  destruct (classify (api n)); done.
Qed.

Lemma loop_shape api stop pod fuel : forall k r tr,
  evictPod_loop fuel api stop pod k = Some (r, tr) ->
  run_shape api stop pod k r tr.
Proof.
  induction fuel as [|fuel IH]; intros k r tr; [done|].
  cbn [evictPod_loop].
  destruct (classify (api k)) eqn:E.
  - intros [= <- <-]. pose proof (shape_leave api stop pod k) as S.
    rewrite E in S. by apply S.
  - intros [= <- <-]. pose proof (shape_leave api stop pod k) as S.
    rewrite E in S. by apply S.
  - destruct (stop k) eqn:Es.
    + intros [= <- <-]. by apply shape_stopped.
    + destruct (evictPod_loop fuel api stop pod (S k)) as [[r' tr']|] eqn:Er;
        [|done].
      intros [= <- <-]. apply shape_retry; auto.
  - intros [= <- <-]. pose proof (shape_leave api stop pod k) as S.
    rewrite E in S. by apply S.
  - intros [= <- <-]. pose proof (shape_leave api stop pod k) as S.
    rewrite E in S. by apply S.
Qed.

Lemma shape_result api stop pod k r tr :
  run_shape api stop pod k r tr ->
  exists resp,
    last_response tr = Some resp /\
    (r = None <->
       resp = None \/
       (exists e, resp = Some e /\ IsNotFound e = true) \/
       (exists e, resp = Some e /\
                  IsForbidden e = true /\ HasNamespaceTerminatingCause e = true) \/
       stop_observed tr) /\
    (forall e, r = Some e ->
       resp = Some e /\ fatal e /\ last tr = Some (call_of pod (Some e))).
Proof.
  unfold last_response, stop_observed.
  induction 1 as [k Hne|k Hthr Hs|k r tr Hthr Hs Hrun IH].
  - exists (api k). split; [done|].
    destruct (classify (api k)) eqn:E; try done.
    + split; [|done]. split; [|done]. intros _.
      unfold classify in E. destruct (api k) as [e|]; [|by left].
      right. destruct (IsNotFound e) eqn:E1; [left; eauto|].
      destruct (IsTooManyRequests e); [done|].
      by destruct (IsForbidden e && HasNamespaceTerminatingCause e).
    + split; [|done]. split; [|done]. intros _.
      unfold classify in E. destruct (api k) as [e|]; [|by left].
      right. left. exists e. destruct (IsNotFound e) eqn:E1; [done|].
      destruct (IsTooManyRequests e); [done|].
      by destruct (IsForbidden e && HasNamespaceTerminatingCause e).
    + split; [|done]. split; [|done]. intros _.
      unfold classify in E. destruct (api k) as [e|]; [|by left].
      right. right. left. exists e. destruct (IsNotFound e) eqn:E1; [done|].
      destruct (IsTooManyRequests e); [done|].
      destruct (IsForbidden e) eqn:E3, (HasNamespaceTerminatingCause e) eqn:E4;
        done.
    + apply classify_Fatal_inv in E as [-> (H1 & H2 & H3)].
      split.
      * split; [done|]. intros [?|[(e' & [= <-] & ?)|[(e' & [= <-] & ? & ?)|Hin]]].
        -- done.
        -- congruence.
        -- rewrite H0, H4 in H3. done.
        -- simpl in Hin. destruct Hin as [?|[]]. done.
      * intros e' [= <-]. repeat split; done.
  - exists (api k). split; [done|]. split; [|done].
    split; [|done]. intros _. right. right. right. simpl. auto.
  - destruct IH as (resp & Hlast & Hiff & Hfat). exists resp.
    cbn [responses]. fold (call_of pod (api k)). unfold call_of at 1.
    cbn [responses].
    split.
    { destruct (responses tr); [done|]. done. }
    split.
    + rewrite Hiff. split.
      * intros [?|[?|[?|Hin]]]; auto. right. right. right. simpl. auto.
      * intros [?|[?|[?|Hin]]]; auto. right. right. right.
        simpl in Hin. destruct Hin as [?|[?|[?|?]]]; done.
    + intros e He. destruct (Hfat e He) as (? & ? & Hl).
      split; [done|]. split; [done|].
      destruct tr as [|ev tr]; [by simpl in Hl|exact Hl].
Qed.

Lemma sleeps_throttled_then pod rs last :
  sleeps (throttled_then pod rs last) = repeat backoff (length rs).
Proof. induction rs as [|r rs IH]; simpl; [done|by rewrite IH]. Qed.

Lemma shape_responses api stop pod k r tr :
  run_shape api stop pod k r tr ->
  responses tr = List.map api (seq k (attempts tr)).
Proof.
  unfold attempts. induction 1 as [k Hne|k Hthr Hs|k r tr Hthr Hs Hrun IH];
    simpl; [done|done|by rewrite IH].
Qed.

Lemma last_map_seq (api : nat -> error) n :
  last (List.map api (seq 0 (S n))) = Some (api n).
Proof.
  rewrite seq_S, List.map_app. simpl. by rewrite last_snoc.
Qed.

Lemma loop_never_leaves api stop pod fuel : forall k,
  (forall i, throttling (api i)) ->
  (forall i, stop i = false) ->
  evictPod_loop fuel api stop pod k = None.
Proof.
  induction fuel as [|fuel IH]; intros k Hthr Hstop; [done|].
  cbn [evictPod_loop]. rewrite (Hthr k), (Hstop k), IH; done.
Qed.

Lemma throttled_until_stop_flat pod rs last :
  throttled_until_stop pod rs last =
  flat_map (fun resp => [call_of pod resp; Sleep backoff; PollStop false]) rs
    ++ [call_of pod last; Sleep backoff; PollStop true].
Proof. induction rs as [|r rs IH]; simpl; [done|by rewrite IH]. Qed.

(** A run whose first [n] responses throttle, unseen by the stop signal,
    and which sees the stop signal after one more throttling response ends
    there without an error. *)
Lemma run_throttled_until_stop api stop pod n fuel :
  (forall i, i < n -> throttling (api i)) ->
  (forall i, i < n -> stop i = false) ->
  throttling (api n) -> stop n = true ->
  n < fuel ->
  evictPod fuel api stop pod =
  Some (None, throttled_until_stop pod (List.map api (seq 0 n)) (api n)).
Proof.
  intros Hthr Hstop Hlast Hseen Hfuel. unfold evictPod.
  replace fuel with (n + S (fuel - S n)) by lia.
  rewrite loop_throttled_prefix
    by (intros; first [apply Hthr | apply Hstop]; lia).
  cbn [Nat.add evictPod_loop]. rewrite throttled_until_stop_flat.
  by rewrite Hlast, Hseen.
Qed.

(** C4. Whenever [evictPod] returns, it returns no error exactly when the
    response to its last eviction call is a success, or is not-found, or
    is forbidden with a namespace-terminating cause, or the run saw the
    stop signal when it polled it between two attempts.  When it returns
    an error, that error is the response to the last call, none of the
    special cases applies to it, and the call is the last thing the run
    did.  Conversely, after any number of throttled attempts during which
    the stop signal is not seen, a response that is not throttling makes
    the run return at that attempt, with that response as its error when
    none of the cases applies to it and with no error otherwise, and the
    stop signal seen after a throttling response makes the run return no
    error. *)
Theorem evictPod_error_policy :
  forall (fuel : nat) (api : nat -> error) (stop : nat -> bool) (pod : Pod),
    (forall r tr,
       evictPod fuel api stop pod = Some (r, tr) ->
       (1 <= attempts tr) /\
       (last_response tr = Some (api (attempts tr - 1))) /\
       (r = None <->
          api (attempts tr - 1) = None \/
          (exists e, api (attempts tr - 1) = Some e /\ IsNotFound e = true) \/
          (exists e, api (attempts tr - 1) = Some e /\
                     IsForbidden e = true /\
                     HasNamespaceTerminatingCause e = true) \/
          stop_observed tr) /\
       (forall e, r = Some e ->
          api (attempts tr - 1) = Some e /\ fatal e /\
          last tr = Some (call_of pod (Some e))))
    /\
    (forall n,
       (forall i, i < n -> throttling (api i)) ->
       (forall i, i < n -> stop i = false) ->
       n < fuel ->
       (~ throttling (api n) ->
        evictPod fuel api stop pod =
        Some (result_of (api n),
              throttled_then pod (List.map api (seq 0 n)) (api n))) /\
       (throttling (api n) -> stop n = true ->
        evictPod fuel api stop pod =
        Some (None,
              throttled_until_stop pod (List.map api (seq 0 n)) (api n))))
    /\
    (forall n e,
       (forall i, i < n -> throttling (api i)) ->
       (forall i, i < n -> stop i = false) ->
       api n = Some e -> fatal e -> n < fuel ->
       evictPod fuel api stop pod =
       Some (Some e, throttled_then pod (List.map api (seq 0 n)) (Some e))).
Proof.
  intros fuel api stop pod. split; [|split].
  - intros r tr Hrun. apply loop_shape in Hrun.
    pose proof (shape_responses _ _ _ _ _ _ Hrun) as Hresp.
    destruct (shape_result _ _ _ _ _ _ Hrun) as (resp & Hlast & Hiff & Hfat).
    assert (Hpos : 1 <= attempts tr).
    { unfold last_response in Hlast. rewrite Hresp in Hlast.
      destruct (attempts tr); [done|lia]. }
    assert (Hresp' : resp = api (attempts tr - 1)).
    { unfold last_response in Hlast. rewrite Hresp in Hlast.
      destruct (attempts tr) as [|m]; [lia|].
      rewrite last_map_seq in Hlast. injection Hlast as <-.
      f_equal. lia. }
    subst resp. done.
  - intros n Hthr Hstop Hfuel. split.
    + intros Hleave. by apply run_throttled_then.
    + intros Hlast Hseen. by apply run_throttled_until_stop.
  - intros n e Hthr Hstop Hn Hfat Hfuel.
    rewrite (run_throttled_then api stop pod n fuel); auto.
    + by rewrite Hn, (classify_fatal e Hfat).
    + by rewrite Hn, (classify_fatal e Hfat).
Qed.

(** C5. If the first [N] responses throttle (and the stop signal is not
    seen meanwhile) and response [N] is a success, [evictPod] returns no
    error after exactly [N + 1] eviction calls, with one sleep of 5
    seconds after each of the first [N] calls and none after the last.
    A not-found response to the first call ends the run at once, without
    an error, a sleep or a retry.  The loop has no bound of its own: as
    long as responses throttle and the stop signal stays unseen, it is
    still running after any number of iterations. *)
Theorem evictPod_retry_policy :
  forall (api : nat -> error) (stop : nat -> bool) (pod : Pod),
    (forall N fuel,
       (forall i, i < N -> throttling (api i)) ->
       (forall i, i < N -> stop i = false) ->
       api N = None -> N < fuel ->
       exists tr,
         evictPod fuel api stop pod = Some (None, tr) /\
         tr = throttled_then pod (List.map api (seq 0 N)) None /\
         attempts tr = N + 1 /\
         sleeps tr = repeat 5 N)
    /\
    (forall e fuel,
       api 0 = Some e -> IsNotFound e = true -> 0 < fuel ->
       evictPod fuel api stop pod = Some (None, [call_of pod (Some e)]))
    /\
    ((forall i, throttling (api i)) -> (forall i, stop i = false) ->
     forall fuel, evictPod fuel api stop pod = None).
Proof.
  intros api stop pod. split; [|split].
  - intros N fuel Hthr Hstop Hn Hfuel.
    eexists. split; [|split; [reflexivity|]].
    + rewrite (run_throttled_then api stop pod N fuel); auto.
      * by rewrite Hn.
      * by rewrite Hn.
    + rewrite attempts_throttled_then, sleeps_throttled_then.
      rewrite length_map, length_seq. split; [lia|done].
  - intros e fuel H0 Hnf Hfuel.
    destruct fuel as [|fuel]; [lia|].
    unfold evictPod. cbn [evictPod_loop]. rewrite H0.
    unfold classify. by rewrite Hnf.
  - intros Hthr Hstop fuel. by apply loop_never_leaves.
Qed.

End EvictPodFacts.

(** ** Theorems about the node operations *)

Module NodeOpsFacts.
Import NodeOps.

Lemma strings_Split_not_nil s sep : strings_Split s sep <> [].
Proof.
  destruct s as [|a s]; simpl; [done|].
  destruct (Ascii.eqb a sep); [done|].
  by destruct (strings_Split s sep).
Qed.

Lemma strings_Split_length s sep :
  length (strings_Split s sep) = S (count_sep s sep).
Proof.
  induction s as [|a s IH]; simpl; [done|].
  destruct (Ascii.eqb a sep); simpl; [by rewrite IH|].
  pose proof (strings_Split_not_nil s sep).
  destruct (strings_Split s sep); [done|]. simpl in *. lia.
Qed.

Lemma strings_Split_join s sep : join (strings_Split s sep) sep = s.
Proof.
  induction s as [|a s IH]; simpl; [done|].
  destruct (Ascii.eqb a sep) eqn:E.
  - apply Ascii.eqb_eq in E. subst a.
    pose proof (strings_Split_not_nil s sep).
    destruct (strings_Split s sep); [done|]. simpl in *. by rewrite IH.
  - pose proof (strings_Split_not_nil s sep).
    destruct (strings_Split s sep) as [|hd tl]; [done|].
    destruct tl; simpl in *; by rewrite <- IH.
Qed.

(** A segment free of the separator is split off whole. *)
Lemma strings_Split_segment a b sep :
  count_sep a sep = 0 ->
  strings_Split (a +:+ String sep b) sep = a :: strings_Split b sep.
Proof.
  induction a as [|c a IH]; simpl.
  - intros _. by rewrite Ascii.eqb_refl.
  - destruct (Ascii.eqb c sep); [done|]. simpl. intros H. by rewrite IH.
Qed.

Lemma strings_Split_provider_id scheme project zone instance :
  count_sep scheme slash = 0 -> count_sep project slash = 0 ->
  count_sep zone slash = 0 ->
  strings_Split (provider_id scheme project zone instance) slash =
  scheme :: EmptyString :: project :: zone :: strings_Split instance slash.
Proof.
  intros Hs Hp Hz. unfold provider_id.
  rewrite (strings_Split_segment scheme _ slash Hs).
  cbn [strings_Split]. rewrite Ascii.eqb_refl.
  rewrite (strings_Split_segment project _ slash Hp).
  by rewrite (strings_Split_segment zone _ slash Hz).
Qed.

(** For a provider id of the layout [scheme://project/zone/instance] the
    call returns the project and the zone. *)
Lemma GetProjectIdAndZoneFromNode_layout
    (Server : Type) (C : Clientset Server) (nodeName : string) (srv : Server)
    (node : Node) (scheme project zone instance : string) :
  GetNode nodeName srv = (node, None) ->
  ProviderID (node_Spec node) = provider_id scheme project zone instance ->
  count_sep scheme slash = 0 -> count_sep project slash = 0 ->
  count_sep zone slash = 0 ->
  GetProjectIdAndZoneFromNode nodeName srv = Returns (project, zone, None).
Proof.
  intros Hget Hid Hs Hp Hz. unfold GetProjectIdAndZoneFromNode.
  rewrite Hget, Hid, (strings_Split_provider_id _ _ _ _ Hs Hp Hz). done.
Qed.

(** With fewer than four segments the call panics on an index. *)
Lemma GetProjectIdAndZoneFromNode_short
    (Server : Type) (C : Clientset Server) (nodeName : string) (srv : Server)
    (node : Node) :
  GetNode nodeName srv = (node, None) ->
  length (strings_Split (ProviderID (node_Spec node)) slash) < 4 ->
  exists msg, GetProjectIdAndZoneFromNode nodeName srv = Panics msg.
Proof.
  intros Hget Hlen. unfold GetProjectIdAndZoneFromNode. rewrite Hget.
  destruct (strings_Split (ProviderID (node_Spec node)) slash)
    as [|s0 [|s1 [|s2 [|s3 rest]]]]; simpl in Hlen; try lia; simpl; eauto.
Qed.

(** C9. When the node is fetched without error and its provider id, split
    on the slash, has at least four segments, the call returns the segment
    at position 2 as the project id, the segment at position 3 as the zone
    and no error.  When fetching the node fails, the call returns that
    error with empty strings, whatever the node object holds: the provider
    id is not looked at. *)
Theorem GetProjectIdAndZoneFromNode_spec :
  forall (Server : Type) (C : Clientset Server) (nodeName : string)
         (srv : Server) (node : Node),
    (GetNode nodeName srv = (node, None) ->
     4 <= length (strings_Split (ProviderID (node_Spec node)) slash) ->
     exists projectID zone,
       strings_Split (ProviderID (node_Spec node)) slash !! 2 = Some projectID /\
       strings_Split (ProviderID (node_Spec node)) slash !! 3 = Some zone /\
       GetProjectIdAndZoneFromNode nodeName srv =
       Returns (projectID, zone, None))
    /\
    (forall e,
       GetNode nodeName srv = (node, Some e) ->
       GetProjectIdAndZoneFromNode nodeName srv =
       Returns (EmptyString, EmptyString, Some e)).
Proof.
  intros Server C nodeName srv node. split.
  - intros Hget Hlen. unfold GetProjectIdAndZoneFromNode. rewrite Hget.
    destruct (strings_Split (ProviderID (node_Spec node)) slash)
      as [|s0 [|s1 [|s2 [|s3 rest]]]]; simpl in Hlen; try lia.
    exists s2, s3. done.
  - intros e Hget. unfold GetProjectIdAndZoneFromNode. by rewrite Hget.
Qed.

(** C10. After a successful fetch, [SetNodeAnnotation] hands to the update
    call the fetched node with [key] bound to [value] in its annotation
    map, the other keys unchanged, and returns what the update returns,
    provided that map exists.  When the fetched node has no annotation map
    the call panics on the assignment and no update is made. *)
Theorem SetNodeAnnotation_spec :
  forall (Server : Type) (C : Clientset Server) (nodeName key value : string)
         (srv : Server) (newNode : Node),
    GetNode nodeName srv = (newNode, None) ->
    (forall m : gmap string string,
       Annotations (node_ObjectMeta newNode) = Some m ->
       SetNodeAnnotation nodeName key value srv =
         Returns
           (snd (fst (Nodes_Update
                        (set_Annotations newNode (Some (<[key:=value]> m))) srv)),
            snd (Nodes_Update
                   (set_Annotations newNode (Some (<[key:=value]> m))) srv))
       /\ (<[key:=value]> m) !! key = Some value
       /\ (forall k, k <> key -> (<[key:=value]> m) !! k = m !! k))
    /\
    (Annotations (node_ObjectMeta newNode) = None ->
     SetNodeAnnotation nodeName key value srv =
       Panics "assignment to entry in nil map").
Proof.
  intros Server C nodeName key value srv newNode Hget. split.
  - intros m Hm. split; [|split].
    + unfold SetNodeAnnotation. rewrite Hget, Hm.
      by destruct (Nodes_Update _ srv) as [[n e] srv'].
    + apply lookup_insert_eq.
    + intros k Hk. by apply lookup_insert_ne.
  - intros Hnil. unfold SetNodeAnnotation. by rewrite Hget, Hnil.
Qed.

End NodeOpsFacts.

(** ** Theorems about BatchEvictor *)

Module EvictPodsFacts.
Import EvictPod EvictPods.

(** *** The partition *)

Lemma plan_from_fuel ps : forall fuel1 fuel2 left p,
  left <= fuel1 -> left <= fuel2 ->
  plan_from fuel1 ps left p = plan_from fuel2 ps left p.
Proof.
  induction fuel1 as [|fuel1 IH]; intros fuel2 left p H1 H2.
  - assert (left = 0) as -> by lia. by destruct fuel2.
  - destruct fuel2 as [|fuel2].
    + assert (left = 0) as -> by lia. done.
    + cbn [plan_from]. destruct (0 <? left) eqn:E; [|done].
      apply Nat.ltb_lt in E. f_equal. apply IH; unfold podsPerBatch; lia.
Qed.

Lemma plan_from_length ps : forall fuel left p,
  left <= fuel ->
  length (plan_from fuel ps left p) = (left + 9) / 10.
Proof.
  induction fuel as [|fuel IH]; intros left p Hf.
  - assert (left = 0) as -> by lia. done.
  - cbn [plan_from]. destruct (0 <? left) eqn:E.
    + apply Nat.ltb_lt in E. cbn [length].
      rewrite IH by (unfold podsPerBatch; lia). unfold podsPerBatch.
      destruct (Nat.le_gt_cases left 10) as [Hle|Hgt].
      * rewrite Nat.min_l by lia. replace (left - left + 9) with 9 by lia.
        change (9 / 10) with 0.
        apply (Nat.div_unique (left + 9) 10 1 (left - 1)); lia.
      * rewrite Nat.min_r by lia.
        replace (left + 9) with ((left - 10 + 9) + 1 * 10) by lia.
        rewrite Nat.div_add by lia. lia.
    + apply Nat.ltb_ge in E. assert (left = 0) as -> by lia. done.
Qed.

Lemma plan_from_sizes ps : forall fuel left p,
  left + p <= length ps ->
  Forall (fun b : list Pod => 1 <= length b <= 10) (plan_from fuel ps left p).
Proof.
  induction fuel as [|fuel IH]; intros left p Hb; [constructor|].
  cbn [plan_from]. destruct (0 <? left) eqn:E; [|constructor].
  apply Nat.ltb_lt in E. constructor.
  - rewrite length_take, length_drop. unfold podsPerBatch. lia.
  - apply IH. unfold podsPerBatch. lia.
Qed.

Lemma plan_from_concat ps : forall fuel left p,
  left + p = length ps -> left <= fuel ->
  concat (plan_from fuel ps left p) = drop p ps.
Proof.
  induction fuel as [|fuel IH]; intros left p Hb Hf.
  - assert (left = 0) as -> by lia. simpl. rewrite drop_ge by lia. done.
  - cbn [plan_from]. destruct (0 <? left) eqn:E.
    + apply Nat.ltb_lt in E. cbn [concat].
      rewrite IH by (unfold podsPerBatch; lia).
      rewrite <- drop_drop. apply take_drop.
    + apply Nat.ltb_ge in E. assert (left = 0) as -> by lia.
      simpl. rewrite drop_ge by lia. done.
Qed.

Lemma plan_length ps : length (plan ps) = (length ps + 9) / 10.
Proof. by apply plan_from_length. Qed.

Lemma plan_sizes ps : Forall (fun b : list Pod => 1 <= length b <= 10) (plan ps).
Proof. apply plan_from_sizes. lia. Qed.

Lemma plan_concat ps : concat (plan ps) = ps.
Proof. unfold plan. rewrite plan_from_concat by lia. done. Qed.


(** *** Counting tasks *)

Lemma filter_length_insert {A : Type} (f : A -> bool) (x' : A) :
  forall (l : list A) (i : nat) (x : A),
    l !! i = Some x ->
    length (List.filter f (<[i:=x']> l)) + (if f x then 1 else 0) =
    length (List.filter f l) + (if f x' then 1 else 0).
Proof.
  induction l as [|y l IH]; intros i x Hi; [done|].
  destruct i as [|i]; simpl in *.
  - injection Hi as ->. destruct (f x), (f x'); simpl; lia.
  - specialize (IH i x Hi). destruct (f y); simpl; lia.
Qed.

Lemma filter_length_pos {A : Type} (f : A -> bool) :
  forall (l : list A) (i : nat) (x : A),
    l !! i = Some x -> f x = true -> 1 <= length (List.filter f l).
Proof.
  induction l as [|y l IH]; intros i x Hi Hf; [done|].
  destruct i as [|i]; simpl in *.
  - injection Hi as ->. rewrite Hf. simpl. lia.
  - specialize (IH i x Hi Hf). destruct (f y); simpl; lia.
Qed.

Lemma map_insert_same {A B : Type} (f : A -> B) (x' : A) :
  forall (l : list A) (i : nat) (x : A),
    l !! i = Some x -> f x' = f x ->
    List.map f (<[i:=x']> l) = List.map f l.
Proof.
  induction l as [|y l IH]; intros i x Hi Hf; [done|].
  destruct i as [|i]; simpl in *.
  - injection Hi as ->. by rewrite Hf.
  - f_equal. by apply (IH i x).
Qed.

Lemma unfinished_app b ts1 ts2 :
  unfinished b (ts1 ++ ts2) = unfinished b ts1 + unfinished b ts2.
Proof. unfold unfinished. by rewrite List.filter_app, length_app. Qed.

(** A task that moves between two program points before [wg.Done()]. *)
Lemma unfinished_move b ts i t p :
  ts !! i = Some t ->
  is_finished (t_pc t) = false -> is_finished p = false ->
  unfinished b (<[i:=set_task_pc t p]> ts) = unfinished b ts.
Proof.
  intros Hi Ht Hp. unfold unfinished.
  pose proof (filter_length_insert
    (fun t => (t_batch t =? b) && negb (is_finished (t_pc t)))
    (set_task_pc t p) ts i t Hi) as H.
  cbn [t_batch t_pc set_task_pc] in H. rewrite Ht, Hp in H.
  destruct (t_batch t =? b); simpl in H; lia.
Qed.

(** A task that passes [wg.Done()]. *)
Lemma unfinished_finish b ts i t :
  ts !! i = Some t ->
  is_finished (t_pc t) = false ->
  unfinished b (<[i:=set_task_pc t Finished]> ts)
  + (if t_batch t =? b then 1 else 0) = unfinished b ts.
Proof.
  intros Hi Ht. unfold unfinished.
  pose proof (filter_length_insert
    (fun t => (t_batch t =? b) && negb (is_finished (t_pc t)))
    (set_task_pc t Finished) ts i t Hi) as H.
  cbn [t_batch t_pc set_task_pc is_finished negb] in H. rewrite Ht in H.
  destruct (t_batch t =? b); simpl in H; lia.
Qed.

Lemma unfinished_pos ts i t :
  ts !! i = Some t -> is_finished (t_pc t) = false ->
  1 <= unfinished (t_batch t) ts.
Proof.
  intros Hi Ht. unfold unfinished.
  apply (filter_length_pos _ ts i t Hi). by rewrite Nat.eqb_refl, Ht.
Qed.

Lemma unfinished_other_batch b ts :
  Forall (fun t => t_batch t <> b) ts -> unfinished b ts = 0.
Proof.
  unfold unfinished. induction 1 as [|t ts Ht _ IH]; simpl; [done|].
  apply Nat.eqb_neq in Ht. by rewrite Ht.
Qed.

Lemma unfinished_fresh b n batch :
  unfinished b
    (List.map (fun pod => {| t_pod := pod; t_batch := n;
                             t_stop := Chan.make 0; t_pc := AtEvict |}) batch)
  = if n =? b then length batch else 0.
Proof.
  unfold unfinished. induction batch as [|pod batch IH]; simpl.
  - by destruct (n =? b).
  - destruct (n =? b); simpl; [by rewrite IH|done].
Qed.

Lemma unfinished_same_pcs b (f : task -> task) ts :
  (forall t, t_batch (f t) = t_batch t /\ t_pc (f t) = t_pc t) ->
  unfinished b (List.map f ts) = unfinished b ts.
Proof.
  intros Hf. unfold unfinished. induction ts as [|t ts IH]; simpl; [done|].
  destruct (Hf t) as [-> ->].
  destruct ((t_batch t =? b) && negb (is_finished (t_pc t))); simpl;
    by rewrite IH.
Qed.

Lemma outstanding_unfinished t ts :
  In t (List.filter
          (fun t => match t_pc t with Finished => false | _ => true end) ts) ->
  1 <= unfinished (t_batch t) ts.
Proof.
  intros Hin. apply List.filter_In in Hin as [Hin Hpc].
  apply list_elem_of_In, list_elem_of_lookup in Hin as [i Hi].
  apply (unfinished_pos ts i t Hi). by destruct (t_pc t).
Qed.

Lemma no_unfinished_no_outstanding ts :
  (forall b, unfinished b ts = 0) ->
  List.filter (fun t => match t_pc t with Finished => false | _ => true end) ts
  = [].
Proof.
  intros H.
  destruct (List.filter _ ts) as [|t rest] eqn:E; [done|].
  assert (Hin : In t (List.filter
    (fun t => match t_pc t with Finished => false | _ => true end) ts))
    by (rewrite E; by left).
  apply outstanding_unfinished in Hin. specialize (H (t_batch t)). lia.
Qed.

Lemma tag_batches_app d : forall b batch,
  tag_batches b (d ++ [batch]) =
  tag_batches b d ++ List.map (pair (b + length d)) batch.
Proof.
  induction d as [|x d IH]; intros b batch; simpl.
  - by rewrite app_nil_r, Nat.add_0_r.
  - rewrite IH, <- app_assoc.
    replace (b + S (length d)) with (S b + length d) by lia. done.
Qed.

(** *** The invariant *)

Lemma inv_init ps : inv ps (init ps).
Proof.
  constructor; simpl; try done.
Qed.

Lemma deferred_unbuffered s :
  errCh s = Chan.make 0 -> deferred s = set_pc s (Returned None).
Proof. intros He. unfold deferred. by rewrite He. Qed.

Lemma dispatch_in_range ps s :
  pods s = ps -> numPodsLeft s + podsProcessedSoFar s = length ps ->
  go_slice (pods s) (podsProcessedSoFar s)
    (podsProcessedSoFar s + Nat.min (numPodsLeft s) podsPerBatch)
  = Some (take (Nat.min (numPodsLeft s) podsPerBatch)
               (drop (podsProcessedSoFar s) ps)).
Proof.
  intros Hp Hsum. unfold go_slice. rewrite Hp.
  assert (E : (podsProcessedSoFar s <=?
                 podsProcessedSoFar s + Nat.min (numPodsLeft s) podsPerBatch)
              && (podsProcessedSoFar s + Nat.min (numPodsLeft s) podsPerBatch
                    <=? length ps) = true).
  { apply andb_true_iff. split; apply Nat.leb_le; lia. }
  rewrite E. do 2 f_equal. lia.
Qed.

Lemma inv_dispatch ps s s' :
  inv ps s -> pc s = AtLoop -> 0 < numPodsLeft s ->
  dispatch s = Next s' -> inv ps s'.
Proof.
  intros [Hp He Hs Hl Ht Hb Hw Ho Hpc] Hat Hleft Hd.
  rewrite Hat in Hpc. destruct Hpc as (Hsum & Hzero & Hplan).
  unfold dispatch in Hd. rewrite (dispatch_in_range ps s Hp Hsum) in Hd.
  injection Hd as <-.
  assert (Hn : 1 <= Nat.min (numPodsLeft s) podsPerBatch <= numPodsLeft s)
    by (unfold podsPerBatch; lia).
  set (n := Nat.min (numPodsLeft s) podsPerBatch) in *.
  assert (Hbl : length (take n (drop (podsProcessedSoFar s) ps)) = n)
    by (rewrite length_take, length_drop; lia).
  constructor; cbn [pods errCh stop dispatched wgs tasks pc numPodsLeft
                    podsProcessedSoFar numPodsThisBatch]; try done.
  - rewrite !length_app. simpl. lia.
  - rewrite List.map_app, tag_batches_app, Ht, List.map_map. simpl.
    by rewrite Hl.
  - apply Forall_app. split.
    + eapply Forall_impl; [exact Hb|]. intros t Hlt. simpl in Hlt.
      rewrite length_app. simpl. lia.
    + apply Forall_forall. intros t Hin.
      apply list_elem_of_In, List.in_map_iff in Hin as (pod & <- & _).
      simpl. rewrite length_app. simpl. lia.
  - intros b c Hlook. rewrite unfinished_app, unfinished_fresh, Hzero, Hbl.
    destruct (decide (b < length (wgs s))) as [Hlt|Hge].
    + rewrite lookup_app_l in Hlook by done.
      apply Hw in Hlook. rewrite Hzero in Hlook. subst c.
      assert ((length (wgs s) =? b) = false) as -> by (apply Nat.eqb_neq; lia).
      done.
    + rewrite lookup_app_r in Hlook by lia.
      destruct (b - length (wgs s)) as [|k] eqn:Ek; simpl in Hlook; [|done].
      injection Hlook as <-.
      assert ((length (wgs s) =? b) = true) as -> by (apply Nat.eqb_eq; lia).
      done.
  - intros b Hlt. rewrite length_app in Hlt. simpl in Hlt.
    rewrite unfinished_app, unfinished_fresh, Hzero.
    assert ((length (wgs s) =? b) = false) as -> by (apply Nat.eqb_neq; lia).
    done.
  - split; [done|]. split; [done|]. split; [done|].
    rewrite <- Hplan, <- app_assoc. f_equal. simpl.
    destruct (numPodsLeft s) as [|m] eqn:Em; [lia|].
    cbn [plan_from]. assert ((0 <? S m) = true) as -> by (by apply Nat.ltb_lt).
    fold n. f_equal. apply plan_from_fuel; lia.
Qed.

Lemma unfinished_beyond b ts n :
  Forall (fun t => t_batch t < n) ts -> n <= b -> unfinished b ts = 0.
Proof.
  intros Hb Hn. apply unfinished_other_batch.
  eapply Forall_impl; [exact Hb|]. intros t Ht. simpl in Ht. lia.
Qed.

Lemma close_stopCh_same n t :
  t_pod (close_stopCh n t) = t_pod t /\
  t_batch (close_stopCh n t) = t_batch t /\
  t_pc (close_stopCh n t) = t_pc t.
Proof. unfold close_stopCh. by destruct (S (t_batch t) =? n). Qed.

Lemma inv_main ps s s' :
  inv ps s -> main_step s = Next s' -> inv ps s'.
Proof.
  intros Hinv Hstep. unfold main_step in Hstep.
  destruct (pc s) eqn:Hat.
  - (* line 379 *)
    destruct (0 <? numPodsLeft s) eqn:Hleft.
    + apply Nat.ltb_lt in Hleft. by apply (inv_dispatch ps s s').
    + apply Nat.ltb_ge in Hleft.
      destruct Hinv as [Hp He Hs Hl Ht Hb Hw Ho Hpc].
      rewrite Hat in Hpc. destruct Hpc as (Hsum & Hzero & Hplan).
      rewrite (deferred_unbuffered s He) in Hstep. injection Hstep as <-.
      constructor; simpl; try done.
      assert (numPodsLeft s = 0) as E by lia. rewrite E in Hplan.
      simpl in Hplan. rewrite app_nil_r in Hplan.
      split; [done|]. split; [|done]. exists []. by rewrite app_nil_r.
  - (* line 401 *)
    destruct Hinv as [Hp He Hs Hl Ht Hb Hw Ho Hpc].
    rewrite Hat in Hpc. destruct Hpc as (Hsum & Hleft & Hn & Hplan).
    destruct (Chan.ready (stop s)) eqn:Hready.
    + rewrite deferred_unbuffered in Hstep by done. injection Hstep as <-.
      constructor; state_simpl; try done.
      * rewrite List.map_map. rewrite <- Ht. apply List.map_ext.
        intros t. by destruct (close_stopCh_same (length (wgs s)) t) as (-> & -> & _).
      * apply Forall_forall. intros t Hin.
        apply list_elem_of_In, List.in_map_iff in Hin as (t0 & <- & Hin).
        rewrite Forall_forall in Hb. apply list_elem_of_In in Hin.
        specialize (Hb t0 Hin).
        by destruct (close_stopCh_same (length (wgs s)) t0) as (_ & -> & _).
      * intros b c Hlook. rewrite unfinished_same_pcs; [by apply Hw|].
        intros t. by destruct (close_stopCh_same (length (wgs s)) t) as (_ & -> & ->).
      * intros b Hlt. rewrite unfinished_same_pcs; [by apply Ho|].
        intros t. by destruct (close_stopCh_same (length (wgs s)) t) as (_ & -> & ->).
      * split; [done|]. split; [eauto|].
        unfold Chan.ready in Hready. rewrite Hs in Hready. simpl in Hready.
        rewrite orb_false_r in Hready. intros Hc. congruence.
    + injection Hstep as <-. constructor; simpl; try done.
  - (* line 408 *)
    destruct Hinv as [Hp He Hs Hl Ht Hb Hw Ho Hpc].
    rewrite Hat in Hpc. destruct Hpc as (Hsum & Hleft & Hn & Hplan).
    destruct (last (wgs s)) as [[|c]|] eqn:Hlast; try done.
    injection Hstep as <-. constructor; simpl; try done.
    split; [rewrite Hn; unfold podsPerBatch; lia|]. split; [|done].
    intros b.
    destruct (decide (S b < length (wgs s))) as [Hold|Hnew]; [by apply Ho|].
    destruct (decide (length (wgs s) <= b)) as [Hbig|Hcur].
    + by apply (unfinished_beyond b (tasks s) (length (wgs s))).
    + rewrite last_lookup in Hlast.
      replace (pred (length (wgs s))) with b in Hlast by lia.
      symmetry. by apply Hw.
  - done.
Qed.

Lemma inv_stop_fires ps s :
  inv ps s -> inv ps (set_stop s (Chan.close (stop s))).
Proof.
  intros [Hp He Hs Hl Ht Hb Hw Ho Hpc]. constructor; simpl; try done.
  destruct (pc s); try done.
  destruct Hpc as (-> & Hpre & _). done.
Qed.

Lemma inv_move ps s i t p :
  inv ps s -> tasks s !! i = Some t ->
  is_finished (t_pc t) = false -> is_finished p = false ->
  inv ps (set_tasks s (wgs s) (<[i:=set_task_pc t p]> (tasks s))).
Proof.
  intros [Hp He Hs Hl Ht Hb Hw Ho Hpc] Hi Hft Hfp.
  constructor; simpl; try done.
  - rewrite <- Ht. by apply (map_insert_same _ _ _ i t).
  - apply Forall_insert; [done|]. simpl.
    rewrite Forall_forall in Hb. apply Hb. by apply list_elem_of_lookup_2 in Hi.
  - intros b c Hlook. rewrite unfinished_move by done. by apply Hw.
  - intros b Hlt. rewrite unfinished_move by done. by apply Ho.
  - destruct (pc s); try done.
    destruct Hpc as (? & Hzero & ?). split; [done|]. split; [|done].
    intros b. rewrite unfinished_move by done. apply Hzero.
Qed.

Lemma finish_ok ps s i t :
  inv ps s -> tasks s !! i = Some t -> is_finished (t_pc t) = false ->
  exists c,
    wgs s !! t_batch t = Some (S c) /\
    finish i t s =
    Next (set_tasks s (<[t_batch t:=c]> (wgs s))
            (<[i:=set_task_pc t Finished]> (tasks s))).
Proof.
  intros [Hp He Hs Hl Ht Hb Hw Ho Hpc] Hi Hft.
  assert (Hlt : t_batch t < length (wgs s)).
  { rewrite Forall_forall in Hb. apply Hb. by apply list_elem_of_lookup_2 in Hi. }
  destruct (lookup_lt_is_Some_2 _ _ Hlt) as [c Hc].
  pose proof (Hw _ _ Hc) as Hcount.
  pose proof (unfinished_pos _ _ _ Hi Hft) as Hpos.
  destruct c as [|c]; [lia|]. exists c. split; [done|].
  unfold finish, wg_Done. by rewrite Hc.
Qed.

Lemma inv_finish ps s i t c :
  inv ps s -> tasks s !! i = Some t -> is_finished (t_pc t) = false ->
  wgs s !! t_batch t = Some (S c) ->
  inv ps (set_tasks s (<[t_batch t:=c]> (wgs s))
            (<[i:=set_task_pc t Finished]> (tasks s))).
Proof.
  intros [Hp He Hs Hl Ht Hb Hw Ho Hpc] Hi Hft Hc.
  assert (Hdec : forall b,
    unfinished b (<[i:=set_task_pc t Finished]> (tasks s))
    + (if t_batch t =? b then 1 else 0) = unfinished b (tasks s))
    by (intros b; by apply unfinished_finish).
  constructor; simpl; try done.
  - by rewrite length_insert.
  - rewrite <- Ht. by apply (map_insert_same _ _ _ i t).
  - rewrite length_insert. apply Forall_insert; [done|]. simpl.
    rewrite Forall_forall in Hb. apply Hb. by apply list_elem_of_lookup_2 in Hi.
  - intros b c' Hlook. specialize (Hdec b).
    destruct (decide (t_batch t = b)) as [<-|Hne].
    + rewrite list_lookup_insert_eq in Hlook
        by (by apply lookup_lt_Some in Hc).
      injection Hlook as <-. apply Hw in Hc.
      rewrite Nat.eqb_refl in Hdec. lia.
    + rewrite list_lookup_insert_ne in Hlook by done.
      apply Hw in Hlook. apply Nat.eqb_neq in Hne. rewrite Hne in Hdec. lia.
  - intros b Hlt. rewrite length_insert in Hlt.
    specialize (Hdec b). specialize (Ho b Hlt). lia.
  - destruct (pc s); try done.
    destruct Hpc as (? & Hzero & ?). split; [done|]. split; [|done].
    intros b. specialize (Hdec b). specialize (Hzero b). lia.
Qed.

Lemma send_unbuffered_blocks (e : Err) : Chan.send (Chan.make 0) e = None.
Proof. done. Qed.

Lemma inv_task ps l i s s' :
  inv ps s -> task_step l i s = Next s' -> inv ps s'.
Proof.
  intros Hinv Hstep. unfold task_step in Hstep.
  destruct (tasks s !! i) as [t|] eqn:Hi; [|done].
  destruct l as [| |j resp|j|j]; destruct (t_pc t) eqn:Hpc; try done.
  - assert (Hft : is_finished (t_pc t) = false) by (by rewrite Hpc).
    destruct (finish_ok ps s i t Hinv Hi Hft) as (c & Hc & Hfin).
    destruct (classify resp).
    + rewrite Hfin in Hstep. injection Hstep as <-. by apply inv_finish.
    + rewrite Hfin in Hstep. injection Hstep as <-. by apply inv_finish.
    + injection Hstep as <-. by apply inv_move.
    + rewrite Hfin in Hstep. injection Hstep as <-. by apply inv_finish.
    + injection Hstep as <-. by apply inv_move.
  - assert (Hft : is_finished (t_pc t) = false) by (by rewrite Hpc).
    destruct (finish_ok ps s i t Hinv Hi Hft) as (c & Hc & Hfin).
    destruct (Chan.ready (t_stop t)).
    + rewrite Hfin in Hstep. injection Hstep as <-. by apply inv_finish.
    + injection Hstep as <-. by apply inv_move.
  - by rewrite (inv_errCh ps s Hinv), send_unbuffered_blocks in Hstep.
Qed.

Lemma inv_step ps l s s' : inv ps s -> step l s = Next s' -> inv ps s'.
Proof.
  intros Hinv Hstep. destruct l; simpl in Hstep.
  - by apply (inv_main ps s).
  - destruct (Chan.closed (stop s)); [done|]. injection Hstep as <-.
    by apply inv_stop_fires.
  - exact (inv_task ps _ _ s s' Hinv Hstep).
  - exact (inv_task ps _ _ s s' Hinv Hstep).
  - exact (inv_task ps _ _ s s' Hinv Hstep).
Qed.

Lemma inv_exec ps ls : forall s s',
  inv ps s -> exec ls s = Next s' -> inv ps s'.
Proof.
  induction ls as [|l ls IH]; intros s s' Hinv Hexec; simpl in Hexec.
  - by injection Hexec as <-.
  - destruct (step l s) as [s1| |msg] eqn:Hstep; try done.
    apply (IH s1); [|done]. by apply (inv_step ps l s).
Qed.

(** No step out of a state that satisfies the invariant panics: the slice
    of line 381 is in range and no WaitGroup counter goes below zero. *)
Lemma step_no_panic ps l s msg : inv ps s -> step l s <> Panic msg.
Proof.
  intros Hinv Hstep.
  assert (Hfin : forall i t, tasks s !! i = Some t ->
            is_finished (t_pc t) = false -> finish i t s <> Panic msg).
  { intros i t Hi Hft.
    destruct (finish_ok ps s i t Hinv Hi Hft) as (c & _ & ->). done. }
  destruct l as [| |j resp|j|j]; simpl in Hstep.
  - unfold main_step in Hstep. destruct (pc s) eqn:Hat; try done.
    + destruct (0 <? numPodsLeft s); [|done].
      unfold dispatch in Hstep.
      pose proof (inv_pc ps s Hinv) as Hpc. rewrite Hat in Hpc.
      destruct Hpc as (Hsum & _).
      by rewrite (dispatch_in_range ps s (inv_pods ps s Hinv) Hsum) in Hstep.
    + by destruct (Chan.ready (stop s)).
    + by destruct (last (wgs s)) as [[|c]|].
  - by destruct (Chan.closed (stop s)).
  - unfold task_step in Hstep.
    destruct (tasks s !! j) as [t|] eqn:Hi; [|done].
    destruct (t_pc t) eqn:Hpc; try done.
    assert (Hft : is_finished (t_pc t) = false) by (by rewrite Hpc).
    destruct (classify resp); try done; by apply (Hfin j t).
  - unfold task_step in Hstep.
    destruct (tasks s !! j) as [t|] eqn:Hi; [|done].
    destruct (t_pc t) eqn:Hpc; try done.
    assert (Hft : is_finished (t_pc t) = false) by (by rewrite Hpc).
    destruct (Chan.ready (t_stop t)); try done; by apply (Hfin j t).
  - unfold task_step in Hstep.
    destruct (tasks s !! j) as [t|] eqn:Hi; [|done].
    destruct (t_pc t) eqn:Hpc; try done.
    by rewrite (inv_errCh ps s Hinv), send_unbuffered_blocks in Hstep.
Qed.

Lemma exec_no_panic ps ls msg : forall s, inv ps s -> exec ls s <> Panic msg.
Proof.
  induction ls as [|l ls IH]; intros s Hinv; simpl; [done|].
  destruct (step l s) as [s1| |m] eqn:Hstep; try done.
  - apply IH. by apply (inv_step ps l s).
  - intros [= ->]. by apply (step_no_panic ps l s msg).
Qed.

(** Only the caller closes [stop]. *)
Lemma deferred_stop s : stop (deferred s) = stop s.
Proof.
  unfold deferred. destruct (0 <? Chan.len (errCh s)); [|done].
  by destruct (Chan.recv (errCh s)) as [[e c]|].
Qed.

Lemma finish_stop i t s s' : finish i t s = Next s' -> stop s' = stop s.
Proof.
  unfold finish. destruct (wg_Done _ _); [|done]. by intros [= <-].
Qed.

Lemma step_stop l s s' :
  l <> StopFires -> step l s = Next s' -> stop s' = stop s.
Proof.
  intros Hl Hstep. destruct l as [| |j resp|j|j]; simpl in Hstep; try done.
  - unfold main_step in Hstep. destruct (pc s); try done.
    + destruct (0 <? numPodsLeft s).
      * unfold dispatch in Hstep. destruct (go_slice _ _ _); [|done].
        by injection Hstep as <-.
      * injection Hstep as <-. apply deferred_stop.
    + destruct (Chan.ready (stop s)); injection Hstep as <-; [|done].
      by rewrite deferred_stop.
    + destruct (last (wgs s)) as [[|c]|]; try done. by injection Hstep as <-.
  - unfold task_step in Hstep. destruct (tasks s !! j) as [t|]; [|done].
    destruct (t_pc t); try done.
    destruct (classify resp); try (by apply finish_stop in Hstep);
      by injection Hstep as <-.
  - unfold task_step in Hstep. destruct (tasks s !! j) as [t|]; [|done].
    destruct (t_pc t); try done.
    destruct (Chan.ready (t_stop t)); [by apply finish_stop in Hstep|].
    by injection Hstep as <-.
  - unfold task_step in Hstep. destruct (tasks s !! j) as [t|]; [|done].
    destruct (t_pc t); try done.
    destruct (Chan.send (errCh s) e); [|done].
    by apply finish_stop in Hstep.
Qed.

Lemma exec_stop ls : forall s s',
  ~ In StopFires ls -> exec ls s = Next s' -> stop s' = stop s.
Proof.
  induction ls as [|l ls IH]; intros s s' Hno Hexec; simpl in Hexec.
  - by injection Hexec as <-.
  - destruct (step l s) as [s1| |msg] eqn:Hstep; try done.
    rewrite (IH s1 s') by (try done; intros Hin; apply Hno; by right).
    apply (step_stop l); [|done]. intros ->. apply Hno. by left.
Qed.

(** *** A run that passes every barrier *)

Lemma exec_app ls1 : forall ls2 s,
  exec (ls1 ++ ls2) s =
  match exec ls1 s with
  | Next s1 => exec ls2 s1
  | Blocked => Blocked
  | Panic msg => Panic msg
  end.
Proof.
  induction ls1 as [|l ls1 IH]; intros ls2 s; simpl; [done|].
  destruct (step l s) as [s1| |msg]; [apply IH|done|done].
Qed.

Lemma all_finished_unfinished b ts :
  Forall (fun t => t_pc t = Finished) ts -> unfinished b ts = 0.
Proof.
  unfold unfinished. induction 1 as [|t ts Ht _ IH]; simpl; [done|].
  rewrite Ht. simpl. by rewrite andb_false_r.
Qed.

Lemma unfinished_all_finished ts :
  (forall b, unfinished b ts = 0) -> Forall (fun t => t_pc t = Finished) ts.
Proof.
  intros Hz. apply Forall_lookup. intros i t Hi.
  destruct (t_pc t) eqn:Hpc; try done;
    (assert (Hft : is_finished (t_pc t) = false) by (by rewrite Hpc);
     pose proof (unfinished_pos ts i t Hi Hft) as Hpos;
     specialize (Hz (t_batch t)); lia).
Qed.

Lemma lookup_map {A B : Type} (f : A -> B) (l : list A) : forall i,
  List.map f l !! i = f <$> (l !! i).
Proof.
  induction l as [|x l IH]; intros i; [done|].
  destruct i as [|i]; simpl; [done|apply IH].
Qed.

Lemma run_evictions ps : forall idx s,
  inv ps s -> NoDup idx ->
  (forall i, In i idx -> exists t, tasks s !! i = Some t /\ t_pc t = AtEvict) ->
  exists s',
    exec (List.map (fun i => TaskEvict i None) idx) s = Next s' /\
    inv ps s' /\ same_main s s' /\
    (forall i, In i idx -> exists t, tasks s' !! i = Some t /\ t_pc t = Finished) /\
    (forall i, ~ In i idx -> tasks s' !! i = tasks s !! i).
Proof.
  induction idx as [|i idx IH]; intros s Hinv Hnd Hat.
  - exists s. split; [done|]. split; [done|]. split; [by repeat split|].
    split; [by intros i []|done].
  - apply NoDup_cons in Hnd as [Hni Hnd].
    destruct (Hat i (or_introl eq_refl)) as (t & Hi & Hpc).
    assert (Hft : is_finished (t_pc t) = false) by (by rewrite Hpc).
    destruct (finish_ok ps s i t Hinv Hi Hft) as (c & Hc & Hfin).
    pose proof (inv_finish ps s i t c Hinv Hi Hft Hc) as Hinv1.
    set (s1 := set_tasks s (<[t_batch t:=c]> (wgs s))
                 (<[i:=set_task_pc t Finished]> (tasks s))) in *.
    destruct (IH s1 Hinv1 Hnd) as (s' & Hexec & Hinv' & Hsame & Hfinished & Hother).
    { intros j Hj. destruct (Hat j (or_intror Hj)) as (tj & Hjt & Hjpc).
      exists tj. split; [|done]. unfold s1. state_simpl.
      rewrite list_lookup_insert_ne; [done|].
      intros ->. apply Hni. by apply list_elem_of_In. }
    exists s'. split; [|split; [done|split; [|split]]].
    + cbn [List.map exec step]. unfold task_step. rewrite Hi, Hpc.
      cbn [classify]. by rewrite Hfin.
    + destruct Hsame as (H1 & H2 & H3 & H4 & H5 & H6 & H7).
      unfold s1 in *. revert H1 H2 H3 H4 H5 H6 H7. state_simpl.
      rewrite !length_insert. intros. repeat split; done.
    + intros j [<-|Hj]; [|by apply Hfinished].
      rewrite Hother by (intros Hin; apply Hni; by apply list_elem_of_In).
      unfold s1. state_simpl.
      rewrite list_lookup_insert_eq by (by apply lookup_lt_Some in Hi).
      eexists. split; [done|]. done.
    + intros j Hj. rewrite Hother by (intros Hin; apply Hj; by right).
      unfold s1. state_simpl. rewrite list_lookup_insert_ne; [done|].
      intros ->. apply Hj. by left.
Qed.

Lemma calm_schedule_no_stop : forall fuel left spawned,
  ~ In StopFires (calm_schedule fuel left spawned).
Proof.
  induction fuel as [|fuel IH]; intros left spawned; simpl.
  - intros [?|[]]. done.
  - destruct (0 <? left); [|intros [?|[]]; done].
    intros [?|[?|Hin]]; try done.
    apply in_app_or in Hin as [Hin|[?|Hin]]; try done.
    + apply List.in_map_iff in Hin as (i & ? & _). done.
    + by apply IH in Hin.
Qed.

Lemma main_step_dispatch ps s :
  inv ps s -> pc s = AtLoop -> 0 < numPodsLeft s ->
  main_step s =
  Next
    {| pods := pods s; stop := stop s; errCh := errCh s;
       numPodsLeft := numPodsLeft s;
       podsProcessedSoFar := podsProcessedSoFar s;
       numPodsThisBatch := Nat.min (numPodsLeft s) podsPerBatch;
       wgs := wgs s ++ [Nat.min (numPodsLeft s) podsPerBatch];
       tasks :=
         tasks s ++
         List.map (fun pod =>
                     {| t_pod := pod; t_batch := length (wgs s);
                        t_stop := Chan.make 0; t_pc := AtEvict |})
                  (take (Nat.min (numPodsLeft s) podsPerBatch)
                        (drop (podsProcessedSoFar s) ps));
       dispatched :=
         dispatched s ++
         [take (Nat.min (numPodsLeft s) podsPerBatch)
               (drop (podsProcessedSoFar s) ps)];
       pc := AtSelect |}.
Proof.
  intros Hinv Hat Hleft. unfold main_step. rewrite Hat.
  apply Nat.ltb_lt in Hleft. rewrite Hleft. unfold dispatch.
  pose proof (inv_pc ps s Hinv) as Hpc. rewrite Hat in Hpc.
  destruct Hpc as (Hsum & _).
  by rewrite (dispatch_in_range ps s (inv_pods ps s Hinv) Hsum).
Qed.

Lemma calm_run ps : forall fuel s,
  inv ps s -> pc s = AtLoop -> numPodsLeft s <= fuel ->
  Chan.closed (stop s) = false ->
  exists s',
    exec (calm_schedule fuel (numPodsLeft s) (length (tasks s))) s = Next s' /\
    pc s' = Returned None /\ inv ps s' /\ Chan.closed (stop s') = false.
Proof.
  assert (Hexit : forall s, inv ps s -> pc s = AtLoop -> numPodsLeft s = 0 ->
            Chan.closed (stop s) = false ->
            exists s', exec [Main] s = Next s' /\ pc s' = Returned None /\
                       inv ps s' /\ Chan.closed (stop s') = false).
  { intros s Hinv Hat Hleft Hopen. exists (set_pc s (Returned None)).
    assert (Hstep : main_step s = Next (set_pc s (Returned None))).
    { unfold main_step. rewrite Hat, Hleft. simpl.
      by rewrite (deferred_unbuffered s (inv_errCh ps s Hinv)). }
    cbn [exec step]. rewrite Hstep. split; [done|]. split; [done|].
    split; [|done]. by apply (inv_main ps s). }
  induction fuel as [|fuel IH]; intros s Hinv Hat Hfuel Hopen.
  - assert (Hleft : numPodsLeft s = 0) by lia. rewrite Hleft.
    by apply Hexit.
  - cbn [calm_schedule]. destruct (0 <? numPodsLeft s) eqn:Hpos.
    2: { apply Nat.ltb_ge in Hpos. apply Hexit; try done. lia. }
    apply Nat.ltb_lt in Hpos.
    pose proof (inv_pc ps s Hinv) as Hpc. rewrite Hat in Hpc.
    destruct Hpc as (Hsum & Hzero & Hplan).
    pose proof (main_step_dispatch ps s Hinv Hat Hpos) as Hstep1.
    set (n := Nat.min (numPodsLeft s) podsPerBatch) in *.
    assert (Hn : 1 <= n <= numPodsLeft s) by (unfold n, podsPerBatch; lia).
    assert (Hbl : length (take n (drop (podsProcessedSoFar s) ps)) = n)
      by (rewrite length_take, length_drop; lia).
    set (batch := take n (drop (podsProcessedSoFar s) ps)) in *.
    match type of Hstep1 with _ = Next ?x => set (s1 := x) in * end.
    pose proof (inv_main ps s s1 Hinv Hstep1) as Hinv1.
    (* select *)
    assert (Hstep2 : main_step s1 = Next (set_pc s1 AtWait)).
    { unfold main_step, s1. state_simpl. unfold Chan.ready.
      by rewrite Hopen, (inv_stop ps s Hinv). }
    pose proof (inv_main ps s1 _ Hinv1 Hstep2) as Hinv2.
    (* the evictions *)
    destruct (run_evictions ps (seq (length (tasks s)) n) (set_pc s1 AtWait))
      as (s3 & Hexec3 & Hinv3 & Hsame & Hfinished & Hother);
      [done|apply NoDup_ListNoDup, seq_NoDup|..].
    { intros i Hi. apply in_seq in Hi. unfold s1. state_simpl.
      rewrite lookup_app_r by lia. rewrite lookup_map.
      destruct (lookup_lt_is_Some_2 batch (i - length (tasks s)))
        as [pod Hpod]; [lia|].
      rewrite Hpod. eexists. split; [done|]. done. }
    unfold same_main, s1 in Hsame.
    cbn [pods stop errCh numPodsLeft podsProcessedSoFar numPodsThisBatch wgs
         tasks dispatched pc set_pc] in Hsame.
    rewrite !length_app, length_map, Hbl in Hsame. cbn [length] in Hsame.
    destruct Hsame as (H1 & H2 & H3 & H4 & H5 & H6 & H7).
    (* the barrier *)
    assert (Hall : Forall (fun t => t_pc t = Finished) (tasks s3)).
    { apply Forall_lookup. intros i t Hi.
      destruct (decide (length (tasks s) <= i)) as [Hge|Hlt].
      - assert (Hin : In i (seq (length (tasks s)) n)).
        { apply in_seq. apply lookup_lt_Some in Hi. lia. }
        destruct (Hfinished i Hin) as (t' & Hi' & Hpc').
        rewrite Hi in Hi'. by injection Hi' as ->.
      - rewrite Hother in Hi by (rewrite in_seq; lia).
        revert Hi. unfold s1. state_simpl.
        rewrite lookup_app_l by lia. intros Hi.
        pose proof (unfinished_all_finished _ Hzero) as Hold.
        rewrite Forall_lookup in Hold. by apply (Hold i). }
    assert (Hlast : last (wgs s3) = Some 0).
    { rewrite last_lookup.
      destruct (lookup_lt_is_Some_2 (wgs s3) (pred (length (wgs s3))))
        as [c Hc]; [lia|].
      rewrite Hc. f_equal. rewrite (inv_wg ps s3 Hinv3 _ _ Hc).
      by apply all_finished_unfinished. }
    assert (Hstep4 : exists s4, main_step s3 = Next s4 /\ pc s4 = AtLoop /\
              numPodsLeft s4 = numPodsLeft s - n /\
              tasks s4 = tasks s3 /\ stop s4 = stop s).
    { eexists. split.
      - unfold main_step. rewrite H1, Hlast. reflexivity.
      - state_simpl. rewrite H2, H4, H5. done. }
    destruct Hstep4 as (s4 & Hstep4 & Hat4 & Hleft4 & Htasks4 & Hstop4).
    pose proof (inv_main ps s3 s4 Hinv3 Hstep4) as Hinv4.
    (* the rest of the loop *)
    destruct (IH s4 Hinv4) as (s' & Hexec & Hret & Hinv' & Hopen');
      [done|lia|by rewrite Hstop4|].
    exists s'. split; [|done].
    change ([Main; Main] ++ ?x) with (Main :: Main :: x).
    cbn [exec step]. rewrite Hstep1, Hstep2, exec_app, Hexec3.
    change ([Main] ++ ?x) with (Main :: x). cbn [exec step].
    rewrite Hstep4. rewrite Hleft4, Htasks4, H7 in Hexec. exact Hexec.
Qed.

(** *** What every schedule does *)

Lemma reach_inv ps ls s : exec ls (init ps) = Next s -> inv ps s.
Proof. apply inv_exec, inv_init. Qed.

Lemma inv_prefix ps s :
  inv ps s -> exists rest, dispatched s ++ rest = plan ps.
Proof.
  intros Hinv. pose proof (inv_pc ps s Hinv) as Hpc.
  destruct (pc s).
  - destruct Hpc as (_ & _ & H). eauto.
  - destruct Hpc as (_ & _ & _ & H). eauto.
  - destruct Hpc as (_ & _ & _ & H). eauto.
  - by destruct Hpc as (_ & H & _).
Qed.

Lemma inv_outstanding ps s t :
  inv ps s -> In t (outstanding s) -> S (t_batch t) = length (dispatched s).
Proof.
  intros Hinv Hin. pose proof (outstanding_unfinished _ _ Hin) as Hpos.
  apply List.filter_In in Hin as [Hin _].
  pose proof (inv_batch ps s Hinv) as Hb. rewrite Forall_forall in Hb.
  apply list_elem_of_In in Hin. specialize (Hb t Hin). simpl in Hb.
  rewrite (inv_len ps s Hinv).
  destruct (decide (S (t_batch t) < length (wgs s))) as [Hold|Hcur]; [|lia].
  pose proof (inv_old ps s Hinv _ Hold). lia.
Qed.

Lemma inv_barrier ps s : inv ps s -> pc s = AtLoop -> outstanding s = [].
Proof.
  intros Hinv Hat. pose proof (inv_pc ps s Hinv) as Hpc. rewrite Hat in Hpc.
  destruct Hpc as (_ & Hzero & _). by apply no_unfinished_no_outstanding.
Qed.

(** The batches.  The loop of [evictPods] cuts a list of [n] pods into
    [(n + 9) / 10] batches, that is the ceiling of [n / 10]; each batch
    holds between 1 and 10 pods and the batches, one after the other, are
    the list.  Whatever the schedule, the batches dispatched so far are the
    first batches of that partition, the tasks started are one for each
    pod of each of them, every task that has not finished belongs to the
    batch dispatched last, and when the loop is about to dispatch a batch
    no task is unfinished.  A run that returns without the
    stop signal having been raised has dispatched all the batches, and such
    a run exists: without a stop signal and with evictions that succeed the
    loop passes every barrier and returns. *)
Theorem evictPods_batches :
  forall (ps : list Pod),
    length (plan ps) = (length ps + 9) / 10 /\
    Forall (fun batch : list Pod => 1 <= length batch <= 10) (plan ps) /\
    concat (plan ps) = ps /\
    (forall ls s,
       exec ls (init ps) = Next s ->
       (exists rest, dispatched s ++ rest = plan ps) /\
       (forall t, In t (outstanding s) ->
                  S (t_batch t) = length (dispatched s)) /\
       (pc s = AtLoop -> outstanding s = []) /\
       (forall r, pc s = Returned r -> ~ In StopFires ls ->
                  dispatched s = plan ps) /\
       List.map (fun t => (t_batch t, t_pod t)) (tasks s) =
       tag_batches 0 (dispatched s)) /\
    (exists ls s,
       ~ In StopFires ls /\
       exec ls (init ps) = Next s /\
       pc s = Returned None /\
       dispatched s = plan ps).
Proof.
  intros ps.
  split; [apply plan_length|]. split; [apply plan_sizes|].
  split; [apply plan_concat|]. split.
  - intros ls s Hexec. pose proof (reach_inv ps ls s Hexec) as Hinv.
    split; [by apply inv_prefix|].
    split; [intros t; by apply (inv_outstanding ps)|].
    split; [by apply (inv_barrier ps)|].
    split; [|exact (inv_tags ps s Hinv)].
    intros r Hret Hno. pose proof (inv_pc ps s Hinv) as Hpc.
    rewrite Hret in Hpc. destruct Hpc as (_ & _ & Hfull). apply Hfull.
    by rewrite (exec_stop ls (init ps) s Hno Hexec).
  - destruct (calm_run ps (length ps) (init ps) (inv_init ps) eq_refl
                (le_n _) eq_refl) as (s & Hexec & Hret & Hinv & Hopen).
    exists (calm_schedule (length ps) (length ps) 0), s.
    split; [apply calm_schedule_no_stop|]. split; [done|]. split; [done|].
    pose proof (inv_pc ps s Hinv) as Hpc. rewrite Hret in Hpc.
    destruct Hpc as (_ & _ & Hfull). by apply Hfull.
Qed.

(** Whatever the schedule and whatever the evictions answer, [evictPods]
    returns no error: its error channel is unbuffered, so its length is 0
    when the deferred function tests it. *)
Lemma evictPods_returns_nil ps ls s r :
  exec ls (init ps) = Next s -> pc s = Returned r -> r = None.
Proof.
  intros Hexec Hret. pose proof (inv_pc ps s (reach_inv ps ls s Hexec)) as Hpc.
  rewrite Hret in Hpc. by destruct Hpc as (-> & _).
Qed.

(** A task that holds a fatal error never gets past its send. *)
Lemma fatal_task_stuck ps ls s i :
  exec ls (init ps) = Next s -> step (TaskSend i) s = Blocked.
Proof.
  intros Hexec. pose proof (reach_inv ps ls s Hexec) as Hinv.
  simpl. unfold task_step. destruct (tasks s !! i) as [t|]; [|done].
  destruct (t_pc t); try done.
  by rewrite (inv_errCh ps s Hinv), send_unbuffered_blocks.
Qed.

(** *** The goroutine of a pod runs [evictPod] *)

(** Every run of [evictPod] on the pod of a task, with the stop channel of
    the task as its stop signal, is replayed by the task: the task ends
    past [wg.Done()] when [evictPod] returns nil and at its send on the
    error channel when [evictPod] returns an error. *)
Lemma task_replays_evictPod ps api i : forall fuel k s t r tr,
  inv ps s -> tasks s !! i = Some t -> t_pc t = AtEvict ->
  evictPod_loop fuel api (fun _ => Chan.ready (t_stop t)) (t_pod t) k
    = Some (r, tr) ->
  exists s' t',
    exec (schedule_of_trace i tr) s = Next s' /\ inv ps s' /\
    tasks s' !! i = Some t' /\
    t_pod t' = t_pod t /\ t_stop t' = t_stop t /\ t_pc t' = pc_after r.
Proof.
  induction fuel as [|fuel IH]; intros k s t r tr Hinv Hi Hpc Hrun; [done|].
  assert (Hft : is_finished (t_pc t) = false) by (by rewrite Hpc).
  destruct (finish_ok ps s i t Hinv Hi Hft) as (c & Hc & Hfin).
  assert (Hleave : classify (api k) <> Throttled ->
            (forall e, classify (api k) <> Fatal e) ->
            exec [TaskEvict i (api k)] s =
            Next (set_tasks s (<[t_batch t:=c]> (wgs s))
                    (<[i:=set_task_pc t Finished]> (tasks s)))).
  { intros Hnt Hnf. cbn [exec step]. unfold task_step. rewrite Hi, Hpc.
    destruct (classify (api k)) as [| | | |e]; try by rewrite Hfin.
    - done.
    - by destruct (Hnf e). }
  assert (Hdone : exists t',
            <[i:=set_task_pc t Finished]> (tasks s) !! i = Some t' /\
            t_pod t' = t_pod t /\ t_stop t' = t_stop t /\
            t_pc t' = Finished).
  { exists (set_task_pc t Finished).
    by rewrite list_lookup_insert_eq by (by apply lookup_lt_Some in Hi). }
  remember (fun _ : nat => Chan.ready (t_stop t)) as stopf eqn:Hstopf.
  cbn [evictPod_loop] in Hrun.
  destruct (classify (api k)) as [| | | |e] eqn:Hcl.
  - injection Hrun as <- <-. destruct Hdone as (t' & Ht' & Hrest).
    eexists _, t'. cbn [schedule_of_trace call_of].
    split; [by apply Hleave|]. split; [by apply inv_finish|]. done.
  - injection Hrun as <- <-. destruct Hdone as (t' & Ht' & Hrest).
    eexists _, t'. cbn [schedule_of_trace call_of].
    split; [by apply Hleave|]. split; [by apply inv_finish|]. done.
  - (* throttled *)
    pose proof (inv_move ps s i t AtSleep Hinv Hi Hft eq_refl) as Hinv1.
    set (s1 := set_tasks s (wgs s) (<[i:=set_task_pc t AtSleep]> (tasks s)))
      in *.
    assert (Hi1 : tasks s1 !! i = Some (set_task_pc t AtSleep)).
    { unfold s1. state_simpl.
      by rewrite list_lookup_insert_eq by (by apply lookup_lt_Some in Hi). }
    assert (Hstep1 : step (TaskEvict i (api k)) s = Next s1).
    { cbn [step]. unfold task_step. by rewrite Hi, Hpc, Hcl. }
    destruct (stopf k) eqn:Hready; rewrite Hstopf in Hready.
    + injection Hrun as <- <-.
      destruct (finish_ok ps s1 i _ Hinv1 Hi1 eq_refl) as (c1 & Hc1 & Hfin1).
      eexists _, (set_task_pc (set_task_pc t AtSleep) Finished).
      cbn [schedule_of_trace call_of exec]. rewrite Hstep1.
      split.
      { cbn [step]. unfold task_step. rewrite Hi1.
        cbn [t_pc t_stop set_task_pc]. rewrite Hready. by rewrite Hfin1. }
      split; [by apply inv_finish|].
      state_simpl.
      by rewrite list_lookup_insert_eq by (by apply lookup_lt_Some in Hi1).
    + destruct (evictPod_loop fuel api stopf (t_pod t) (S k))
        as [[r' tr']|] eqn:Hrec; [|done].
      injection Hrun as <- <-. rewrite Hstopf in Hrec.
      pose proof (inv_move ps s1 i _ AtEvict Hinv1 Hi1 eq_refl eq_refl) as Hinv2.
      set (s2 := set_tasks s1 (wgs s1)
                   (<[i:=set_task_pc (set_task_pc t AtSleep) AtEvict]> (tasks s1)))
        in *.
      assert (Hi2 : tasks s2 !! i
                    = Some (set_task_pc (set_task_pc t AtSleep) AtEvict)).
      { unfold s2. state_simpl.
        by rewrite list_lookup_insert_eq by (by apply lookup_lt_Some in Hi1). }
      destruct (IH (S k) s2 _ r' tr' Hinv2 Hi2 eq_refl Hrec)
        as (s' & t' & Hexec & Hinv' & Ht' & Hpod & Hstop & Hpc').
      exists s', t'. cbn [schedule_of_trace call_of exec]. rewrite Hstep1.
      split; [|done].
      assert (step (TaskWake i) s1 = Next s2) as ->; [|done].
      cbn [step]. unfold task_step. rewrite Hi1.
      cbn [t_pc t_stop set_task_pc]. by rewrite Hready.
  - injection Hrun as <- <-. destruct Hdone as (t' & Ht' & Hrest).
    eexists _, t'. cbn [schedule_of_trace call_of].
    split; [by apply Hleave|]. split; [by apply inv_finish|]. done.
  - injection Hrun as <- <-.
    eexists _, (set_task_pc t (AtSend e)). cbn [schedule_of_trace call_of exec].
    split.
    { cbn [step]. unfold task_step. by rewrite Hi, Hpc, Hcl. }
    split; [by apply inv_move|].
    state_simpl.
    by rewrite list_lookup_insert_eq by (by apply lookup_lt_Some in Hi).
Qed.

(** *** The select of lines 401-411 *)

(** With the stop signal already there, the select closes the stop
    channels of the batch and [evictPods] returns without waiting. *)
Lemma select_sees_stop ps s :
  inv ps s -> pc s = AtSelect -> Chan.closed (stop s) = true ->
  step Main s = Next (set_pc (close_stopChs s) (Returned None)) /\
  Forall (fun t => S (t_batch t) = length (wgs s) ->
                   Chan.closed (t_stop t) = true)
         (tasks (close_stopChs s)) /\
  List.map t_pc (tasks (close_stopChs s)) = List.map t_pc (tasks s).
Proof.
  intros Hinv Hat Hclosed. split; [|split].
  - cbn [step]. unfold main_step, Chan.ready. rewrite Hat, Hclosed.
    cbn [orb]. rewrite deferred_unbuffered; [done|].
    exact (inv_errCh ps s Hinv).
  - state_simpl. apply Forall_forall. intros t Hin.
    apply list_elem_of_In, List.in_map_iff in Hin as (t0 & <- & _).
    unfold close_stopCh. destruct (S (t_batch t0) =? length (wgs s)) eqn:E.
    + done.
    + apply Nat.eqb_neq in E. done.
  - state_simpl. rewrite List.map_map. apply List.map_ext. intros t.
    by destruct (close_stopCh_same (length (wgs s)) t) as (_ & _ & ->).
Qed.

(** Without it, the select takes the default branch; from then on the
    loop moves only when the counter of the batch is 0, whatever happens to
    the stop channel. *)
Lemma select_default_then_barrier ps s :
  inv ps s -> pc s = AtSelect -> Chan.closed (stop s) = false ->
  step Main s = Next (set_pc s AtWait) /\
  (forall s', pc s' = AtWait -> outstanding s' <> [] -> inv ps s' ->
              step Main s' = Blocked).
Proof.
  intros Hinv Hat Hopen. split.
  - cbn [step]. unfold main_step, Chan.ready.
    by rewrite Hat, Hopen, (inv_stop ps s Hinv).
  - intros s' Hat' Hout Hinv'. cbn [step]. unfold main_step. rewrite Hat'.
    destruct (last (wgs s')) as [[|c]|] eqn:Hlast; try done.
    exfalso. apply Hout. apply no_unfinished_no_outstanding. intros b.
    destruct (decide (S b < length (wgs s'))) as [Hold|Hnew];
      [by apply (inv_old ps s' Hinv')|].
    destruct (decide (length (wgs s') <= b)) as [Hbig|Hcur].
    + apply (unfinished_beyond b (tasks s') (length (wgs s')));
        [exact (inv_batch ps s' Hinv')|done].
    + rewrite last_lookup in Hlast.
      replace (pred (length (wgs s'))) with b in Hlast by lia.
      symmetry. by apply (inv_wg ps s' Hinv').
Qed.

(** *** Distinct pods *)

Lemma NoDup_concat_Forall {A : Type} (l : list (list A)) :
  NoDup (concat l) -> Forall NoDup l.
Proof.
  induction l as [|x l IH]; simpl; [constructor|].
  intros H. apply NoDup_app in H as (Hx & _ & Hl). constructor; auto.
Qed.

(** When the pods handed to [evictPods] are distinct, no batch holds a pod
    twice. *)
Lemma batches_NoDup ps ls s :
  NoDup ps -> exec ls (init ps) = Next s -> Forall NoDup (dispatched s).
Proof.
  intros Hnd Hexec.
  destruct (inv_prefix ps s (reach_inv ps ls s Hexec)) as [rest Hpre].
  assert (Hall : Forall NoDup (plan ps)).
  { apply NoDup_concat_Forall. by rewrite plan_concat. }
  rewrite <- Hpre in Hall. by apply Forall_app in Hall as [H _].
Qed.

End EvictPodsFacts.

(** ** Theorems about DrainCoordinator *)

Module DrainNodeFacts.
Import DrainNode.

Lemma drain_inv_start items : inv (start items None).
Proof.
  constructor; simpl; try done.
  eexists. apply EvictPodsFacts.inv_init.
Qed.

Lemma drain_deferred_unbuffered s :
  errCh s = Chan.make 0 ->
  deferred s =
  {| errCh := errCh s; stopPolling := stopPolling s; evict := evict s;
     evictor := evictor s; poller := poller s; pc := Returned None |}.
Proof. intros He. unfold deferred. by rewrite He. Qed.

Lemma drain_inv_lift s l b :
  inv s -> l <> EvictPods.StopFires -> EvictPods.step l (evict s) = Next b ->
  inv (set_evict s b).
Proof.
  intros [He Hb [ps Hinv] Hpc] Hl Hstep. constructor; simpl; try done.
  - exists ps. by apply (EvictPodsFacts.inv_step ps l (evict s)).
  - destruct (pc s); [|done]. unfold stopEvicting in *. simpl.
    by rewrite (EvictPodsFacts.step_stop l (evict s) b Hl Hstep).
Qed.

Lemma drain_inv_step l s s' : inv s -> step l s = Next s' -> inv s'.
Proof.
  intros Hinv Hstep. destruct l as [l| | |items err| | |]; cbn [step] in Hstep.
  - destruct l as [| |i resp|i|i]; try done.
    + destruct (evictor s); try done.
      destruct (EvictPods.step EvictPods.Main (evict s)) as [b| |] eqn:Hb; try done.
      injection Hstep as <-. by apply (drain_inv_lift s EvictPods.Main).
    + destruct (EvictPods.step (EvictPods.TaskEvict i resp) (evict s)) as [b| |] eqn:Hb;
        try done.
      injection Hstep as <-. by apply (drain_inv_lift s (EvictPods.TaskEvict i resp)).
    + destruct (EvictPods.step (EvictPods.TaskWake i) (evict s)) as [b| |] eqn:Hb;
        try done.
      injection Hstep as <-. by apply (drain_inv_lift s (EvictPods.TaskWake i)).
    + destruct (EvictPods.step (EvictPods.TaskSend i) (evict s)) as [b| |] eqn:Hb;
        try done.
      injection Hstep as <-. by apply (drain_inv_lift s (EvictPods.TaskSend i)).
  - destruct Hinv as [He Hb Hev Hpc].
    destruct (evictor s); try done.
    destruct (EvictPods.pc (evict s)) as [| | |[e|]]; try done;
      injection Hstep as <-; by constructor.
  - destruct (evictor s); try done.
    by rewrite (dinv_errCh s Hinv), EvictPodsFacts.send_unbuffered_blocks in Hstep.
  - destruct Hinv as [He Hb Hev Hpc].
    destruct (poller s); try done. injection Hstep as <-.
    unfold poll. destruct err; [by constructor|].
    destruct (_ =? 0); [by constructor|].
    destruct (Chan.ready (stopPolling s)); by constructor.
  - destruct Hinv as [He Hb Hev Hpc].
    destruct (pc s); try done. destruct (poller s); try done.
    rewrite drain_deferred_unbuffered in Hstep by done.
    injection Hstep as <-. by constructor.
  - destruct Hinv as [He Hb [ps Hev] Hpc].
    destruct (pc s); try done.
    rewrite drain_deferred_unbuffered in Hstep by done.
    injection Hstep as <-. constructor; simpl; try done.
    exists ps. by apply EvictPodsFacts.inv_stop_fires.
  - destruct Hinv as [He Hb [ps Hev] Hpc].
    destruct (pc s); try done.
    rewrite drain_deferred_unbuffered in Hstep by done.
    injection Hstep as <-. constructor; simpl; try done.
    exists ps. by apply EvictPodsFacts.inv_stop_fires.
Qed.

Lemma drain_inv_exec ls : forall s s', inv s -> exec ls s = Next s' -> inv s'.
Proof.
  induction ls as [|l ls IH]; intros s s' Hinv Hexec; simpl in Hexec.
  - by injection Hexec as <-.
  - destruct (step l s) as [s1| |msg] eqn:Hstep; try done.
    apply (IH s1); [|done]. by apply (drain_inv_step l s).
Qed.

(** No schedule makes a goroutine of the drain panic. *)
Lemma drain_step_no_panic l s msg : inv s -> step l s <> Panic msg.
Proof.
  intros Hinv. destruct (dinv_evict s Hinv) as [ps Hev].
  assert (Hlift : forall l', lift s (EvictPods.step l' (evict s)) <> Panic msg).
  { intros l'. pose proof (EvictPodsFacts.step_no_panic ps l' (evict s)) as Hno.
    destruct (EvictPods.step l' (evict s)) as [b| |m]; try done.
    simpl. intros [= ->]. by apply (Hno msg). }
  destruct l as [l| | |items err| | |]; cbn [step].
  - destruct l as [| |i resp|i|i]; try done; try apply Hlift.
    all: destruct (evictor s); try done; apply Hlift.
  - destruct (evictor s); try done.
    by destruct (EvictPods.pc (evict s)) as [| | |[e|]].
  - destruct (evictor s); try done. by destruct (Chan.send (errCh s) e).
  - by destruct (poller s).
  - destruct (pc s); try done. by destruct (poller s).
  - by destruct (pc s).
  - by destruct (pc s).
Qed.

Lemma drain_exec_no_panic ls msg : forall s, inv s -> exec ls s <> Panic msg.
Proof.
  induction ls as [|l ls IH]; intros s Hinv; simpl; [done|].
  destruct (step l s) as [s1| |m] eqn:Hstep; try done.
  - apply IH. by apply (drain_inv_step l s).
  - intros [= ->]. by apply (drain_step_no_panic l s msg).
Qed.

(** Whatever the schedule and whatever the evictions answer, a drain whose
    listing succeeded returns no error. *)
Lemma DrainNode_returns_nil items ls s r :
  exec ls (start items None) = Next s -> pc s = Returned r ->
  r = None.
Proof.
  intros Hexec Hret.
  pose proof (dinv_pc s (drain_inv_exec ls _ s (drain_inv_start items) Hexec)) as Hpc.
  by rewrite Hret in Hpc.
Qed.

(** When the listing fails, [DrainNode] returns its error and nothing has
    been started. *)
Lemma DrainNode_listing_error items e l :
  pc (start items (Some e)) = Returned (Some e) /\
  step l (start items (Some e)) = Blocked.
Proof.
  split; [done|]. destruct l as [l| | |its err| | |]; try done.
  destruct l as [| |i resp|i|i]; try done.
Qed.

(** C6. While [DrainNode] waits in its select, neither stop channel is
    closed.  When the select is resolved by the timer or by the context,
    [DrainNode] closes [stopPolling] and [stopEvicting] and returns no
    error. *)
Theorem DrainNode_soft_stop :
  forall (items : list Pod) (ls : list label) (s : state) (l : label),
    exec ls (start items None) = Next s ->
    pc s = AtSelect ->
    l = Timeout \/ l = Cancelled ->
    Chan.closed (stopPolling s) = false /\
    Chan.closed (stopEvicting s) = false /\
    exists s',
      step l s = Next s' /\
      pc s' = Returned None /\
      Chan.closed (stopPolling s') = true /\
      Chan.closed (stopEvicting s') = true.
Proof.
  intros items ls s l Hexec Hat Hl.
  pose proof (drain_inv_exec ls _ s (drain_inv_start items) Hexec) as Hinv.
  pose proof (dinv_pc s Hinv) as Hpc. rewrite Hat in Hpc.
  destruct Hpc as [Hp He]. split; [done|]. split; [done|].
  exists (deferred (close_both s)).
  split; [by destruct Hl as [-> | ->]; simpl; rewrite Hat|].
  rewrite drain_deferred_unbuffered by (exact (dinv_errCh s Hinv)). done.
Qed.

End DrainNodeFacts.

(** ** End-to-end scenarios *)

Module Scenarios.
Import Examples.

(** Three pods, none of a DaemonSet, all evicted at the first attempt: one
    batch, and the drain returns no error once the poller sees no pod. *)
Lemma three_pods_drained :
  DrainNode.exec schedule_drained (DrainNode.start three None)
    = Next three_drained /\
  DrainNode.pc three_drained = DrainNode.Returned None /\
  EvictPods.dispatched (DrainNode.evict three_drained) = [three] /\
  EvictPods.outstanding (DrainNode.evict three_drained) = [].
Proof. by_running. Qed.

(** Only a DaemonSet pod on the node: no task is ever started and the drain
    returns no error. *)
Lemma daemonset_only_drained :
  DrainNode.exec schedule_daemonset_only (DrainNode.start [agent] None)
    = Next daemonset_drained /\
  DrainNode.pc daemonset_drained = DrainNode.Returned None /\
  EvictPods.tasks (DrainNode.evict daemonset_drained) = [].
Proof. by_running. Qed.

(** The stop signal is already there at the select: the stop channel of
    the pod is closed and [evictPods] returns while the task has not yet
    called Evict. *)
Lemma stop_before_select :
  EvictPods.exec schedule_stop_before_select (EvictPods.init [web])
    = Next stopped_early /\
  EvictPods.pc stopped_early = EvictPods.Returned None /\
  List.map (fun t => (EvictPods.t_pc t, Chan.closed (EvictPods.t_stop t)))
    (EvictPods.tasks stopped_early)
    = [(EvictPods.AtEvict, true)].
Proof. by_running. Qed.

End Scenarios.

(** ** The scenarios in which the code departs from the specification *)

Module Divergences.
Import Examples.

(** C1. One pod, whose eviction answers with an internal error.  The task
    holds the error and stands at its send on the unbuffered error channel
    of [evictPods]; the send cannot go through, [evictPods] cannot pass its
    barrier, and [DrainNode], resolved as drained or by the timer, returns
    no error. *)
Theorem DrainNode_drops_fatal_eviction_error :
  DrainNode.exec schedule_fatal (DrainNode.start [web] None)
    = Next fatal_then_drained /\
  DrainNode.pc fatal_then_drained = DrainNode.Returned None /\
  List.map EvictPods.t_pc (EvictPods.tasks (DrainNode.evict fatal_then_drained))
    = [EvictPods.AtSend internal_error] /\
  DrainNode.step (DrainNode.Pipeline (EvictPods.TaskSend 0)) fatal_then_drained
    = Blocked /\
  DrainNode.step (DrainNode.Pipeline EvictPods.Main) fatal_then_drained
    = Blocked /\
  DrainNode.exec schedule_fatal_timeout (DrainNode.start [web] None)
    = Next fatal_then_timeout /\
  DrainNode.pc fatal_then_timeout = DrainNode.Returned None.
Proof. by_running. Qed.

(** C7. A pod with two owner references, neither of kind DaemonSet, is
    listed twice by the filter; the first batch starts two eviction tasks
    for it, and both are outstanding at the same time. *)
Theorem same_pod_evicted_twice_at_once :
  Filter.filterOutPodByOwnerReferenceKind [shared] DrainNode.excluded_kind
    = [shared; shared] /\
  DrainNode.exec schedule_dispatch (DrainNode.start [shared] None)
    = Next shared_dispatched /\
  List.map (fun t => (EvictPods.t_pod t, EvictPods.t_batch t))
    (EvictPods.outstanding (DrainNode.evict shared_dispatched))
    = [(shared, 0); (shared, 0)].
Proof. by_running. Qed.

(** C8. One pod, throttled.  The stop signal comes while the loop waits at
    the barrier: the loop stays blocked there, the stop channel of the pod
    stays open, and the pod can go round after round of its retry loop.
    With eleven pods and the stop signal during the first batch, the loop
    waits for the ten evictions, dispatches the second batch and only then
    sees the signal. *)
Theorem stop_during_barrier_is_not_seen :
  EvictPods.exec schedule_stop_at_barrier (EvictPods.init [web])
    = Next at_barrier /\
  Chan.closed (EvictPods.stop at_barrier) = true /\
  EvictPods.pc at_barrier = EvictPods.AtWait /\
  List.map (fun t => (EvictPods.t_pc t, Chan.closed (EvictPods.t_stop t)))
    (EvictPods.tasks at_barrier)
    = [(EvictPods.AtSleep, false)] /\
  EvictPods.step EvictPods.Main at_barrier = Blocked /\
  (forall n,
     EvictPods.exec (concat (repeat throttled_round n)) at_barrier
     = Next at_barrier) /\
  EvictPods.exec schedule_stop_first_batch (EvictPods.init eleven)
    = Next after_first_batch /\
  List.map (@length Pod) (EvictPods.dispatched after_first_batch) = [10; 1] /\
  EvictPods.pc after_first_batch = EvictPods.Returned None.
Proof.
  do 5 (split; [vm_compute; reflexivity|]).
  split; [|by_running].
  assert (Hround : EvictPods.exec throttled_round at_barrier = Next at_barrier)
    by (vm_compute; reflexivity).
  induction n as [|n IH]; [reflexivity|].
  cbn [repeat concat]. rewrite EvictPodsFacts.exec_app, Hround. exact IH.
Qed.

End Divergences.

(** ** The theorems at sample inputs *)

Module Witnesses.
Import Examples.

Lemma filter_spec_witness :
  ~ In bare
      (Filter.filterOutPodByOwnerReferenceKind [web; agent; bare; shared]
         "DaemonSet") /\
  ~ In agent
      (Filter.filterOutPodByOwnerReferenceKind [web; agent; bare; shared]
         "DaemonSet").
Proof.
  destruct (FilterFacts.filterOutPodByOwnerReferenceKind_spec
              [web; agent; bare; shared] "DaemonSet") as (_ & _ & H0 & H1).
  split.
  - apply H0. reflexivity.
  - apply (H1 agent (owner "DaemonSet" "agent")); reflexivity.
Defined.

Lemma evictPods_batches_witness :
  length (EvictPods.plan eleven) = 2 /\
  (exists rest,
     EvictPods.dispatched first_dispatch ++ rest = EvictPods.plan eleven) /\
  EvictPods.dispatched calm_eleven = EvictPods.plan eleven.
Proof.
  destruct (EvictPodsFacts.evictPods_batches eleven)
    as (Hlen & _ & _ & Hrun & _).
  split; [exact Hlen|]. split.
  - destruct (Hrun schedule_first_dispatch first_dispatch) as (Hpre & _);
      [vm_compute; reflexivity|].
    exact Hpre.
  - destruct (Hrun (EvictPods.calm_schedule 11 11 0) calm_eleven)
      as (_ & _ & _ & Hfull & _); [vm_compute; reflexivity|].
    apply (Hfull None); [vm_compute; reflexivity|].
    vm_compute. intuition discriminate.
Defined.

Lemma evictPod_error_policy_witness :
  EvictPod.evictPod 5 api_throttle_then_fail never_stopped web =
    Some (Some internal_error,
          EvictPod.throttled_then web
            [Some too_many_requests; Some too_many_requests]
            (Some internal_error)) /\
  EvictPod.last_response
    (EvictPod.throttled_then web
       [Some too_many_requests; Some too_many_requests]
       (Some internal_error))
  = Some (Some internal_error).
Proof.
  destruct (EvictPodFacts.evictPod_error_policy
              5 api_throttle_then_fail never_stopped web) as (HA & _ & HC).
  assert (Hrun :
    EvictPod.evictPod 5 api_throttle_then_fail never_stopped web =
    Some (Some internal_error,
          EvictPod.throttled_then web
            [Some too_many_requests; Some too_many_requests]
            (Some internal_error))).
  { apply (HC 2 internal_error).
    - intros i Hi. destruct i as [|[|i]]; [reflexivity|reflexivity|lia].
    - intros i Hi. reflexivity.
    - reflexivity.
    - repeat split; reflexivity.
    - lia. }
  split; [exact Hrun|].
  destruct (HA _ _ Hrun) as (_ & Hlast & _). exact Hlast.
Defined.

Lemma evictPod_retry_policy_witness :
  EvictPod.evictPod 4 api_throttle_then_ok never_stopped web =
    Some (None,
          EvictPod.throttled_then web
            (List.map api_throttle_then_ok (seq 0 3)) None) /\
  EvictPod.attempts
    (EvictPod.throttled_then web (List.map api_throttle_then_ok (seq 0 3)) None)
    = 3 + 1 /\
  EvictPod.sleeps
    (EvictPod.throttled_then web (List.map api_throttle_then_ok (seq 0 3)) None)
    = repeat 5 3 /\
  EvictPod.evictPod 1 (fun _ => Some pod_not_found) never_stopped web =
    Some (None, [EvictPod.call_of web (Some pod_not_found)]).
Proof.
  destruct (EvictPodFacts.evictPod_retry_policy
              api_throttle_then_ok never_stopped web) as [H _].
  destruct (H 3 4) as (tr & Hrun & -> & Hattempts & Hsleeps).
  - intros i Hi. destruct i as [|[|[|i]]]; [reflexivity..|lia].
  - intros i Hi. reflexivity.
  - reflexivity.
  - lia.
  - split; [exact Hrun|]. split; [exact Hattempts|]. split; [exact Hsleeps|].
    destruct (EvictPodFacts.evictPod_retry_policy
                (fun _ => Some pod_not_found) never_stopped web)
      as (_ & H' & _).
    apply (H' pod_not_found 1); [reflexivity|reflexivity|lia].
Defined.

Lemma DrainNode_soft_stop_witness :
  DrainNode.step DrainNode.Timeout web_dispatched = Next web_timed_out /\
  DrainNode.pc web_timed_out = DrainNode.Returned None /\
  Chan.closed (DrainNode.stopPolling web_timed_out) = true /\
  Chan.closed (DrainNode.stopEvicting web_timed_out) = true.
Proof.
  destruct (DrainNodeFacts.DrainNode_soft_stop [web] schedule_dispatch
              web_dispatched DrainNode.Timeout)
    as (_ & _ & s' & Hstep & Hret & Hp & He);
    [vm_compute; reflexivity|vm_compute; reflexivity|left; reflexivity|].
  assert (Hs' : s' = web_timed_out).
  { vm_compute in Hstep. injection Hstep as <-. vm_compute. reflexivity. }
  rewrite <- Hs'. split; [exact Hstep|]. split; [exact Hret|].
  split; [exact Hp|exact He].
Defined.

Lemma GetProjectIdAndZoneFromNode_witness :
  NodeOps.GetProjectIdAndZoneFromNode "gke-pool-1-abcd" (cluster None) =
  NodeOps.Returns ("my-project", "europe-west1-b", None).
Proof.
  destruct (NodeOpsFacts.GetProjectIdAndZoneFromNode_spec
              NodeOps.fake_server NodeOps.fake_clientset
              "gke-pool-1-abcd" (cluster None) (gke_node None)) as [H _].
  destruct H as (projectID & zone & H2 & H3 & Hret).
  - vm_compute. reflexivity.
  - vm_compute. lia.
  - vm_compute in H2, H3. injection H2 as <-. injection H3 as <-. exact Hret.
Defined.

Lemma SetNodeAnnotation_witness :
  NodeOps.SetNodeAnnotation "gke-pool-1-abcd" "estafette.io/state" "killing"
    (cluster None)
  = NodeOps.Panics "assignment to entry in nil map" /\
  NodeOps.SetNodeAnnotation "gke-pool-1-abcd" "estafette.io/state" "killing"
    (cluster (Some ∅))
  = NodeOps.Returns
      (None, cluster (Some (<["estafette.io/state":="killing"]> ∅))).
Proof.
  split.
  - destruct (NodeOpsFacts.SetNodeAnnotation_spec
                NodeOps.fake_server NodeOps.fake_clientset
                "gke-pool-1-abcd" "estafette.io/state" "killing"
                (cluster None) (gke_node None)) as [_ H];
      [vm_compute; reflexivity|].
    apply H. reflexivity.
  - destruct (NodeOpsFacts.SetNodeAnnotation_spec
                NodeOps.fake_server NodeOps.fake_clientset
                "gke-pool-1-abcd" "estafette.io/state" "killing"
                (cluster (Some ∅)) (gke_node (Some ∅))) as [H _];
      [reflexivity|].
    destruct (H ∅) as (Hret & _); [reflexivity|].
    rewrite Hret. reflexivity.
Defined.

End Witnesses.

(** ** More theorems about PodSetFilter *)

Module FilterViewsFacts.
Import Filter FilterViews.

Lemma node_filter_is_filter podList nodeName :
  filterOutPodByNode podList nodeName = List.filter (on_node nodeName) podList.
Proof. apply FilterFacts.filterOutPodByNode_spec. Qed.

Lemma occurrences_node_filter p nodeName podList :
  occurrences p (List.filter (on_node nodeName) podList) =
  if on_node nodeName p then occurrences p podList else 0.
Proof.
  induction podList as [|q podList IH]; simpl.
  - by destruct (on_node nodeName p).
  - destruct (on_node nodeName q) eqn:Eq.
    + rewrite !FilterFacts.occurrences_cons, IH.
      destruct (bool_decide (q = p)) eqn:E; [|done].
      apply bool_decide_eq_true in E. subst q. by rewrite Eq.
    + rewrite FilterFacts.occurrences_cons, IH.
      destruct (bool_decide (q = p)) eqn:E; [|done].
      apply bool_decide_eq_true in E. subst q. by rewrite Eq.
Qed.

(** X1. [filterOutPodByNode] keeps, in the order of the input, the pods
    whose node name is the given one: a pod is in the output exactly when
    it is in the input and sits on that node, and then as often as in the
    input; the output is no longer than the input, and an input without
    repetition gives an output without repetition. *)
Theorem filterOutPodByNode_selects :
  forall (podList : list Pod) (nodeName : string),
    filterOutPodByNode podList nodeName
      = List.filter (on_node nodeName) podList /\
    (forall p,
       In p (filterOutPodByNode podList nodeName) <->
       In p podList /\ NodeName (pod_Spec p) = nodeName) /\
    (forall p,
       occurrences p (filterOutPodByNode podList nodeName) =
       if on_node nodeName p then occurrences p podList else 0) /\
    length (filterOutPodByNode podList nodeName) <= length podList /\
    (NoDup podList -> NoDup (filterOutPodByNode podList nodeName)).
Proof.
  intros podList nodeName. rewrite node_filter_is_filter.
  split; [done|]. split; [|split; [|split]].
  - intros p. rewrite List.filter_In. unfold on_node.
    by rewrite String.eqb_eq.
  - intros p. apply occurrences_node_filter.
  - apply List.filter_length_le.
  - intros Hnd. apply NoDup_ListNoDup, List.NoDup_filter.
    by apply NoDup_ListNoDup.
Qed.

Lemma filter_filter_same {A : Type} (f : A -> bool) (l : list A) :
  List.filter f (List.filter f l) = List.filter f l.
Proof.
  induction l as [|x l IH]; simpl; [done|].
  destruct (f x) eqn:E; simpl; [by rewrite E, IH|done].
Qed.

Lemma filter_filter_swap {A : Type} (f g : A -> bool) (l : list A) :
  List.filter f (List.filter g l) = List.filter g (List.filter f l).
Proof.
  induction l as [|x l IH]; simpl; [done|].
  destruct (g x) eqn:Eg, (f x) eqn:Ef; simpl; rewrite ?Eg, ?Ef, IH; done.
Qed.

(** X2. Filtering by node twice with the same name changes nothing more,
    filtering by two names commutes, and filtering by two different names
    leaves no pod. *)
Theorem filterOutPodByNode_composes :
  forall (podList : list Pod) (n m : string),
    filterOutPodByNode (filterOutPodByNode podList n) n
      = filterOutPodByNode podList n /\
    filterOutPodByNode (filterOutPodByNode podList n) m
      = filterOutPodByNode (filterOutPodByNode podList m) n /\
    (n <> m -> filterOutPodByNode (filterOutPodByNode podList n) m = []).
Proof.
  intros podList n m. rewrite !node_filter_is_filter.
  split; [apply filter_filter_same|]. split; [apply filter_filter_swap|].
  intros Hne. induction podList as [|p podList IH]; simpl; [done|].
  destruct (on_node n p) eqn:En; simpl; [|done].
  destruct (on_node m p) eqn:Em; [|done].
  unfold on_node in En, Em. apply String.eqb_eq in En, Em. congruence.
Qed.

Lemma in_owner_filter p podList kind :
  In p (filterOutPodByOwnerReferenceKind podList kind) <->
  In p podList /\ has_other_owner kind p = true.
Proof.
  rewrite FilterFacts.filter_flat_map, in_flat_map. split.
  - intros (q & Hq & Hin). apply repeat_spec in Hin as Heq. subst q.
    split; [done|]. unfold has_other_owner, differing_refs in *.
    destruct (List.filter _ _) as [|r rs] eqn:E; [done|].
    apply existsb_exists. exists r.
    assert (Hr : In r (List.filter
      (fun r => negb (String.eqb (Kind r) kind))
      (OwnerReferences (pod_ObjectMeta p)))) by (rewrite E; by left).
    apply List.filter_In in Hr. done.
  - intros (Hin & Hown). exists p. split; [done|].
    unfold has_other_owner in Hown. apply existsb_exists in Hown
      as (r & Hr & Hd).
    unfold differing_refs.
    assert (Hr' : In r (List.filter
      (fun r => negb (String.eqb (Kind r) kind))
      (OwnerReferences (pod_ObjectMeta p))))
      by (apply List.filter_In; done).
    destruct (List.filter _ _) as [|r0 rs]; [done|]. simpl. by left.
Qed.

(** X3. A listed pod passes [filterOutPodByOwnerReferenceKind] exactly when
    one of its owner references has a kind other than the excluded one.  So
    a pod that the excluded kind owns passes as soon as it has a second
    owner of another kind. *)
Theorem owner_filter_membership :
  forall (podList : list Pod) (kind : string),
    (forall p,
       In p (filterOutPodByOwnerReferenceKind podList kind) <->
       In p podList /\
       exists r, In r (OwnerReferences (pod_ObjectMeta p)) /\ Kind r <> kind) /\
    (forall p r1 r2,
       In p podList ->
       In r1 (OwnerReferences (pod_ObjectMeta p)) -> Kind r1 = kind ->
       In r2 (OwnerReferences (pod_ObjectMeta p)) -> Kind r2 <> kind ->
       In p (filterOutPodByOwnerReferenceKind podList kind)).
Proof.
  intros podList kind.
  assert (Hiff : forall p,
    has_other_owner kind p = true <->
    exists r, In r (OwnerReferences (pod_ObjectMeta p)) /\ Kind r <> kind).
  { intros p. unfold has_other_owner. rewrite existsb_exists.
    split; intros (r & Hr & Hk); exists r; (split; [done|]);
      unfold differs in *.
    - apply negb_true_iff, String.eqb_neq in Hk. done.
    - apply negb_true_iff, String.eqb_neq. done. }
  split.
  - intros p. rewrite in_owner_filter, Hiff. done.
  - intros p r1 r2 Hin _ _ H2 Hk2. apply in_owner_filter.
    split; [done|]. apply Hiff. eauto.
Qed.

Lemma length_owner_filter podList kind :
  length (filterOutPodByOwnerReferenceKind podList kind) =
  total (List.map (fun p => length (differing_refs p kind)) podList).
Proof.
  rewrite FilterFacts.filter_flat_map.
  induction podList as [|p podList IH]; simpl; [done|].
  by rewrite length_app, repeat_length, IH.
Qed.

Lemma owner_filter_nil podList kind :
  filterOutPodByOwnerReferenceKind podList kind = [] <->
  forall p r, In p podList ->
              In r (OwnerReferences (pod_ObjectMeta p)) -> Kind r = kind.
Proof.
  split.
  - intros Hnil p r Hp Hr.
    destruct (String.eqb (Kind r) kind) eqn:E; [by apply String.eqb_eq|].
    apply String.eqb_neq in E.
    assert (Hin : In p (filterOutPodByOwnerReferenceKind podList kind)).
    { apply in_owner_filter. split; [done|].
      unfold has_other_owner. apply existsb_exists. exists r.
      split; [done|]. unfold differs. by apply negb_true_iff, String.eqb_neq. }
    rewrite Hnil in Hin. done.
  - intros Hall.
    destruct (filterOutPodByOwnerReferenceKind podList kind) as [|p rest] eqn:E;
      [done|].
    assert (Hin : In p (filterOutPodByOwnerReferenceKind podList kind))
      by (rewrite E; by left).
    apply in_owner_filter in Hin as (Hp & Hown).
    unfold has_other_owner in Hown.
    apply existsb_exists in Hown as (r & Hr & Hd).
    unfold differs in Hd. apply negb_true_iff, String.eqb_neq in Hd.
    by destruct (Hd (Hall p r Hp Hr)).
Qed.

Lemma node_filter_nil podList nodeName :
  filterOutPodByNode podList nodeName = [] <->
  forall p, In p podList -> NodeName (pod_Spec p) <> nodeName.
Proof.
  rewrite node_filter_is_filter. split.
  - intros Hnil p Hp Hn.
    assert (Hin : In p (List.filter (on_node nodeName) podList)).
    { apply List.filter_In. split; [done|]. unfold on_node.
      by apply String.eqb_eq. }
    by rewrite Hnil in Hin.
  - intros Hall.
    destruct (List.filter (on_node nodeName) podList) as [|p rest] eqn:E;
      [done|].
    assert (Hin : In p (List.filter (on_node nodeName) podList))
      by (rewrite E; by left).
    apply List.filter_In in Hin as (Hp & Hn). unfold on_node in Hn.
    apply String.eqb_eq in Hn. by destruct (Hall p Hp).
Qed.

Lemma owner_filter_single podList kind :
  Forall (fun p => length (OwnerReferences (pod_ObjectMeta p)) <= 1) podList ->
  filterOutPodByOwnerReferenceKind podList kind
  = List.filter (has_other_owner kind) podList.
Proof.
  intros Hone. rewrite FilterFacts.filter_flat_map.
  induction Hone as [|p podList Hp _ IH]; simpl; [done|].
  rewrite IH. unfold differing_refs, has_other_owner, differs.
  destruct (OwnerReferences (pod_ObjectMeta p)) as [|r [|r' rs]];
    simpl in *; [done| |lia].
  by destruct (negb (String.eqb (Kind r) kind)).
Qed.

(** X4. The output of [filterOutPodByOwnerReferenceKind] has one element
    for every owner reference of a listed pod whose kind is not the
    excluded one.  It is empty exactly when every owner reference of every
    listed pod has the excluded kind, which holds in particular of pods
    without owner references. *)
Theorem owner_filter_length :
  forall (podList : list Pod) (kind : string),
    length (filterOutPodByOwnerReferenceKind podList kind) =
      total (List.map (fun p => length (differing_refs p kind)) podList) /\
    (filterOutPodByOwnerReferenceKind podList kind = [] <->
     forall p r, In p podList ->
                 In r (OwnerReferences (pod_ObjectMeta p)) -> Kind r = kind).
Proof.
  intros podList kind. split; [apply length_owner_filter|].
  apply owner_filter_nil.
Qed.

(** X5. When no listed pod has more than one owner reference,
    [filterOutPodByOwnerReferenceKind] is a plain filter: it keeps, in
    order and once each, the pods whose owner is of another kind, and an
    input without repetition gives an output without repetition. *)
Theorem owner_filter_single_owner :
  forall (podList : list Pod) (kind : string),
    Forall (fun p => length (OwnerReferences (pod_ObjectMeta p)) <= 1) podList ->
    filterOutPodByOwnerReferenceKind podList kind
      = List.filter (has_other_owner kind) podList /\
    length (filterOutPodByOwnerReferenceKind podList kind) <= length podList /\
    (NoDup podList -> NoDup (filterOutPodByOwnerReferenceKind podList kind)).
Proof.
  intros podList kind Hone.
  pose proof (owner_filter_single podList kind Hone) as Heq.
  split; [done|]. rewrite Heq. split; [apply List.filter_length_le|].
  intros Hnd. apply NoDup_ListNoDup, List.NoDup_filter. by apply NoDup_ListNoDup.
Qed.

End FilterViewsFacts.

(** ** More theorems about PodEvictor *)

Module EvictPodViewsFacts.
Import EvictPod EvictPodViews.

Lemma is_throttled_spec resp : is_throttled resp = true <-> throttling resp.
Proof.
  unfold is_throttled, throttling. by destruct (classify resp).
Qed.

Lemma shape_leaves api stop pod k r tr :
  run_shape api stop pod k r tr -> exists n, k <= n /\ leaves api stop n = true.
Proof.
  induction 1 as [k Hk|k Hk Hs|k r tr Hk Hs _ (n & Hn & IH)].
  - exists k. split; [lia|]. unfold leaves, is_throttled.
    by destruct (classify (api k)).
  - exists k. split; [lia|]. unfold leaves. rewrite Hs. apply orb_true_r.
  - exists n. split; [lia|done].
Qed.

Lemma loop_returns api stop pod : forall d k fuel,
  leaves api stop (k + d) = true -> d < fuel ->
  exists r tr,
    evictPod_loop fuel api stop pod k = Some (r, tr) /\ attempts tr <= d + 1.
Proof.
  induction d as [|d IH]; intros k fuel Hl Hf.
  - destruct fuel as [|fuel]; [lia|]. rewrite Nat.add_0_r in Hl.
    unfold leaves, is_throttled in Hl. cbn [evictPod_loop].
    destruct (classify (api k)); cbn in *;
      try (eexists _, _; split; [reflexivity|cbn; lia]).
    rewrite Hl. eexists _, _. split; [reflexivity|cbn; lia].
  - destruct fuel as [|fuel]; [lia|]. cbn [evictPod_loop].
    destruct (classify (api k));
      try (eexists _, _; split; [reflexivity|cbn; lia]).
    destruct (stop k); [eexists _, _; split; [reflexivity|cbn; lia]|].
    destruct (IH (S k) fuel) as (r & tr & -> & Hat); [|lia|].
    + by replace (S k + d) with (k + S d) by lia.
    + eexists _, _. split; [reflexivity|].
      unfold attempts in *. cbn. lia.
Qed.

Lemma loop_more_fuel api stop pod : forall fuel fuel' k x,
  evictPod_loop fuel api stop pod k = Some x -> fuel <= fuel' ->
  evictPod_loop fuel' api stop pod k = Some x.
Proof.
  induction fuel as [|fuel IH]; intros fuel' k x Hrun Hle; [done|].
  destruct fuel' as [|fuel']; [lia|]. cbn [evictPod_loop] in *.
  destruct (classify (api k)); try done.
  destruct (stop k); [done|].
  destruct (evictPod_loop fuel api stop pod (S k)) as [[r tr]|] eqn:E; [|done].
  rewrite (IH fuel' (S k) (r, tr) E); [done|lia].
Qed.

(** X6. [evictPod] returns exactly when some attempt gets a response that
    is not a throttling one, or finds the stop signal at its poll.  It then
    returns within that many attempts, and what it returns and does is the
    same for every bound on the unfolding of the loop that lets it
    return. *)
Theorem evictPod_returns_iff :
  forall (api : nat -> error) (stop : nat -> bool) (pod : Pod),
    ((exists fuel r tr, evictPod fuel api stop pod = Some (r, tr)) <->
     (exists n, leaves api stop n = true)) /\
    (forall n fuel,
       leaves api stop n = true -> n < fuel ->
       exists r tr,
         evictPod fuel api stop pod = Some (r, tr) /\ attempts tr <= n + 1) /\
    (forall fuel1 fuel2 x y,
       evictPod fuel1 api stop pod = Some x ->
       evictPod fuel2 api stop pod = Some y -> x = y).
Proof.
  intros api stop pod. split; [split|split].
  - intros (fuel & r & tr & Hrun).
    apply EvictPodFacts.loop_shape, shape_leaves in Hrun as (n & _ & Hn).
    by exists n.
  - intros (n & Hn).
    destruct (loop_returns api stop pod n 0 (S n)) as (r & tr & Hrun & _);
      [done|lia|].
    by exists (S n), r, tr.
  - intros n fuel Hn Hf. by apply (loop_returns api stop pod n 0 fuel).
  - intros fuel1 fuel2 x y H1 H2. unfold evictPod in *.
    apply (loop_more_fuel _ _ _ _ (Nat.max fuel1 fuel2)) in H1; [|lia].
    apply (loop_more_fuel _ _ _ _ (Nat.max fuel1 fuel2)) in H2; [|lia].
    congruence.
Qed.

Lemma shape_events api stop pod k r tr :
  run_shape api stop pod k r tr -> Forall (event_of pod) tr.
Proof.
  induction 1; repeat (apply Forall_cons; split; [by cbn|]);
    first [done | apply Forall_nil].
Qed.

Lemma shape_sleeps api stop pod k r tr :
  run_shape api stop pod k r tr ->
  sleeps tr = repeat 5 (length (List.filter is_throttled (responses tr))) /\
  polls tr = List.map stop (seq k (length (sleeps tr))) /\
  attempts tr = length (sleeps tr) + (if saw_stop tr then 0 else 1) /\
  (forall i, k <= i < k + attempts tr - 1 ->
             is_throttled (api i) = true /\ stop i = false).
Proof.
  induction 1 as [k Hk|k Hk Hs|k r tr Hk Hs _ (IH1 & IH2 & IH3 & IH4)].
  - cbn. unfold is_throttled. split; [|split; [done|split; [done|]]].
    + by destruct (classify (api k)).
    + intros i Hi. unfold attempts in Hi. cbn in Hi. lia.
  - cbn. unfold is_throttled. rewrite Hk, Hs.
    split; [done|]. split; [done|]. split; [done|].
    intros i Hi. unfold attempts in Hi. cbn in Hi. lia.
  - cbn [sleeps responses polls call_of]. unfold saw_stop in *.
    cbn [List.filter polls existsb orb length]. unfold is_throttled at 1.
    rewrite Hk. cbn [List.filter length repeat seq List.map].
    rewrite <- IH1, <- IH2, Hs. split; [done|]. split; [done|].
    unfold attempts in *. cbn [List.filter is_call call_of length].
    cbn [existsb orb]. split; [lia|].
    intros i Hi. destruct (decide (i = k)) as [->|Hne].
    + unfold is_throttled. by rewrite Hk.
    + apply IH4. cbn in Hi. lia.
Qed.

Lemma shape_trace api stop pod k r tr :
  run_shape api stop pod k r tr ->
  exists n,
    attempts tr = n + 1 /\
    (tr = throttled_then pod (List.map api (seq k n)) (api (k + n)) /\
     is_throttled (api (k + n)) = false \/
     tr = throttled_until_stop pod (List.map api (seq k n)) (api (k + n)) /\
     is_throttled (api (k + n)) = true /\ stop (k + n) = true).
Proof.
  induction 1 as [k Hk|k Hk Hs|k r tr Hk Hs _ (n & Hat & IH)].
  - exists 0. rewrite Nat.add_0_r. split; [done|]. left. split; [done|].
    unfold is_throttled. by destruct (classify (api k)).
  - exists 0. rewrite Nat.add_0_r. split; [done|]. right. split; [done|].
    unfold is_throttled. by rewrite Hk.
  - exists (S n). replace (k + S n) with (S k + n) by lia.
    split; [unfold attempts in *; cbn; lia|].
    cbn [seq List.map throttled_then throttled_until_stop].
    destruct IH as [(-> & Hl)|(-> & Hl & Hst)]; [by left|by right].
Qed.

(** X7. In every run of [evictPod] that returns, each call evicts the pod
    it was given, by its namespace and name; every sleep lasts 5 seconds
    and there is one sleep, followed by one poll of the stop channel, for
    each throttling response and none otherwise; every attempt but the
    last was throttled and did not find the stop signal; and the run makes
    one attempt more than it sleeps, unless it ends on the stop signal.
    The order of the events is fixed: the trace is, for each throttled
    attempt, the call, then the sleep, then a poll that does not find the
    stop signal, and it ends with a call whose response is not a
    throttling one, or with a throttled call, its sleep and the poll that
    finds the stop signal. *)
Theorem evictPod_trace_accounting :
  forall (fuel : nat) (api : nat -> error) (stop : nat -> bool) (pod : Pod)
         (r : error) (tr : list event),
    evictPod fuel api stop pod = Some (r, tr) ->
    Forall (event_of pod) tr /\
    responses tr = List.map api (seq 0 (attempts tr)) /\
    sleeps tr = repeat 5 (length (List.filter is_throttled (responses tr))) /\
    polls tr = List.map stop (seq 0 (length (sleeps tr))) /\
    attempts tr = length (sleeps tr) + (if saw_stop tr then 0 else 1) /\
    (forall i, i + 1 < attempts tr ->
               is_throttled (api i) = true /\ stop i = false) /\
    (exists n,
       attempts tr = n + 1 /\
       (tr = throttled_then pod (List.map api (seq 0 n)) (api n) /\
        is_throttled (api n) = false \/
        tr = throttled_until_stop pod (List.map api (seq 0 n)) (api n) /\
        is_throttled (api n) = true /\ stop n = true)).
Proof.
  intros fuel api stop pod r tr Hrun.
  apply EvictPodFacts.loop_shape in Hrun.
  destruct (shape_sleeps _ _ _ _ _ _ Hrun) as (H1 & H2 & H3 & H4).
  split; [by eapply shape_events|].
  split; [by eapply EvictPodFacts.shape_responses|].
  split; [done|]. split; [done|]. split; [done|].
  split; [intros i Hi; apply H4; lia|].
  exact (shape_trace _ _ _ _ _ _ Hrun).
Qed.

End EvictPodViewsFacts.

(** ** More theorems about BatchEvictor *)

Module EvictPodsViewsFacts.
Import EvictPod EvictPods EvictPodsViews EvictPodsFacts.

Lemma last_wg_zero ps s :
  inv ps s -> last (wgs s) = Some 0 -> forall b, unfinished b (tasks s) = 0.
Proof.
  intros [Hp He Hs Hl Ht Hb Hw Ho Hpc] Hlast b.
  destruct (decide (S b < length (wgs s))) as [Hold|Hnew]; [by apply Ho|].
  destruct (decide (length (wgs s) <= b)) as [Hbig|Hcur].
  - by apply (unfinished_beyond b (tasks s) (length (wgs s))).
  - rewrite last_lookup in Hlast.
    replace (pred (length (wgs s))) with b in Hlast by lia.
    symmetry. by apply Hw.
Qed.

Lemma ready_closed ps s :
  inv ps s -> Chan.ready (stop s) = Chan.closed (stop s).
Proof.
  intros Hinv. unfold Chan.ready. rewrite (inv_stop ps s Hinv). cbn.
  apply orb_false_r.
Qed.

(** Every step of a run is one of the moves of [transition]. *)
Lemma step_transition ps l s s' :
  inv ps s -> step l s = Next s' -> transition s s'.
Proof.
  intros Hinv Hstep.
  assert (Hfin : forall i t s1,
    tasks s !! i = Some t -> is_finished (t_pc t) = false ->
    finish i t s = Next s1 ->
    exists c, wgs s !! t_batch t = Some (S c) /\
      s1 = set_tasks s (<[t_batch t:=c]> (wgs s))
             (<[i:=set_task_pc t Finished]> (tasks s))).
  { intros i t s1 Hi Hft Hf.
    destruct (finish_ok ps s i t Hinv Hi Hft) as (c & Hc & Hfin).
    exists c. split; [done|]. congruence. }
  destruct l as [| |j resp|j|j]; cbn [step] in Hstep.
  - pose proof Hstep as Hmain. unfold main_step in Hstep.
    destruct (pc s) eqn:Hat.
    + destruct (0 <? numPodsLeft s) eqn:Hleft.
      * apply Nat.ltb_lt in Hleft.
        rewrite (main_step_dispatch ps s Hinv Hat Hleft) in Hmain.
        injection Hmain as <-. rewrite <- (inv_pods ps s Hinv).
        by apply tr_dispatch.
      * apply Nat.ltb_ge in Hleft.
        rewrite deferred_unbuffered in Hstep by apply Hinv.
        injection Hstep as <-. apply tr_done; [done|lia].
    + rewrite (ready_closed ps s Hinv) in Hstep.
      destruct (Chan.closed (stop s)) eqn:Hc.
      * rewrite deferred_unbuffered in Hstep by apply Hinv.
        injection Hstep as <-. by apply tr_stop_seen.
      * injection Hstep as <-. by apply tr_default.
    + destruct (last (wgs s)) as [[|c]|] eqn:Hlast; try done.
      injection Hstep as <-. apply tr_barrier; [done|].
      by apply (last_wg_zero ps).
    + done.
  - destruct (Chan.closed (stop s)) eqn:Hc; [done|].
    injection Hstep as <-. by apply tr_stop_fires.
  - unfold task_step in Hstep.
    destruct (tasks s !! j) as [t|] eqn:Hi; [|done].
    destruct (t_pc t) eqn:Hpc; try done.
    assert (Hft : is_finished (t_pc t) = false) by (by rewrite Hpc).
    destruct (classify resp);
      try (destruct (Hfin j t s' Hi Hft Hstep) as (c & Hc & ->);
           apply tr_finish; [done|by left|done]);
      injection Hstep as <-; apply tr_move; try done; left; eauto.
  - unfold task_step in Hstep.
    destruct (tasks s !! j) as [t|] eqn:Hi; [|done].
    destruct (t_pc t) eqn:Hpc; try done.
    assert (Hft : is_finished (t_pc t) = false) by (by rewrite Hpc).
    destruct (Chan.ready (t_stop t)) eqn:Hr.
    + destruct (Hfin j t s' Hi Hft Hstep) as (c & Hc & ->).
      apply tr_finish; [done|by right|done].
    + injection Hstep as <-. apply tr_move; [done|]. by right.
  - unfold task_step in Hstep.
    destruct (tasks s !! j) as [t|] eqn:Hi; [|done].
    destruct (t_pc t) eqn:Hpc; try done.
    by rewrite (inv_errCh ps s Hinv), send_unbuffered_blocks in Hstep.
Qed.

(** A property that every move keeps holds along every run. *)
Lemma exec_keeps ps (P : state -> Prop) :
  (forall s s', inv ps s -> P s -> transition s s' -> P s') ->
  forall ls s s', inv ps s -> P s -> exec ls s = Next s' -> P s'.
Proof.
  intros Hkeep. induction ls as [|l ls IH]; intros s s' Hinv HP Hexec;
    cbn [exec] in Hexec.
  - by injection Hexec as <-.
  - destruct (step l s) as [s1| |msg] eqn:Hstep; try done.
    apply (IH s1 s'); [by apply (inv_step ps l s)| |done].
    apply (Hkeep s s1); [done|done|]. by apply (step_transition ps l).
Qed.


Lemma send_blocked ps s i : inv ps s -> step (TaskSend i) s = Blocked.
Proof.
  intros Hinv. cbn [step]. unfold task_step.
  destruct (tasks s !! i) as [t|]; [|done].
  destruct (t_pc t); try done.
  by rewrite (inv_errCh ps s Hinv), send_unbuffered_blocks.
Qed.

Lemma exec_no_send ps ls : forall s s',
  inv ps s -> exec ls s = Next s' -> Forall (fun l => is_send l = false) ls.
Proof.
  induction ls as [|l ls IH]; intros s s' Hinv Hexec; [by apply Forall_nil|].
  cbn [exec] in Hexec.
  destruct (step l s) as [s1| |msg] eqn:Hstep; try done.
  apply Forall_cons. split.
  - destruct l; try done. by rewrite (send_blocked ps s i Hinv) in Hstep.
  - apply (IH s1 s'); [by apply (inv_step ps l s)|done].
Qed.

(** X8. Whatever the pods, the responses and the interleaving, a run of
    [evictPods] does not panic, and the send of a failed eviction's error
    on the unbuffered [errCh] never goes through: no schedule that runs
    contains it, the channel stays empty, and so [evictPods] returns nil
    whenever it returns. *)
Theorem evictPods_never_fails :
  forall (ps : list Pod) (ls : list label),
    (forall msg, exec ls (init ps) <> Panic msg) /\
    (forall s,
       exec ls (init ps) = Next s ->
       Forall (fun l => is_send l = false) ls /\
       (forall i, step (TaskSend i) s = Blocked) /\
       Chan.len (errCh s) = 0 /\
       (forall r, pc s = Returned r -> r = None)).
Proof.
  intros ps ls. split.
  - intros msg. apply (exec_no_panic ps), inv_init.
  - intros s Hexec. pose proof (reach_inv ps ls s Hexec) as Hinv.
    split; [by apply (exec_no_send ps ls (init ps) s (inv_init ps))|].
    split; [intros i; by apply (send_blocked ps)|].
    split; [by rewrite (inv_errCh ps s Hinv)|].
    intros r Hr. pose proof (inv_pc ps s Hinv) as Hpc. rewrite Hr in Hpc.
    apply Hpc.
Qed.

Lemma stuck_unfinished i e s :
  stuck_at i e s -> exists b, 1 <= unfinished b (tasks s).
Proof.
  intros (t & Hi & Hpc). exists (t_batch t).
  apply (unfinished_pos _ i); [done|]. by rewrite Hpc.
Qed.

Lemma stuck_not_at_loop ps i e s : inv ps s -> stuck_at i e s -> pc s <> AtLoop.
Proof.
  intros Hinv Hst Hat. destruct (stuck_unfinished i e s Hst) as (b & Hb).
  pose proof (inv_pc ps s Hinv) as Hpc. rewrite Hat in Hpc.
  destruct Hpc as (_ & Hzero & _). specialize (Hzero b). lia.
Qed.

(** One move out of a state in which a goroutine stands at the send. *)
Lemma stuck_move ps i e s s' :
  inv ps s -> stuck_at i e s -> transition s s' ->
  stuck_at i e s' /\
  (forall t t', tasks s !! i = Some t -> tasks s' !! i = Some t' ->
                t_pod t' = t_pod t) /\
  dispatched s' = dispatched s /\
  (Chan.closed (stop s) = true -> Chan.closed (stop s') = true) /\
  (pc s' = pc s \/
   pc s = AtSelect /\
   (pc s' = AtWait \/
    pc s' = Returned None /\ Chan.closed (stop s') = true)).
Proof.
  intros Hinv Hst Htr.
  pose proof (stuck_not_at_loop ps i e s Hinv Hst) as Hloop.
  destruct (stuck_unfinished i e s Hst) as (b0 & Hb0).
  destruct Hst as (t & Hi & Hpc).
  destruct Htr as [Hat Hl|Hat Hl|Hat Hc|Hat Hc|Hat Hz|Hc|j u p Hj Hk|j u c Hj Hk Hw];
    try done.
  - split; [|split; [|split; [done|split; [done|]]]].
    + exists (close_stopCh (length (wgs s)) t). state_simpl.
      rewrite lookup_map, Hi. split; [done|].
      by destruct (close_stopCh_same (length (wgs s)) t) as (_ & _ & ->).
    + intros t0 t' H0 H'. state_simpl_in H'. rewrite lookup_map, H0 in H'.
      injection H' as <-.
      by destruct (close_stopCh_same (length (wgs s)) t0) as (-> & _).
    + right. split; [done|]. right. done.
  - split; [by exists t|]. split; [|split; [done|split; [done|]]].
    + intros t0 t' H0 H'. state_simpl_in H'. congruence.
    + right. split; [done|]. by left.
  - specialize (Hz b0). lia.
  - split; [by exists t|]. split; [|split; [done|split; [done|by left]]].
    intros t0 t' H0 H'. cbn in H'. congruence.
  - assert (Hne : j <> i).
    { intros ->. rewrite Hi in Hj. injection Hj as <-.
      destruct Hk as [[Hk _]|[Hk _]]; congruence. }
    split; [|split; [|split; [done|split; [done|by left]]]].
    + exists t. state_simpl. by rewrite list_lookup_insert_ne.
    + intros t0 t' H0 H'. state_simpl_in H'.
      rewrite list_lookup_insert_ne in H' by done. congruence.
  - assert (Hne : j <> i).
    { intros ->. rewrite Hi in Hj. injection Hj as <-.
      destruct Hk as [Hk|[Hk _]]; congruence. }
    split; [|split; [|split; [done|split; [done|by left]]]].
    + exists t. state_simpl. by rewrite list_lookup_insert_ne.
    + intros t0 t' H0 H'. state_simpl_in H'.
      rewrite list_lookup_insert_ne in H' by done. congruence.
Qed.

(** X9. Once an eviction has failed, its goroutine stands at the send of
    the error for ever, whatever runs afterwards: it never calls
    [wg.Done].  From then on [evictPods] starts no further batch; if it
    waits at the barrier it waits for ever, and it returns only through
    the stop signal found at the select of the batch. *)
Theorem evictPods_fatal_error_stalls :
  forall (ps : list Pod) (ls : list label) (s : state) (i : nat) (e : Err),
    exec ls (init ps) = Next s ->
    stuck_at i e s ->
    pc s <> AtLoop /\
    forall (ls' : list label) (s' : state),
      exec ls' s = Next s' ->
      stuck_at i e s' /\
      dispatched s' = dispatched s /\
      (pc s = AtWait -> pc s' = AtWait) /\
      (forall r, pc s' = Returned r ->
         pc s = Returned r \/
         pc s = AtSelect /\ r = None /\ Chan.closed (stop s') = true).
Proof.
  intros ps ls s i e Hexec Hst.
  pose proof (reach_inv ps ls s Hexec) as Hinv.
  split; [by apply (stuck_not_at_loop ps i e)|].
  intros ls' s' Hexec'.
  pose (P := fun s' : state =>
    stuck_at i e s' /\ dispatched s' = dispatched s /\
    (pc s = AtWait -> pc s' = AtWait) /\
    (pc s' = AtSelect -> pc s = AtSelect) /\
    (forall r, pc s' = Returned r ->
       pc s = Returned r \/
       pc s = AtSelect /\ r = None /\ Chan.closed (stop s') = true)).
  assert (HP : P s').
  { apply (exec_keeps ps P) with (ls := ls') (s := s); [|done| |done].
    - clear s' Hexec'. intros s1 s2 Hinv1 (Hst1 & Hd1 & Hw1 & Hs1 & Hr1) Htr.
      destruct (stuck_move ps i e s1 s2 Hinv1 Hst1 Htr)
        as (Hst2 & _ & Hd2 & Hc2 & Hpc2).
      split; [done|]. split; [congruence|].
      split; [|split].
      + intros Hw. specialize (Hw1 Hw).
        destruct Hpc2 as [Hpc2|(Hpc2 & _)]; congruence.
      + intros Hs. destruct Hpc2 as [Hpc2|(Hpc2 & [Hpc3|(Hpc3 & _)])];
          [apply Hs1|..]; congruence.
      + intros r Hr. destruct Hpc2 as [Hpc2|(Hpc2 & [Hpc3|(Hpc3 & Hcl)])].
        * rewrite Hpc2 in Hr. destruct (Hr1 r Hr) as [?|(? & ? & ?)];
            [by left|]. right. auto.
        * congruence.
        * right. rewrite Hpc3 in Hr. injection Hr as <-. auto.
    - split; [done|]. split; [done|]. split; [done|]. split; [done|].
      intros r Hr. by left. }
  destruct HP as (H1 & H2 & H3 & _ & H5). done.
Qed.

Lemma stop_closed_late_ext s s' t :
  has_returned s' = has_returned s -> length (wgs s') = length (wgs s) ->
  stop s' = stop s ->
  stop_closed_late s t -> stop_closed_late s' t.
Proof.
  unfold stop_closed_late. intros -> -> ->. done.
Qed.

Lemma stop_closed_late_open s t :
  has_returned s = false -> stop_closed_late s t ->
  Chan.buf (t_stop t) = [] /\ Chan.closed (t_stop t) = false.
Proof.
  intros Hnot (Hbuf & Hcl). split; [done|].
  destruct (Chan.closed (t_stop t)); [|done].
  destruct Hcl as (Hret & _); [done|]. congruence.
Qed.

Lemma stop_late_keeps ps s s' :
  inv ps s -> Forall (stop_closed_late s) (tasks s) -> transition s s' ->
  Forall (stop_closed_late s') (tasks s').
Proof.
  intros Hinv Hall Htr.
  assert (Hopen : has_returned s = false ->
    Forall (fun t => Chan.buf (t_stop t) = [] /\
                     Chan.closed (t_stop t) = false) (tasks s)).
  { intros Hnot. eapply Forall_impl; [exact Hall|].
    intros t. by apply stop_closed_late_open. }
  assert (Hfresh : forall s1, has_returned s = false ->
    Forall (stop_closed_late s1) (tasks s)).
  { intros s1 Hnot. eapply Forall_impl; [exact (Hopen Hnot)|].
    intros t (Hb & Hc). split; [done|]. congruence. }
  destruct Htr as [Hat Hl|Hat Hl|Hat Hc|Hat Hc|Hat Hz|Hc|j u p Hj Hk|j u c Hj Hk Hw];
    state_simpl.
  - apply Forall_app. split.
    + apply Hfresh. unfold has_returned. by rewrite Hat.
    + apply Forall_forall. intros t Hin.
      apply list_elem_of_In, List.in_map_iff in Hin as (q & <- & _).
      split; [done|]. cbn. done.
  - apply Hfresh. unfold has_returned. by rewrite Hat.
  - apply Forall_forall. intros t Hin.
    apply list_elem_of_In, List.in_map_iff in Hin as (t0 & <- & Hin).
    assert (Hnot : has_returned s = false)
      by (unfold has_returned; by rewrite Hat).
    pose proof (Hopen Hnot) as Ho. rewrite Forall_forall in Ho.
    apply list_elem_of_In in Hin. destruct (Ho t0 Hin) as (Hb & Hcl).
    unfold close_stopCh.
    destruct (S (t_batch t0) =? length (wgs s)) eqn:E.
    + split; [done|]. intros _. apply Nat.eqb_eq in E. done.
    + split; [done|]. congruence.
  - apply Hfresh. unfold has_returned. by rewrite Hat.
  - apply Hfresh. unfold has_returned. by rewrite Hat.
  - eapply Forall_impl; [exact Hall|]. intros t (Hb & Hcl).
    split; [done|]. intros Ht. destruct (Hcl Ht) as (? & ? & ?). done.
  - apply Forall_insert.
    + eapply Forall_impl; [exact Hall|]. intros t.
      by apply stop_closed_late_ext.
    + rewrite Forall_forall in Hall.
      apply list_elem_of_lookup_2, Hall in Hj. exact Hj.
  - apply Forall_insert.
    + eapply Forall_impl; [exact Hall|]. intros t.
      apply stop_closed_late_ext; [done| |done]. cbn. by rewrite length_insert.
    + rewrite Forall_forall in Hall.
      apply list_elem_of_lookup_2, Hall in Hj.
      destruct Hj as (Hb & Hcl). split; [done|]. cbn.
      by rewrite length_insert.
Qed.

Lemma stop_late_reach ps ls s :
  exec ls (init ps) = Next s -> Forall (stop_closed_late s) (tasks s).
Proof.
  intros Hexec.
  apply (exec_keeps ps (fun s => Forall (stop_closed_late s) (tasks s)))
    with (ls := ls) (s := init ps); [|apply inv_init|by apply Forall_nil|done].
  intros s1 s2. apply stop_late_keeps.
Qed.

(** X10. The stop channel that [evictPods] hands to the goroutine of a pod
    is closed at one place only, the return of lines 402-406, and only for
    the batch that was running then.  So as long as [evictPods] has not
    returned, no goroutine finds its stop signal: a throttled eviction
    that wakes up goes back to calling [Evict]. *)
Theorem evictPods_stop_channels :
  forall (ps : list Pod) (ls : list label) (s : state),
    exec ls (init ps) = Next s ->
    Forall (fun t =>
              Chan.ready (t_stop t) = true ->
              has_returned s = true /\
              S (t_batch t) = length (dispatched s) /\
              Chan.closed (stop s) = true)
           (tasks s) /\
    (has_returned s = false ->
     forall i t,
       tasks s !! i = Some t -> t_pc t = AtSleep ->
       step (TaskWake i) s = Next (move i t AtEvict s)).
Proof.
  intros ps ls s Hexec.
  pose proof (reach_inv ps ls s Hexec) as Hinv.
  pose proof (stop_late_reach ps ls s Hexec) as Hall.
  split.
  - eapply Forall_impl; [exact Hall|]. intros t (Hb & Hcl) Hready.
    unfold Chan.ready in Hready. rewrite Hb in Hready. cbn in Hready.
    rewrite orb_false_r in Hready.
    rewrite (inv_len ps s Hinv). by apply Hcl.
  - intros Hnot i t Hi Hpc. cbn [step]. unfold task_step. rewrite Hi, Hpc.
    rewrite Forall_forall in Hall.
    apply list_elem_of_lookup_2, Hall in Hi.
    destruct (stop_closed_late_open s t Hnot Hi) as (Hb & Hcl).
    unfold Chan.ready. by rewrite Hb, Hcl.
Qed.

Lemma tag_batches_pods d : forall b,
  List.map snd (tag_batches b d) = concat d.
Proof.
  induction d as [|batch d IH]; intros b; cbn; [done|].
  rewrite List.map_app, IH, List.map_map. cbn. by rewrite List.map_id.
Qed.

Lemma tasks_concat ps s :
  inv ps s -> List.map t_pod (tasks s) = concat (dispatched s).
Proof.
  intros Hinv. rewrite <- (tag_batches_pods (dispatched s) 0).
  rewrite <- (inv_tags ps s Hinv), List.map_map. done.
Qed.

Lemma tasks_prefix ps s :
  inv ps s ->
  List.map t_pod (tasks s) = take (length (tasks s)) ps.
Proof.
  intros Hinv. destruct (inv_prefix ps s Hinv) as (rest & Hrest).
  pose proof (plan_concat ps) as Hps. rewrite <- Hrest, concat_app in Hps.
  rewrite <- (tasks_concat ps s Hinv) in Hps.
  rewrite <- Hps, <- (length_map t_pod (tasks s)).
  by rewrite take_app_length.
Qed.

Lemma quiet_keeps ps s s' :
  inv ps s -> quiet_return s -> transition s s' -> quiet_return s'.
Proof.
  intros Hinv Hq Htr. unfold quiet_return in *.
  destruct Htr as [Hat Hl|Hat Hl|Hat Hc|Hat Hc|Hat Hz|Hc|j u p Hj Hk|j u c Hj Hk Hw];
    unfold has_returned in *; state_simpl; try done.
  - intros _ _. apply unfinished_all_finished.
    pose proof (inv_pc ps s Hinv) as Hpc. rewrite Hat in Hpc. apply Hpc.
  - cbn. congruence.
  - intros Hr Hc. specialize (Hq Hr Hc). rewrite Forall_forall in Hq.
    apply list_elem_of_lookup_2, Hq in Hj.
    destruct Hk as [[Hk _]|[Hk _]]; congruence.
  - intros Hr Hc. specialize (Hq Hr Hc). rewrite Forall_forall in Hq.
    apply list_elem_of_lookup_2, Hq in Hj.
    destruct Hk as [Hk|[Hk _]]; congruence.
Qed.

(** X11. [evictPods] starts one goroutine for each pod of its argument, in
    the order of the argument: at every moment the pods of the goroutines
    started so far are an initial part of the list, so distinct pods never
    share a goroutine's work.  When it returns without the stop signal,
    there is a goroutine for every pod and each has passed [wg.Done]. *)
Theorem evictPods_one_goroutine_per_pod :
  forall (ps : list Pod) (ls : list label) (s : state),
    exec ls (init ps) = Next s ->
    List.map t_pod (tasks s) = take (length (tasks s)) ps /\
    List.map t_pod (tasks s) = concat (dispatched s) /\
    length (tasks s) <= length ps /\
    (NoDup ps -> NoDup (List.map t_pod (tasks s))) /\
    (has_returned s = true -> Chan.closed (stop s) = false ->
     List.map t_pod (tasks s) = ps /\
     Forall (fun t => t_pc t = Finished) (tasks s)).
Proof.
  intros ps ls s Hexec.
  pose proof (reach_inv ps ls s Hexec) as Hinv.
  pose proof (tasks_prefix ps s Hinv) as Hpre.
  split; [done|]. split; [by apply (tasks_concat ps)|].
  split; [|split].
  - apply (f_equal length) in Hpre.
    rewrite length_map, length_take in Hpre. lia.
  - intros Hnd. rewrite Hpre. eapply sublist_NoDup; [exact Hnd|apply sublist_take].
  - intros Hret Hopen. split.
    + rewrite (tasks_concat ps s Hinv).
      pose proof (inv_pc ps s Hinv) as Hpc. unfold has_returned in Hret.
      destruct (pc s); try done. destruct Hpc as (_ & _ & Hfull).
      rewrite (Hfull Hopen). apply plan_concat.
    + assert (Hq : quiet_return s); [|by apply Hq].
      apply (exec_keeps ps quiet_return) with (ls := ls) (s := init ps);
        [apply quiet_keeps|apply inv_init| |done].
      intros Hr. done.
Qed.


(** A step of the goroutine [i] touches nothing but that goroutine and
    the counter of its batch. *)
Lemma task_step_frame l i s s' :
  task_step l i s = Next s' ->
  pc s' = pc s /\ dispatched s' = dispatched s /\ stop s' = stop s /\
  forall j, j <> i -> tasks s' !! j = tasks s !! j.
Proof.
  unfold task_step. destruct (tasks s !! i) as [t|]; [|done].
  assert (Hfin : forall s0 s1, finish i t s0 = Next s1 ->
    pc s1 = pc s0 /\ dispatched s1 = dispatched s0 /\ stop s1 = stop s0 /\
    forall j, j <> i -> tasks s1 !! j = tasks s0 !! j).
  { intros s0 s1. unfold finish. destruct (wg_Done _ _); [|done].
    intros [= <-]. state_simpl. split; [done|]. split; [done|].
    split; [done|]. intros j Hj. by rewrite list_lookup_insert_ne. }
  assert (Hmove : forall p,
    pc (move i t p s) = pc s /\ dispatched (move i t p s) = dispatched s /\
    stop (move i t p s) = stop s /\
    forall j, j <> i -> tasks (move i t p s) !! j = tasks s !! j).
  { intros p. state_simpl. split; [done|]. split; [done|]. split; [done|].
    intros j Hj. by rewrite list_lookup_insert_ne. }
  destruct l as [| |j resp|j|j], (t_pc t); try done.
  - destruct (classify resp); try apply Hfin; intros [= <-]; apply Hmove.
  - destruct (Chan.ready (t_stop t)); [apply Hfin|].
    intros [= <-]. apply Hmove.
  - destruct (Chan.send (errCh s) e) as [c|]; [|done].
    intros Hf. apply Hfin in Hf. exact Hf.
Qed.

Lemma exec_trace_frame i tr : forall s s',
  exec (schedule_of_trace i tr) s = Next s' ->
  pc s' = pc s /\ dispatched s' = dispatched s /\ stop s' = stop s /\
  forall j, j <> i -> tasks s' !! j = tasks s !! j.
Proof.
  induction tr as [|ev tr IH]; intros s s' Hexec.
  - cbn in Hexec. by injection Hexec as <-.
  - destruct ev as [ns n resp|d|b]; cbn [schedule_of_trace exec step] in Hexec;
      [|by apply IH|].
    + destruct (task_step (TaskEvict i resp) i s) as [s1| |] eqn:Hstep;
        try done.
      destruct (task_step_frame _ _ _ _ Hstep) as (H1 & H2 & H3 & H4).
      destruct (IH s1 s' Hexec) as (H1' & H2' & H3' & H4').
      split; [congruence|]. split; [congruence|]. split; [congruence|].
      intros j Hj. rewrite H4' by done. by apply H4.
    + destruct (task_step (TaskWake i) i s) as [s1| |] eqn:Hstep; try done.
      destruct (task_step_frame _ _ _ _ Hstep) as (H1 & H2 & H3 & H4).
      destruct (IH s1 s' Hexec) as (H1' & H2' & H3' & H4').
      split; [congruence|]. split; [congruence|]. split; [congruence|].
      intros j Hj. rewrite H4' by done. by apply H4.
Qed.

(** X12. The goroutine that [evictPods] starts for a pod does what
    [evictPod] does on that pod with the goroutine's stop channel: every
    run of [evictPod] that returns can be followed by the goroutine, call
    by call and poll by poll.  It ends past [wg.Done] when [evictPod]
    returned nil and at the send of line 395 when it returned an error,
    and the run leaves the loop of [evictPods] and the other goroutines
    where they were. *)
Theorem goroutine_runs_evictPod :
  forall (ps : list Pod) (ls : list label) (s : state) (i : nat) (t : task)
         (fuel : nat) (api : nat -> error) (r : error) (tr : list event),
    exec ls (init ps) = Next s ->
    tasks s !! i = Some t -> t_pc t = AtEvict ->
    evictPod fuel api (fun _ => Chan.ready (t_stop t)) (t_pod t)
      = Some (r, tr) ->
    exists s' t',
      exec (schedule_of_trace i tr) s = Next s' /\
      tasks s' !! i = Some t' /\
      t_pod t' = t_pod t /\ t_stop t' = t_stop t /\ t_pc t' = pc_after r /\
      pc s' = pc s /\ dispatched s' = dispatched s /\ stop s' = stop s /\
      (forall j, j <> i -> tasks s' !! j = tasks s !! j).
Proof.
  intros ps ls s i t fuel api r tr Hexec Hi Hpc Hrun.
  pose proof (reach_inv ps ls s Hexec) as Hinv.
  destruct (task_replays_evictPod ps api i fuel 0 s t r tr Hinv Hi Hpc Hrun)
    as (s' & t' & Hex & _ & Hi' & Hpod & Hstop & Hpc').
  destruct (exec_trace_frame i tr s s' Hex) as (H1 & H2 & H3 & H4).
  exists s', t'. done.
Qed.


(** *** Runs that go on to the return *)

Lemma batch_open_keeps ps s s' :
  inv ps s -> batch_open s -> transition s s' -> batch_open s'.
Proof.
  intros Hinv Ho Htr. unfold batch_open in *.
  destruct Htr as [Hat Hl|Hat Hl|Hat Hc|Hat Hc|Hat Hz|Hc|j u p Hj Hk|j u c Hj Hk Hw];
    state_simpl; try done.
  - by destruct (wgs s).
  - by rewrite Hat in Ho.
  - destruct (pc s); try done;
      intros Hnil; apply Ho; apply (f_equal length) in Hnil;
      rewrite length_insert in Hnil; by destruct (wgs s).
Qed.

Lemma batch_open_reach ps ls s : exec ls (init ps) = Next s -> batch_open s.
Proof.
  intros Hexec.
  apply (exec_keeps ps batch_open) with (ls := ls) (s := init ps);
    [apply batch_open_keeps|apply inv_init|done|done].
Qed.

Lemma exec_frame_trans (s s1 s2 : state) i :
  (pc s1 = pc s /\ dispatched s1 = dispatched s /\ stop s1 = stop s /\
   forall j, j <> i -> tasks s1 !! j = tasks s !! j) ->
  (pc s2 = pc s1 /\ dispatched s2 = dispatched s1 /\ stop s2 = stop s1 /\
   forall j, j <> i -> tasks s2 !! j = tasks s1 !! j) ->
  pc s2 = pc s /\ dispatched s2 = dispatched s /\ stop s2 = stop s /\
  forall j, j <> i -> tasks s2 !! j = tasks s !! j.
Proof.
  intros (H1 & H2 & H3 & H4) (H1' & H2' & H3' & H4').
  split; [congruence|]. split; [congruence|]. split; [congruence|].
  intros j Hj. rewrite H4' by done. by apply H4.
Qed.

(** A goroutine that calls [Evict] and is answered without error passes
    [wg.Done]; so does one that wakes up and finds its stop channel
    ready. *)
Lemma finish_step ps s i t l :
  inv ps s -> tasks s !! i = Some t ->
  l = TaskEvict i None /\ t_pc t = AtEvict \/
  l = TaskWake i /\ t_pc t = AtSleep /\ Chan.ready (t_stop t) = true ->
  exists s',
    step l s = Next s' /\ tasks s' !! i = Some (set_task_pc t Finished).
Proof.
  intros Hinv Hi Hl.
  assert (Hft : is_finished (t_pc t) = false).
  { destruct Hl as [(_ & Hpc)|(_ & Hpc & _)]; by rewrite Hpc. }
  destruct (finish_ok ps s i t Hinv Hi Hft) as (c & Hc & Hfin).
  eexists. split.
  - destruct Hl as [(-> & Hpc)|(-> & Hpc & Hr)]; cbn [step]; unfold task_step;
      rewrite Hi, Hpc; [cbn [classify]; exact Hfin|rewrite Hr; exact Hfin].
  - state_simpl. apply list_lookup_insert_eq. by apply lookup_lt_Some in Hi.
Qed.

(** Every goroutine that does not stand at the send can be run to the
    end, without a move of anything else. *)
Lemma finish_task ps s i t :
  inv ps s -> tasks s !! i = Some t -> (forall e, t_pc t <> AtSend e) ->
  exists ls' s',
    exec ls' s = Next s' /\
    (exists t', tasks s' !! i = Some t' /\ t_pc t' = Finished) /\
    pc s' = pc s /\ dispatched s' = dispatched s /\ stop s' = stop s /\
    forall j, j <> i -> tasks s' !! j = tasks s !! j.
Proof.
  intros Hinv Hi Hns.
  assert (Hone : forall s0 t0 l,
    inv ps s0 -> tasks s0 !! i = Some t0 ->
    l = TaskEvict i None /\ t_pc t0 = AtEvict \/
    l = TaskWake i /\ t_pc t0 = AtSleep /\ Chan.ready (t_stop t0) = true ->
    exists s',
      exec [l] s0 = Next s' /\
      (exists t', tasks s' !! i = Some t' /\ t_pc t' = Finished) /\
      pc s' = pc s0 /\ dispatched s' = dispatched s0 /\ stop s' = stop s0 /\
      forall j, j <> i -> tasks s' !! j = tasks s0 !! j).
  { intros s0 t0 l Hinv0 Hi0 Hl.
    destruct (finish_step ps s0 i t0 l Hinv0 Hi0 Hl) as (s' & Hstep & Hi').
    exists s'. split; [cbn [exec]; by rewrite Hstep|].
    split; [by exists (set_task_pc t0 Finished)|].
    apply (task_step_frame l i).
    by destruct Hl as [(-> & _)|(-> & _)]. }
  destruct (t_pc t) eqn:Hpc.
  - destruct (Hone s t (TaskEvict i None) Hinv Hi) as (s' & H); [by left|].
    by exists [TaskEvict i None], s'.
  - destruct (Chan.ready (t_stop t)) eqn:Hr.
    + destruct (Hone s t (TaskWake i) Hinv Hi) as (s' & H); [by right|].
      by exists [TaskWake i], s'.
    + assert (Hwake : step (TaskWake i) s = Next (move i t AtEvict s)).
      { cbn [step]. unfold task_step. by rewrite Hi, Hpc, Hr. }
      pose proof (inv_step ps _ _ _ Hinv Hwake) as Hinv1.
      assert (Hi1 : tasks (move i t AtEvict s) !! i
                    = Some (set_task_pc t AtEvict)).
      { state_simpl. apply list_lookup_insert_eq.
        by apply lookup_lt_Some in Hi. }
      destruct (Hone _ _ (TaskEvict i None) Hinv1 Hi1)
        as (s' & Hex & Hfin & Hframe); [by left|].
      exists [TaskWake i; TaskEvict i None], s'.
      split; [cbn [exec] in *; by rewrite Hwake|]. split; [done|].
      apply (exec_frame_trans s (move i t AtEvict s) s' i); [|done].
      apply (task_step_frame (TaskWake i) i). exact Hwake.
  - by destruct (Hns e).
  - exists [], s. split; [done|]. split; [by exists t|]. done.
Qed.

Lemma finish_first ps s :
  inv ps s -> (forall i e, ~ stuck_at i e s) ->
  forall k,
  exists ls' s',
    exec ls' s = Next s' /\ inv ps s' /\
    pc s' = pc s /\ stop s' = stop s /\
    (forall j t, j < k -> tasks s' !! j = Some t -> t_pc t = Finished) /\
    (forall j, k <= j -> tasks s' !! j = tasks s !! j).
Proof.
  intros Hinv Hns. induction k as [|k (ls1 & s1 & Hex1 & Hinv1 & Hpc1 & Hst1 & Hlow & Hhigh)].
  - exists [], s. split; [done|]. split; [done|]. split; [done|].
    split; [done|]. split; [intros j t Hj; lia|done].
  - destruct (tasks s1 !! k) as [t|] eqn:Hk.
    + assert (Hnot : forall e, t_pc t <> AtSend e).
      { intros e He. apply (Hns k e). exists t.
        split; [|done]. rewrite <- Hhigh by lia. done. }
      destruct (finish_task ps s1 k t Hinv1 Hk Hnot)
        as (ls2 & s2 & Hex2 & (t' & Hk' & Hfin) & Hpc2 & _ & Hst2 & Hoth).
      exists (ls1 ++ ls2), s2.
      split; [by rewrite exec_app, Hex1|].
      split; [by apply (inv_exec ps ls2 s1)|].
      split; [congruence|]. split; [congruence|]. split.
      * intros j u Hj Hu. destruct (decide (j = k)) as [->|Hne].
        -- congruence.
        -- rewrite Hoth in Hu by done. apply (Hlow j); [lia|done].
      * intros j Hj. rewrite Hoth by lia. apply Hhigh. lia.
    + exists ls1, s1. split; [done|]. split; [done|]. split; [done|].
      split; [done|]. split.
      * intros j u Hj Hu. destruct (decide (j = k)) as [->|Hne].
        -- congruence.
        -- apply (Hlow j); [lia|done].
      * intros j Hj. apply Hhigh. lia.
Qed.

Lemma finish_all ps s :
  inv ps s -> (forall i e, ~ stuck_at i e s) ->
  exists ls' s',
    exec ls' s = Next s' /\ inv ps s' /\
    pc s' = pc s /\ stop s' = stop s /\
    Forall (fun t => t_pc t = Finished) (tasks s').
Proof.
  intros Hinv Hns.
  destruct (finish_first ps s Hinv Hns (length (tasks s)))
    as (ls' & s' & Hex & Hinv' & Hpc & Hst & Hlow & Hhigh).
  exists ls', s'. split; [done|]. split; [done|]. split; [done|].
  split; [done|]. apply Forall_lookup. intros j t Hj.
  apply (Hlow j); [|done].
  destruct (decide (j < length (tasks s))) as [|Hge]; [done|].
  rewrite Hhigh in Hj by lia. apply lookup_lt_Some in Hj. lia.
Qed.

Lemma returns_from_loop ps s :
  inv ps s -> pc s = AtLoop ->
  exists ls' s', exec ls' s = Next s' /\ has_returned s' = true.
Proof.
  intros Hinv Hat. destruct (Chan.closed (stop s)) eqn:Hc.
  - destruct (0 <? numPodsLeft s) eqn:Hleft.
    + apply Nat.ltb_lt in Hleft.
      pose proof (main_step_dispatch ps s Hinv Hat Hleft) as Hd.
      match type of Hd with _ = Next ?x => set (s1 := x) in * end.
      assert (Hinv1 : inv ps s1) by (by apply (inv_step ps Main s)).
      exists [Main; Main], (set_pc (close_stopChs s1) (Returned None)).
      split; [|done]. cbn [exec step]. rewrite Hd.
      unfold main_step. replace (pc s1) with AtSelect by done.
      rewrite (ready_closed ps s1 Hinv1).
      replace (Chan.closed (stop s1)) with true by (by rewrite <- Hc).
      rewrite deferred_unbuffered by apply Hinv1. done.
    + exists [Main], (set_pc s (Returned None)). split; [|done].
      cbn [exec step]. unfold main_step. rewrite Hat, Hleft.
      by rewrite deferred_unbuffered by apply Hinv.
  - destruct (calm_run ps (numPodsLeft s) s Hinv Hat (le_n _) Hc)
      as (s' & Hex & Hpc & _).
    eexists _, s'. split; [exact Hex|]. unfold has_returned. by rewrite Hpc.
Qed.

Lemma returns_from_barrier ps s :
  inv ps s -> pc s = AtWait -> wgs s <> [] ->
  Forall (fun t => t_pc t = Finished) (tasks s) ->
  exists ls' s', exec ls' s = Next s' /\ has_returned s' = true.
Proof.
  intros Hinv Hat Hne Hfin.
  assert (Hlast : last (wgs s) = Some 0).
  { destruct (last (wgs s)) as [c|] eqn:Hl.
    - rewrite last_lookup in Hl. apply (inv_wg ps s Hinv) in Hl.
      by rewrite all_finished_unfinished in Hl by done; subst c.
    - apply last_None in Hl. done. }
  assert (Hstep : exists s1, step Main s = Next s1 /\ pc s1 = AtLoop).
  { cbn [step]. unfold main_step. rewrite Hat, Hlast. eexists. split; done. }
  destruct Hstep as (s1 & Hstep & Hat1).
  destruct (returns_from_loop ps s1 (inv_step ps _ _ _ Hinv Hstep) Hat1)
    as (ls' & s' & Hex & Hret).
  exists (Main :: ls'), s'. split; [|done]. cbn [exec]. by rewrite Hstep.
Qed.

Lemma returns_when_finished ps s :
  inv ps s -> batch_open s ->
  Forall (fun t => t_pc t = Finished) (tasks s) ->
  exists ls' s', exec ls' s = Next s' /\ has_returned s' = true.
Proof.
  intros Hinv Ho Hfin. unfold batch_open in Ho.
  destruct (pc s) eqn:Hat.
  - by apply (returns_from_loop ps).
  - destruct (Chan.closed (stop s)) eqn:Hc.
    + exists [Main], (set_pc (close_stopChs s) (Returned None)).
      split; [|done]. cbn [exec step]. unfold main_step.
      rewrite Hat, (ready_closed ps s Hinv), Hc.
      by rewrite deferred_unbuffered by apply Hinv.
    + assert (Hstep : step Main s = Next (set_pc s AtWait)).
      { cbn [step]. unfold main_step.
        by rewrite Hat, (ready_closed ps s Hinv), Hc. }
      destruct (returns_from_barrier ps (set_pc s AtWait))
        as (ls' & s' & Hex & Hret); try done.
      { by apply (inv_step ps Main s). }
      exists (Main :: ls'), s'. split; [|done]. cbn [exec]. by rewrite Hstep.
  - by apply (returns_from_barrier ps).
  - exists [], s. split; [done|]. unfold has_returned. by rewrite Hat.
Qed.

(** X13. Short of a failed eviction, [evictPods] is never stuck for good:
    from every state that a run reaches and in which no goroutine stands
    at the send of an error, there is a continuation, in which the pending
    evictions are answered without error, that makes [evictPods] return,
    and it returns nil. *)
Theorem evictPods_can_return :
  forall (ps : list Pod) (ls : list label) (s : state),
    exec ls (init ps) = Next s ->
    (forall i e, ~ stuck_at i e s) ->
    exists (ls' : list label) (s' : state),
      exec ls' s = Next s' /\ pc s' = Returned None.
Proof.
  intros ps ls s Hexec Hns.
  pose proof (reach_inv ps ls s Hexec) as Hinv.
  destruct (finish_all ps s Hinv Hns)
    as (ls1 & s1 & Hex1 & Hinv1 & Hpc1 & Hst1 & Hfin).
  assert (Hreach : exec (ls ++ ls1) (init ps) = Next s1)
    by (by rewrite exec_app, Hexec).
  destruct (returns_when_finished ps s1 Hinv1
              (batch_open_reach ps _ s1 Hreach) Hfin)
    as (ls2 & s2 & Hex2 & Hret).
  exists (ls1 ++ ls2), s2. split; [by rewrite exec_app, Hex1|].
  pose proof (inv_pc ps s2 (inv_exec ps ls2 s1 s2 Hinv1 Hex2)) as Hpc.
  unfold has_returned in Hret. destruct (pc s2) as [| | |r]; try done.
  by destruct Hpc as (-> & _).
Qed.

(** *** The barrier of a batch with a failed eviction *)

Lemma stalled_main_blocked ps i e s :
  inv ps s -> stuck_at i e s -> pc s = AtWait -> step Main s = Blocked.
Proof.
  intros Hinv Hst Hat. cbn [step]. unfold main_step. rewrite Hat.
  destruct (last (wgs s)) as [[|c]|] eqn:Hlast; try done.
  destruct (stuck_unfinished i e s Hst) as (b & Hb).
  pose proof (last_wg_zero ps s Hinv Hlast b). lia.
Qed.

Lemma stalled_at_barrier ps i e ls' s s' :
  inv ps s -> stuck_at i e s -> pc s = AtWait ->
  exec ls' s = Next s' ->
  inv ps s' /\ stuck_at i e s' /\ pc s' = AtWait /\
  dispatched s' = dispatched s.
Proof.
  intros Hinv Hst Hat Hexec.
  split; [by apply (inv_exec ps ls' s)|].
  apply (exec_keeps ps (fun s' =>
           stuck_at i e s' /\ pc s' = AtWait /\
           dispatched s' = dispatched s))
    with (ls := ls') (s := s); try done.
  clear s' Hexec. intros s1 s2 Hinv1 (Hst1 & Hat1 & Hd1) Htr.
  destruct (stuck_move ps i e s1 s2 Hinv1 Hst1 Htr)
    as (Hst2 & _ & Hd2 & _ & Hpc2).
  split; [done|]. split; [|congruence].
  destruct Hpc2 as [Hpc2|(Hpc2 & _)]; congruence.
Qed.

End EvictPodsViewsFacts.

(** ** The batches after a failed eviction *)

Module BatchDivergences.
Import Examples MoreExamples.

(** C3. Eleven pods make two batches.  The first batch of ten is
    dispatched and the loop waits at its barrier; the eviction of the
    first pod fails and no stop signal comes.  From then on, whatever the
    goroutines and the caller do, the loop stays at the barrier of the
    first batch and cannot move: one batch has been dispatched, not two,
    and [evictPods] does not return.  This is so even when the evictions
    of the other nine pods of the batch succeed: the goroutine of the
    failed eviction is then the only one that has not passed [wg.Done]. *)
Theorem failed_eviction_stops_the_batches :
  length (EvictPods.plan eleven) = (11 + 9) / 10 /\
  EvictPods.exec schedule_failed (EvictPods.init eleven)
    = Next eleven_failed /\
  ~ In EvictPods.StopFires schedule_failed /\
  List.map (@length Pod) (EvictPods.dispatched eleven_failed) = [10] /\
  EvictPods.pc eleven_failed = EvictPods.AtWait /\
  (forall ls' s',
     EvictPods.exec ls' eleven_failed = Next s' ->
     EvictPods.pc s' = EvictPods.AtWait /\
     EvictPods.dispatched s' = EvictPods.dispatched eleven_failed /\
     length (EvictPods.dispatched s') < length (EvictPods.plan eleven) /\
     EvictPods.step EvictPods.Main s' = Blocked) /\
  EvictPods.exec schedule_nine_evicted eleven_failed
    = Next eleven_nine_evicted /\
  List.map EvictPods.t_pc (EvictPods.outstanding eleven_nine_evicted)
    = [EvictPods.AtSend internal_error].
Proof.
  assert (Hexec : EvictPods.exec schedule_failed (EvictPods.init eleven)
                  = Next eleven_failed) by (vm_compute; reflexivity).
  pose proof (EvictPodsFacts.reach_inv eleven _ _ Hexec) as Hinv.
  assert (Hst : EvictPodsViews.stuck_at 0 internal_error eleven_failed).
  { eexists. split; vm_compute; reflexivity. }
  assert (Hat : EvictPods.pc eleven_failed = EvictPods.AtWait)
    by (vm_compute; reflexivity).
  split; [vm_compute; reflexivity|]. split; [exact Hexec|].
  split; [vm_compute; intuition discriminate|].
  split; [vm_compute; reflexivity|]. split; [exact Hat|].
  split; [|split; vm_compute; reflexivity].
  intros ls' s' Hexec'.
  destruct (EvictPodsViewsFacts.stalled_at_barrier
              eleven 0 internal_error ls' eleven_failed s' Hinv Hst Hat Hexec')
    as (Hinv' & Hst' & Hat' & Hd').
  split; [done|]. split; [done|]. split.
  - rewrite Hd'. vm_compute. lia.
  - by apply (EvictPodsViewsFacts.stalled_main_blocked eleven 0 internal_error).
Qed.

End BatchDivergences.
(** ** More theorems about the drains *)

Module DrainViewsFacts.
Import DrainNode DrainViews DrainNodeFacts.

(** A property that every step keeps holds along every run. *)
Lemma drain_exec_keeps (P : state -> Prop) :
  (forall l s s', inv s -> P s -> step l s = Next s' -> P s') ->
  forall ls s s', inv s -> P s -> exec ls s = Next s' -> P s'.
Proof.
  intros Hkeep. induction ls as [|l ls IH]; intros s s' Hinv HP Hexec;
    cbn [exec] in Hexec.
  - by injection Hexec as <-.
  - destruct (step l s) as [s1| |msg] eqn:Hstep; try done.
    apply (IH s1 s'); [by apply (drain_inv_step l s)| |done].
    by apply (Hkeep l s s1).
Qed.

(** The poller of [DrainKubeDNSFromNode] touches nothing but itself. *)
Lemma kube_poll_frame n items err s :
  errCh (DrainKubeDNS.poll n items err s) = errCh s /\
  stopPolling (DrainKubeDNS.poll n items err s) = stopPolling s /\
  evict (DrainKubeDNS.poll n items err s) = evict s /\
  evictor (DrainKubeDNS.poll n items err s) = evictor s /\
  pc (DrainKubeDNS.poll n items err s) = pc s.
Proof.
  unfold DrainKubeDNS.poll. destruct err; [done|].
  destruct (_ =? 0); [done|]. by destruct (Chan.ready (stopPolling s)).
Qed.

Lemma kube_poll_inv n items err s :
  inv s -> inv (DrainKubeDNS.poll n items err s).
Proof.
  intros [He Hb Hev Hpc].
  destruct (kube_poll_frame n items err s) as (H1 & H2 & H3 & H4 & H5).
  constructor; unfold stopEvicting in *; rewrite ?H1, ?H2, ?H3, ?H5; done.
Qed.

(** A step of [DrainKubeDNSFromNode] is a poll of its own or a step of
    [DrainNode]. *)
Lemma kube_step_cases n l s s' :
  DrainKubeDNS.step n l s = Next s' ->
  (exists items err,
     l = Poll items err /\ poller s = Polling /\
     s' = DrainKubeDNS.poll n items err s) \/
  ((forall items err, l <> Poll items err) /\ step l s = Next s').
Proof.
  intros Hstep. destruct l as [l| | |items err| | |];
    try (right; split; [done|exact Hstep]).
  left. cbn in Hstep. destruct (poller s) eqn:Hp; try done.
  injection Hstep as <-. by exists items, err.
Qed.

Lemma kube_inv_step n l s s' :
  inv s -> DrainKubeDNS.step n l s = Next s' -> inv s'.
Proof.
  intros Hinv Hstep.
  destruct (kube_step_cases n l s s' Hstep)
    as [(items & err & -> & _ & ->)|(_ & Hs)].
  - by apply kube_poll_inv.
  - by apply (drain_inv_step l s).
Qed.

Lemma kube_exec_keeps n (P : state -> Prop) :
  (forall l s s', inv s -> P s -> step l s = Next s' -> P s') ->
  (forall items err s,
     inv s -> P s -> poller s = Polling ->
     P (DrainKubeDNS.poll n items err s)) ->
  forall ls s s',
    inv s -> P s -> DrainKubeDNS.exec n ls s = Next s' -> P s'.
Proof.
  intros Hkeep Hpoll. induction ls as [|l ls IH]; intros s s' Hinv HP Hexec;
    cbn [DrainKubeDNS.exec] in Hexec.
  - by injection Hexec as <-.
  - destruct (DrainKubeDNS.step n l s) as [s1| |msg] eqn:Hstep; try done.
    apply (IH s1 s'); [by apply (kube_inv_step n l s)| |done].
    destruct (kube_step_cases n l s s1 Hstep)
      as [(items & err & -> & Hp & ->)|(_ & Hs)].
    + by apply Hpoll.
    + by apply (Hkeep l s s1).
Qed.

Lemma kube_inv_start n items : inv (DrainKubeDNS.start n items None).
Proof.
  constructor; simpl; try done.
  eexists. apply EvictPodsFacts.inv_init.
Qed.

Lemma kube_exec_inv n items ls s :
  DrainKubeDNS.exec n ls (DrainKubeDNS.start n items None) = Next s -> inv s.
Proof.
  intros Hexec.
  apply (kube_exec_keeps n inv) with (ls := ls)
    (s := DrainKubeDNS.start n items None); try done;
    try apply kube_inv_start.
  - intros l s0 s1 Hinv _ Hstep. by apply (drain_inv_step l s0).
  - intros its err s0 Hinv _ _. by apply kube_poll_inv.
Qed.

Lemma kube_step_no_panic n l s msg :
  inv s -> DrainKubeDNS.step n l s <> Panic msg.
Proof.
  intros Hinv. destruct l as [l| | |items err| | |];
    try apply (drain_step_no_panic _ s msg Hinv).
  cbn. by destruct (poller s).
Qed.

Lemma kube_exec_no_panic n ls msg : forall s,
  inv s -> DrainKubeDNS.exec n ls s <> Panic msg.
Proof.
  induction ls as [|l ls IH]; intros s Hinv; cbn [DrainKubeDNS.exec]; [done|].
  destruct (DrainKubeDNS.step n l s) as [s1| |m] eqn:Hstep; try done.
  - apply IH. by apply (kube_inv_step n l s).
  - intros [= ->]. by apply (kube_step_no_panic n l s msg).
Qed.

(** *** The pipeline inside a drain *)

(** Every step of a drain leaves the run of [evictPods] where it is or
    makes one step of it; closing [stopEvicting] is the step of its
    caller. *)
Lemma drain_step_projects l s s' :
  inv s -> step l s = Next s' ->
  evict s' = evict s \/
  exists l', EvictPods.step l' (evict s) = Next (evict s').
Proof.
  intros Hinv Hstep.
  assert (Hlift : forall l',
    lift s (EvictPods.step l' (evict s)) = Next s' ->
    exists l', EvictPods.step l' (evict s) = Next (evict s')).
  { intros l' H. exists l'.
    destruct (EvictPods.step l' (evict s)) as [b| |]; try done.
    by injection H as <-. }
  assert (Hclose : pc s = AtSelect ->
    deferred (close_both s) = s' ->
    exists l', EvictPods.step l' (evict s) = Next (evict s')).
  { intros Hat <-. exists EvictPods.StopFires.
    pose proof (dinv_pc s Hinv) as Hpc. rewrite Hat in Hpc.
    destruct Hpc as (_ & Hopen). unfold stopEvicting in Hopen.
    cbn [EvictPods.step]. rewrite Hopen.
    rewrite drain_deferred_unbuffered by (exact (dinv_errCh s Hinv)). done. }
  destruct l as [l| | |items err| | |]; cbn [step] in Hstep.
  - right. destruct l as [| |i resp|i|i]; try done; try by eapply Hlift.
    destruct (evictor s); try done. by eapply Hlift.
  - left. destruct (evictor s); try done.
    destruct (EvictPods.pc (evict s)) as [| | |[e|]]; try done;
      by injection Hstep as <-.
  - left. destruct (evictor s); try done.
    destruct (Chan.send (errCh s) e); [|done]. by injection Hstep as <-.
  - left. destruct (poller s); try done. injection Hstep as <-.
    unfold poll. destruct err; [done|]. destruct (_ =? 0); [done|].
    by destruct (Chan.ready (stopPolling s)).
  - left. destruct (pc s); try done. destruct (poller s); try done.
    injection Hstep as <-.
    rewrite drain_deferred_unbuffered by (exact (dinv_errCh s Hinv)). done.
  - right. destruct (pc s) eqn:Hat; try done. injection Hstep as Hs.
    by apply Hclose.
  - right. destruct (pc s) eqn:Hat; try done. injection Hstep as Hs.
    by apply Hclose.
Qed.

Lemma evicting_step ps l s s' :
  inv s -> evicting ps s -> step l s = Next s' -> evicting ps s'.
Proof.
  intros Hinv (ls & Hls) Hstep.
  destruct (drain_step_projects l s s' Hinv Hstep) as [Heq|(l' & Hl')].
  - exists ls. by rewrite Heq.
  - exists (ls ++ [l']). rewrite EvictPodsFacts.exec_app, Hls.
    cbn [EvictPods.exec]. by rewrite Hl'.
Qed.

Lemma drain_evicting items ls s :
  exec ls (start items None) = Next s ->
  evicting (Filter.filterOutPodByOwnerReferenceKind items excluded_kind) s.
Proof.
  intros Hexec.
  apply (drain_exec_keeps (evicting _)) with (ls := ls)
    (s := start items None); [|apply drain_inv_start| |done].
  - intros l s0 s1. apply evicting_step.
  - by exists [].
Qed.

Lemma kube_evicting n items ls s :
  DrainKubeDNS.exec n ls (DrainKubeDNS.start n items None) = Next s ->
  evicting (Filter.filterOutPodByNode items n) s.
Proof.
  intros Hexec.
  apply (kube_exec_keeps n (evicting _)) with (ls := ls)
    (s := DrainKubeDNS.start n items None);
    [| |apply kube_inv_start| |done].
  - intros l s0 s1. apply evicting_step.
  - intros its err s0 _ (ls0 & H0) _. exists ls0.
    destruct (kube_poll_frame n its err s0) as (_ & _ & Heq & _).
    by rewrite Heq.
  - by exists [].
Qed.

(** *** The result of a drain *)

Lemma evictor_quiet_step l s s' :
  inv s -> evictor_quiet s -> step l s = Next s' -> evictor_quiet s'.
Proof.
  intros Hinv Hq Hstep e. specialize (Hq e).
  destruct l as [l| | |items err| | |]; cbn [step] in Hstep.
  - assert (Hlift : forall l',
      lift s (EvictPods.step l' (evict s)) = Next s' -> evictor s' = evictor s).
    { intros l' H. destruct (EvictPods.step l' (evict s)) as [b| |]; try done.
      by injection H as <-. }
    destruct l as [| |i resp|i|i]; try done;
      try (by rewrite (Hlift _ Hstep)).
    destruct (evictor s) eqn:He; try done.
    by rewrite (Hlift _ Hstep).
  - destruct (evictor s); try done.
    destruct (dinv_evict s Hinv) as (ps & Hev).
    pose proof (EvictPods.inv_pc ps (evict s) Hev) as Hpc.
    destruct (EvictPods.pc (evict s)) as [| | |[e0|]]; try done.
    + by destruct Hpc.
    + by injection Hstep as <-.
  - destruct (evictor s); try done.
    destruct (Chan.send (errCh s) e0); [|done]. by injection Hstep as <-.
  - destruct (poller s); try done. injection Hstep as <-.
    unfold poll. destruct err; [done|]. destruct (_ =? 0); [done|].
    by destruct (Chan.ready (stopPolling s)).
  - destruct (pc s); try done. destruct (poller s); try done.
    injection Hstep as <-.
    rewrite drain_deferred_unbuffered by (exact (dinv_errCh s Hinv)). done.
  - destruct (pc s); try done. injection Hstep as <-.
    rewrite drain_deferred_unbuffered by (exact (dinv_errCh s Hinv)). done.
  - destruct (pc s); try done. injection Hstep as <-.
    rewrite drain_deferred_unbuffered by (exact (dinv_errCh s Hinv)). done.
Qed.

Lemma listing_error_blocks items e ls s :
  exec ls (start items (Some e)) = Next s ->
  ls = [] /\ s = start items (Some e).
Proof.
  destruct ls as [|l ls]; cbn [exec].
  - by intros [= <-].
  - by destruct (DrainNode_listing_error items e l) as (_ & ->).
Qed.

Lemma listing_error_no_panic items e ls msg :
  exec ls (start items (Some e)) <> Panic msg.
Proof.
  destruct ls as [|l ls]; cbn [exec]; [done|].
  by destruct (DrainNode_listing_error items e l) as (_ & ->).
Qed.

(** X14. The result of [DrainNode] is the error of its first listing and
    nothing else: when the listing fails that error is returned and
    nothing is started, and when it succeeds [DrainNode] returns nil
    however the evictions and the later listings go.  The goroutine that
    runs [evictPods] never has an error to pass on, [errCh] stays empty
    and no run panics. *)
Theorem DrainNode_result_is_listing_error :
  forall (items : list Pod) (err : error) (ls : list label),
    (forall msg, exec ls (start items err) <> Panic msg) /\
    (forall s,
       exec ls (start items err) = Next s ->
       (forall r, pc s = Returned r -> r = err) /\
       evictor_quiet s /\
       Chan.len (errCh s) = 0 /\
       (err <> None -> ls = [] /\ EvictPods.tasks (evict s) = [])).
Proof.
  intros items [e|] ls.
  - split; [intros msg; apply listing_error_no_panic|].
    intros s Hexec.
    destruct (listing_error_blocks items e ls s Hexec) as (-> & ->).
    split; [by intros r [= <-]|]. split; [done|]. done.
  - split; [intros msg; apply drain_exec_no_panic, drain_inv_start|].
    intros s Hexec.
    pose proof (drain_inv_exec ls _ s (drain_inv_start items) Hexec) as Hinv.
    split; [intros r Hr; by apply (DrainNode_returns_nil items ls s)|].
    split; [|split; [by rewrite (dinv_errCh s Hinv)|done]].
    apply (drain_exec_keeps evictor_quiet) with (ls := ls)
      (s := start items None); [|apply drain_inv_start|done|done].
    apply evictor_quiet_step.
Qed.

Lemma settled_step r s0 l s s' :
  inv s -> settled r s0 s -> step l s = Next s' ->
  settled r s0 s' /\ resolves l = false.
Proof.
  intros Hinv (Hpc & Hp & He & Hd) Hstep. unfold settled, stopEvicting in *.
  destruct l as [l| | |items err| | |]; cbn [step] in Hstep.
  - assert (Hlift : forall l', l' <> EvictPods.StopFires ->
      lift s (EvictPods.step l' (evict s)) = Next s' ->
      pc s' = pc s /\ stopPolling s' = stopPolling s /\
      EvictPods.stop (evict s') = EvictPods.stop (evict s) /\
      poller s' = poller s).
    { intros l' Hne H.
      destruct (EvictPods.step l' (evict s)) as [b| |] eqn:Hb; try done.
      injection H as <-. cbn.
      by rewrite (EvictPodsFacts.step_stop l' (evict s) b Hne Hb). }
    assert (Hall : pc s' = pc s /\ stopPolling s' = stopPolling s /\
      EvictPods.stop (evict s') = EvictPods.stop (evict s) /\
      poller s' = poller s).
    { destruct l as [| |i resp|i|i]; try done; try by apply Hlift in Hstep.
      destruct (evictor s); try done. by apply Hlift in Hstep. }
    destruct Hall as (-> & -> & -> & ->). done.
  - destruct (evictor s); try done.
    destruct (EvictPods.pc (evict s)) as [| | |[e|]]; try done;
      by injection Hstep as <-.
  - destruct (evictor s); try done.
    destruct (Chan.send (errCh s) e); [|done]. by injection Hstep as <-.
  - destruct (poller s) eqn:Hpl; try done. injection Hstep as <-.
    assert (Hne : poller s0 <> AtDoneSend) by (intros H; by specialize (Hd H)).
    unfold poll. destruct err; [done|]. destruct (_ =? 0); [done|].
    by destruct (Chan.ready (stopPolling s)).
  - by rewrite Hpc in Hstep.
  - by rewrite Hpc in Hstep.
  - by rewrite Hpc in Hstep.
Qed.

Lemma settled_exec r s0 ls : forall s s',
  inv s -> settled r s0 s -> exec ls s = Next s' ->
  settled r s0 s' /\ Forall (fun l => resolves l = false) ls.
Proof.
  induction ls as [|l ls IH]; intros s s' Hinv Hset Hexec; cbn [exec] in Hexec.
  - injection Hexec as <-. split; [done|]. by apply Forall_nil.
  - destruct (step l s) as [s1| |msg] eqn:Hstep; try done.
    destruct (settled_step r s0 l s s1 Hinv Hset Hstep) as (Hset1 & Hl).
    destruct (IH s1 s' (drain_inv_step l s s1 Hinv Hstep) Hset1 Hexec)
      as (Hset' & Hls).
    split; [done|]. apply Forall_cons. done.
Qed.

(** X15. Once [DrainNode] has returned, nothing that the goroutines it
    leaves behind do changes its result or the two stop channels, and the
    select is resolved only once.  A poller that stands at its send on
    [doneDraining] at that moment stands there for ever: nothing receives
    from the channel any more. *)
Theorem DrainNode_after_return :
  forall (items : list Pod) (ls : list label) (s : state) (r : error),
    exec ls (start items None) = Next s ->
    pc s = Returned r ->
    forall (ls' : list label) (s' : state),
      exec ls' s = Next s' ->
      pc s' = Returned r /\
      stopPolling s' = stopPolling s /\
      stopEvicting s' = stopEvicting s /\
      (poller s = AtDoneSend -> poller s' = AtDoneSend) /\
      Forall (fun l => resolves l = false) ls'.
Proof.
  intros items ls s r Hexec Hr ls' s' Hexec'.
  pose proof (drain_inv_exec ls _ s (drain_inv_start items) Hexec) as Hinv.
  destruct (settled_exec r s ls' s s' Hinv) as ((H1 & H2 & H3 & H4) & H5);
    done.
Qed.

Lemma evicting_stops_open ps s :
  evicting ps s -> Chan.closed (stopEvicting s) = false ->
  Forall (fun t => Chan.ready (EvictPods.t_stop t) = false)
         (EvictPods.tasks (evict s)).
Proof.
  intros (ls & Hls) Hopen.
  pose proof (EvictPodsViewsFacts.stop_late_reach ps ls _ Hls) as Hall.
  eapply Forall_impl; [exact Hall|]. intros t (Hb & Hcl).
  unfold Chan.ready. rewrite Hb. cbn. rewrite orb_false_r.
  destruct (Chan.closed (EvictPods.t_stop t)); [|done].
  destruct Hcl as (_ & _ & Hc); [done|]. unfold stopEvicting in Hopen.
  congruence.
Qed.

(** X16. When the select of [DrainNode] is resolved by the poller,
    [DrainNode] returns nil and closes neither stop channel, and nothing
    closes them afterwards.  So the goroutines of [evictPods] that are
    still retrying at that moment are never told to stop: whatever runs
    later, no goroutine finds its stop channel ready. *)
Theorem DrainNode_drained_stops_nothing :
  forall (items : list Pod) (ls : list label) (s : state),
    exec ls (start items None) = Next s ->
    pc s = AtSelect -> poller s = AtDoneSend ->
    exists s1,
      step Drained s = Next s1 /\
      pc s1 = Returned None /\ poller s1 = PollerExited /\
      evict s1 = evict s /\
      forall (ls' : list label) (s' : state),
        exec ls' s1 = Next s' ->
        Chan.closed (stopPolling s') = false /\
        Chan.closed (stopEvicting s') = false /\
        Forall (fun t => Chan.ready (EvictPods.t_stop t) = false)
               (EvictPods.tasks (evict s')).
Proof.
  intros items ls s Hexec Hat Hp.
  pose proof (drain_inv_exec ls _ s (drain_inv_start items) Hexec) as Hinv.
  pose proof (dinv_pc s Hinv) as Hpc. rewrite Hat in Hpc.
  destruct Hpc as (Hop & Hoe).
  set (s1 := deferred (set_poller s PollerExited)).
  assert (Hs1 : pc s1 = Returned None /\ poller s1 = PollerExited /\
                evict s1 = evict s /\ stopPolling s1 = stopPolling s).
  { unfold s1.
    rewrite drain_deferred_unbuffered by (exact (dinv_errCh s Hinv)). done. }
  destruct Hs1 as (Hpc1 & Hpl1 & Hev1 & Hsp1).
  assert (Hstep : step Drained s = Next s1)
    by (cbn [step]; by rewrite Hat, Hp).
  exists s1. split; [done|]. split; [done|]. split; [done|]. split; [done|].
  intros ls' s' Hexec'.
  assert (Hexec1 : exec (ls ++ Drained :: ls') (start items None) = Next s').
  { clear -Hexec Hstep Hexec'. revert Hexec.
    generalize (start items None). induction ls as [|l ls IH]; intros s0 H0.
    - cbn in H0. injection H0 as ->. cbn [app exec]. by rewrite Hstep.
    - cbn [app exec] in *. destruct (step l s0); try done. by apply IH. }
  pose proof (drain_inv_step _ _ _ Hinv Hstep) as Hinv1.
  destruct (settled_exec None s1 ls' s1 s' Hinv1) as ((_ & H2 & H3 & _) & _);
    [done|done|].
  assert (Hoe' : Chan.closed (stopEvicting s') = false).
  { rewrite H3. unfold stopEvicting in *. by rewrite Hev1. }
  split; [by rewrite H2, Hsp1|]. split; [done|].
  by apply (evicting_stops_open _ s' (drain_evicting items _ s' Hexec1)).
Qed.

Lemma poll_count_zero items :
  (length (Filter.filterOutPodByOwnerReferenceKind items excluded_kind) =? 0)
    = true <-> only_excluded_owners items.
Proof.
  rewrite Nat.eqb_eq, length_zero_iff_nil.
  apply FilterViewsFacts.owner_filter_nil.
Qed.

(** X17. The poller of [DrainNode] takes the node for drained exactly when
    every owner reference of every listed pod is a DaemonSet.  Pods
    without owner references are therefore never waited for.  Otherwise it
    leaves when [stopPolling] is closed and polls again when it is not,
    and a listing that fails is tried again. *)
Theorem DrainNode_poller_verdict :
  forall (items : list Pod) (s : state),
    poller s = Polling ->
    (poller (poll items None s) = AtDoneSend <-> only_excluded_owners items) /\
    (only_excluded_owners items ->
     step (Poll items None) s = Next (set_poller s AtDoneSend)) /\
    (~ only_excluded_owners items ->
     step (Poll items None) s =
     Next (if Chan.ready (stopPolling s) then set_poller s PollerExited
           else s)) /\
    (forall e, step (Poll items (Some e)) s = Next s) /\
    (Forall (fun p => OwnerReferences (pod_ObjectMeta p) = []) items ->
     only_excluded_owners items).
Proof.
  intros items s Hp. cbn [step]. rewrite Hp. unfold poll.
  pose proof (poll_count_zero items) as Hz.
  destruct (_ =? 0) eqn:E.
  - assert (Hall : only_excluded_owners items) by (by apply Hz).
    split; [done|]. split; [done|]. split; [done|]. split; [done|].
    intros _. done.
  - assert (Hnot : ~ only_excluded_owners items).
    { intros H. apply Hz in H. congruence. }
    split; [|split; [done|split; [|split; [done|]]]].
    + split; [|done]. destruct (Chan.ready (stopPolling s)); cbn; congruence.
    + intros _. by destruct (Chan.ready (stopPolling s)).
    + intros Hbare. destruct Hnot. intros p r Hin Hr.
      rewrite Forall_forall in Hbare. apply list_elem_of_In in Hin.
      rewrite (Hbare p Hin) in Hr. done.
Qed.

Lemma in_take {A : Type} (x : A) n l : In x (take n l) -> In x l.
Proof.
  intros Hin. rewrite <- (take_drop n l). apply in_or_app. by left.
Qed.

Lemma evicting_tasks ps s :
  evicting ps s ->
  List.map EvictPods.t_pod (EvictPods.tasks (evict s)) =
    take (length (EvictPods.tasks (evict s))) ps /\
  Forall (fun t => In (EvictPods.t_pod t) ps) (EvictPods.tasks (evict s)).
Proof.
  intros (ls & Hls).
  pose proof (EvictPodsFacts.reach_inv ps ls _ Hls) as Hinv.
  pose proof (EvictPodsViewsFacts.tasks_prefix ps _ Hinv) as Hpre.
  split; [done|]. apply Forall_forall. intros t Hin.
  apply (in_take _ (length (EvictPods.tasks (evict s)))). rewrite <- Hpre.
  apply List.in_map. by apply list_elem_of_In.
Qed.

(** X18. Every pod that [DrainNode] starts an eviction for is a listed pod
    with an owner reference that is not a DaemonSet: no pod that only
    DaemonSets own, and no pod without owner, is ever evicted.  The
    evictions are started in the order of the filtered list, and when no
    listed pod has more than one owner reference and no pod is listed
    twice, no pod gets two evictions. *)
Theorem DrainNode_evicts_only_filtered :
  forall (items : list Pod) (ls : list label) (s : state),
    exec ls (start items None) = Next s ->
    Forall (fun t =>
              In (EvictPods.t_pod t) items /\
              exists r,
                In r (OwnerReferences (pod_ObjectMeta (EvictPods.t_pod t))) /\
                Kind r <> excluded_kind)
           (EvictPods.tasks (evict s)) /\
    List.map EvictPods.t_pod (EvictPods.tasks (evict s)) =
      take (length (EvictPods.tasks (evict s)))
           (Filter.filterOutPodByOwnerReferenceKind items excluded_kind) /\
    (Forall (fun p => length (OwnerReferences (pod_ObjectMeta p)) <= 1) items ->
     NoDup items ->
     NoDup (List.map EvictPods.t_pod (EvictPods.tasks (evict s)))).
Proof.
  intros items ls s Hexec.
  destruct (evicting_tasks _ s (drain_evicting items ls s Hexec))
    as (Hpre & Hall).
  split; [|split; [done|]].
  - eapply Forall_impl; [exact Hall|]. intros t Hin.
    apply FilterViewsFacts.in_owner_filter in Hin as (Hin & Hown).
    split; [done|]. unfold FilterViews.has_other_owner in Hown.
    apply existsb_exists in Hown as (r & Hr & Hd). exists r.
    split; [done|]. unfold FilterViews.differs in Hd.
    by apply negb_true_iff, String.eqb_neq in Hd.
  - intros Hone Hnd. rewrite Hpre.
    eapply sublist_NoDup; [|apply sublist_take].
    rewrite (FilterViewsFacts.owner_filter_single items _ Hone).
    apply NoDup_ListNoDup, List.NoDup_filter. by apply NoDup_ListNoDup.
Qed.

(** *** DrainKubeDNSFromNode *)

Lemma kube_listing_error_blocked n items e l :
  DrainKubeDNS.step n l (DrainKubeDNS.start n items (Some e)) = Blocked.
Proof.
  destruct l as [l| | |its err| | |]; try done.
  destruct l as [| |i resp|i|i]; try done.
Qed.

(** X19. The result of [DrainKubeDNSFromNode] is the error of its first
    listing and nothing else: a failed listing is returned as it is and
    nothing is started; after a listing that succeeds the call returns
    nil whatever the evictions answer, no run panics, and the timer or
    the context resolve the select by closing both stop channels. *)
Theorem DrainKubeDNSFromNode_result :
  forall (nodeName : string) (items : list Pod) (err : error)
         (ls : list label),
    (forall msg,
       DrainKubeDNS.exec nodeName ls (DrainKubeDNS.start nodeName items err)
       <> Panic msg) /\
    (forall s,
       DrainKubeDNS.exec nodeName ls (DrainKubeDNS.start nodeName items err)
       = Next s ->
       (forall r, pc s = Returned r -> r = err) /\
       evictor_quiet s /\
       Chan.len (errCh s) = 0 /\
       (err <> None -> ls = [] /\ EvictPods.tasks (evict s) = []) /\
       (pc s = AtSelect ->
        forall l, l = Timeout \/ l = Cancelled ->
        exists s',
          DrainKubeDNS.step nodeName l s = Next s' /\
          pc s' = Returned None /\
          Chan.closed (stopPolling s') = true /\
          Chan.closed (stopEvicting s') = true)).
Proof.
  intros n items [e|] ls.
  - assert (Hls : forall s,
      DrainKubeDNS.exec n ls (DrainKubeDNS.start n items (Some e)) = Next s ->
      ls = [] /\ s = DrainKubeDNS.start n items (Some e)).
    { intros s. destruct ls as [|l ls]; cbn [DrainKubeDNS.exec].
      - by intros [= <-].
      - by rewrite kube_listing_error_blocked. }
    split.
    + intros msg. destruct ls as [|l ls]; cbn [DrainKubeDNS.exec]; [done|].
      by rewrite kube_listing_error_blocked.
    + intros s Hexec. destruct (Hls s Hexec) as (-> & ->).
      split; [by intros r [= <-]|]. split; [done|]. done.
  - split; [intros msg; apply kube_exec_no_panic, kube_inv_start|].
    intros s Hexec. pose proof (kube_exec_inv n items ls s Hexec) as Hinv.
    pose proof (dinv_pc s Hinv) as Hpc.
    split; [|split; [|split; [by rewrite (dinv_errCh s Hinv)|split; [done|]]]].
    + intros r Hr. by rewrite Hr in Hpc.
    + apply (kube_exec_keeps n evictor_quiet) with (ls := ls)
        (s := DrainKubeDNS.start n items None);
        [apply evictor_quiet_step| |apply kube_inv_start|done|done].
      intros its err s0 _ Hq _ e.
      destruct (kube_poll_frame n its err s0) as (_ & _ & _ & -> & _).
      apply Hq.
    + intros Hat l Hl. rewrite Hat in Hpc.
      exists (deferred (close_both s)).
      split; [by destruct Hl as [-> | ->]; cbn; rewrite Hat|].
      rewrite drain_deferred_unbuffered by (exact (dinv_errCh s Hinv)). done.
Qed.

(** X20. Every pod that [DrainKubeDNSFromNode] starts an eviction for is a
    listed pod that sits on the node.  The evictions are started in the
    order of the listing, and when no pod is listed twice no pod gets two
    evictions. *)
Theorem DrainKubeDNSFromNode_evicts_node_pods :
  forall (nodeName : string) (items : list Pod) (ls : list label) (s : state),
    DrainKubeDNS.exec nodeName ls (DrainKubeDNS.start nodeName items None)
    = Next s ->
    Forall (fun t =>
              In (EvictPods.t_pod t) items /\
              NodeName (pod_Spec (EvictPods.t_pod t)) = nodeName)
           (EvictPods.tasks (evict s)) /\
    List.map EvictPods.t_pod (EvictPods.tasks (evict s)) =
      take (length (EvictPods.tasks (evict s)))
           (List.filter (FilterViews.on_node nodeName) items) /\
    length (EvictPods.tasks (evict s)) <= length items /\
    (NoDup items ->
     NoDup (List.map EvictPods.t_pod (EvictPods.tasks (evict s)))).
Proof.
  intros n items ls s Hexec.
  destruct (evicting_tasks _ s (kube_evicting n items ls s Hexec))
    as (Hpre & Hall).
  rewrite FilterViewsFacts.node_filter_is_filter in Hpre, Hall.
  split; [|split; [done|split]].
  - eapply Forall_impl; [exact Hall|]. intros t Hin.
    apply List.filter_In in Hin as (Hin & Hn). split; [done|].
    unfold FilterViews.on_node in Hn. by apply String.eqb_eq in Hn.
  - apply (f_equal length) in Hpre.
    rewrite length_map, length_take in Hpre.
    pose proof (List.filter_length_le (FilterViews.on_node n) items). lia.
  - intros Hnd. rewrite Hpre.
    eapply sublist_NoDup; [|apply sublist_take].
    apply NoDup_ListNoDup, List.NoDup_filter. by apply NoDup_ListNoDup.
Qed.

Lemma kube_poll_count_zero n items :
  (length (Filter.filterOutPodByNode items n) =? 0) = true <->
  none_on_node n items.
Proof.
  rewrite Nat.eqb_eq, length_zero_iff_nil.
  apply FilterViewsFacts.node_filter_nil.
Qed.

(** X21. The poller of [DrainKubeDNSFromNode] takes the node for drained
    exactly when no listed pod sits on the node.  Otherwise it leaves
    when [stopPolling] is closed and polls again when it is not, and a
    listing that fails is tried again. *)
Theorem DrainKubeDNSFromNode_poller_verdict :
  forall (nodeName : string) (items : list Pod) (s : state),
    poller s = Polling ->
    (poller (DrainKubeDNS.poll nodeName items None s) = AtDoneSend <->
     none_on_node nodeName items) /\
    (none_on_node nodeName items ->
     DrainKubeDNS.step nodeName (Poll items None) s
     = Next (set_poller s AtDoneSend)) /\
    (~ none_on_node nodeName items ->
     DrainKubeDNS.step nodeName (Poll items None) s =
     Next (if Chan.ready (stopPolling s) then set_poller s PollerExited
           else s)) /\
    (forall e, DrainKubeDNS.step nodeName (Poll items (Some e)) s = Next s).
Proof.
  intros n items s Hp. cbn [DrainKubeDNS.step]. rewrite Hp.
  unfold DrainKubeDNS.poll.
  pose proof (kube_poll_count_zero n items) as Hz.
  destruct (_ =? 0) eqn:E.
  - assert (Hall : none_on_node n items) by (by apply Hz).
    split; [done|]. split; [done|]. split; [done|]. done.
  - assert (Hnot : ~ none_on_node n items).
    { intros H. apply Hz in H. congruence. }
    split; [|split; [done|split; [|done]]].
    + split; [|done]. destruct (Chan.ready (stopPolling s)); cbn; congruence.
    + intros _. by destruct (Chan.ready (stopPolling s)).
Qed.

End DrainViewsFacts.
(** ** More theorems about the node operations *)

Module NodeWritesFacts.
Import NodeOps NodeWrites.

Lemma set_Unschedulable_back n b :
  set_Unschedulable (set_Unschedulable n b) (Unschedulable (node_Spec n)) = n.
Proof. by destruct n as [meta [pid u]]. Qed.

Lemma set_Unschedulable_twice n b b' :
  set_Unschedulable (set_Unschedulable n b) b' = set_Unschedulable n b'.
Proof. done. Qed.

Section WithClient.
Context {Server : Type} {C : Clientset Server}.

Lemma SetUnschedulableState_ok nodeName b srv node :
  GetNode nodeName srv = (node, None) ->
  SetUnschedulableState nodeName b srv =
  Returns (snd (fst (Nodes_Update (set_Unschedulable node b) srv)),
           snd (Nodes_Update (set_Unschedulable node b) srv)).
Proof.
  intros Hget. unfold SetUnschedulableState. rewrite Hget.
  by destruct (Nodes_Update _ srv) as [[n e] srv'].
Qed.

Lemma SetUnschedulableState_stored (L : StoresUpdates Server)
    nodeName b srv srv' node :
  GetNode nodeName srv = (node, None) ->
  SetUnschedulableState nodeName b srv = Returns (None, srv') ->
  GetNode nodeName srv' = (set_Unschedulable node b, None).
Proof.
  intros Hget Hset. rewrite (SetUnschedulableState_ok _ _ _ _ Hget) in Hset.
  destruct (Nodes_Update (set_Unschedulable node b) srv) as [[r e] s1] eqn:Hu.
  cbn in Hset. injection Hset as -> ->.
  apply (update_stored L nodeName srv node _ r); [done| |done].
  cbn. by apply (get_named L nodeName srv).
Qed.

Lemma SetNodeAnnotation_stored (L : StoresUpdates Server)
    nodeName key value srv srv' node m :
  GetNode nodeName srv = (node, None) ->
  Annotations (node_ObjectMeta node) = Some m ->
  SetNodeAnnotation nodeName key value srv = Returns (None, srv') ->
  GetNode nodeName srv' =
    (set_Annotations node (Some (<[key:=value]> m)), None).
Proof.
  intros Hget Hm Hset. unfold SetNodeAnnotation in Hset.
  rewrite Hget, Hm in Hset.
  destruct (Nodes_Update _ srv) as [[r e] s1] eqn:Hu.
  injection Hset as -> ->.
  apply (update_stored L nodeName srv node _ r); [done| |done].
  cbn. by apply (get_named L nodeName srv).
Qed.

End WithClient.

(** X22. [SetUnschedulableState] never panics.  When the node cannot be
    fetched it makes no update and returns an error that wraps the
    message of the cause but no longer counts as not-found.  On a server
    that keeps what it is given, a call that succeeds leaves the node with
    the flag set as asked and everything else as it was: the annotations
    and the provider id are untouched, so the project and the zone read
    from the node are the same, setting the flag again changes nothing,
    and setting it back restores the node. *)
Theorem SetUnschedulableState_cordons :
  forall (Server : Type) (C : Clientset Server) (L : StoresUpdates Server)
         (nodeName : string) (unschedulable : bool) (srv : Server)
         (node : Node),
    (forall msg,
       SetUnschedulableState nodeName unschedulable srv <> Panics msg) /\
    (forall e,
       GetNode nodeName srv = (node, Some e) ->
       SetUnschedulableState nodeName unschedulable srv
         = Returns (Some (unschedulable_get_failed e), srv) /\
       IsNotFound (unschedulable_get_failed e) = false) /\
    (GetNode nodeName srv = (node, None) ->
     forall srv',
       SetUnschedulableState nodeName unschedulable srv
         = Returns (None, srv') ->
       GetNode nodeName srv' = (set_Unschedulable node unschedulable, None) /\
       Unschedulable (node_Spec (set_Unschedulable node unschedulable))
         = unschedulable /\
       node_ObjectMeta (set_Unschedulable node unschedulable)
         = node_ObjectMeta node /\
       GetProjectIdAndZoneFromNode nodeName srv'
         = GetProjectIdAndZoneFromNode nodeName srv /\
       (forall srv'',
          SetUnschedulableState nodeName unschedulable srv'
            = Returns (None, srv'') ->
          GetNode nodeName srv''
            = (set_Unschedulable node unschedulable, None)) /\
       (forall srv'',
          SetUnschedulableState nodeName (Unschedulable (node_Spec node)) srv'
            = Returns (None, srv'') ->
          GetNode nodeName srv'' = (node, None))).
Proof.
  intros Server C L nodeName b srv node. split; [|split].
  - intros msg. unfold SetUnschedulableState.
    destruct (GetNode nodeName srv) as [n [e|]]; [done|].
    by destruct (Nodes_Update _ srv) as [[n' e'] srv'].
  - intros e Hget. unfold SetUnschedulableState. by rewrite Hget.
  - intros Hget srv' Hset.
    pose proof (SetUnschedulableState_stored L _ _ _ _ _ Hget Hset) as Hget'.
    split; [done|]. split; [done|]. split; [done|]. split; [|split].
    + unfold GetProjectIdAndZoneFromNode. by rewrite Hget, Hget'.
    + intros srv'' Hset'.
      by rewrite (SetUnschedulableState_stored L _ _ _ _ _ Hget' Hset').
    + intros srv'' Hset'.
      rewrite (SetUnschedulableState_stored L _ _ _ _ _ Hget' Hset').
      by rewrite set_Unschedulable_back.
Qed.

(** X23. When the node cannot be fetched, [SetNodeAnnotation] makes no
    update and returns an error that wraps the message of the cause but
    no longer counts as not-found.  On a server that keeps what it is
    given, a call that succeeds on a node with an annotation map leaves
    the node with the key bound to the value, the other annotations and
    the spec as they were; a second call never panics and keeps the
    binding of the first unless it writes the same key; and cordoning the
    node afterwards keeps the annotation. *)
Theorem SetNodeAnnotation_round_trip :
  forall (Server : Type) (C : Clientset Server) (L : StoresUpdates Server)
         (nodeName key value : string) (srv : Server) (node : Node),
    (forall e,
       GetNode nodeName srv = (node, Some e) ->
       SetNodeAnnotation nodeName key value srv
         = Returns (Some (annotation_get_failed e), srv) /\
       IsNotFound (annotation_get_failed e) = false) /\
    (forall m srv',
       GetNode nodeName srv = (node, None) ->
       Annotations (node_ObjectMeta node) = Some m ->
       SetNodeAnnotation nodeName key value srv = Returns (None, srv') ->
       GetNode nodeName srv'
         = (set_Annotations node (Some (<[key:=value]> m)), None) /\
       node_Spec (set_Annotations node (Some (<[key:=value]> m)))
         = node_Spec node /\
       (forall key2 value2 msg,
          SetNodeAnnotation nodeName key2 value2 srv' <> Panics msg) /\
       (forall key2 value2 srv'',
          SetNodeAnnotation nodeName key2 value2 srv'
            = Returns (None, srv'') ->
          exists node2 m2,
            GetNode nodeName srv'' = (node2, None) /\
            Annotations (node_ObjectMeta node2) = Some m2 /\
            m2 !! key2 = Some value2 /\
            (key <> key2 -> m2 !! key = Some value)) /\
       (forall unschedulable srv'',
          SetUnschedulableState nodeName unschedulable srv'
            = Returns (None, srv'') ->
          exists node2,
            GetNode nodeName srv'' = (node2, None) /\
            Annotations (node_ObjectMeta node2) = Some (<[key:=value]> m) /\
            Unschedulable (node_Spec node2) = unschedulable)).
Proof.
  intros Server C L nodeName key value srv node. split.
  - intros e Hget. unfold SetNodeAnnotation. by rewrite Hget.
  - intros m srv' Hget Hm Hset.
    pose proof (SetNodeAnnotation_stored L _ _ _ _ _ _ _ Hget Hm Hset)
      as Hget'.
    split; [done|]. split; [done|]. split; [|split].
    + intros key2 value2 msg. unfold SetNodeAnnotation. rewrite Hget'. cbn.
      by destruct (Nodes_Update _ srv') as [[n' e'] s2].
    + intros key2 value2 srv'' Hset'.
      exists (set_Annotations
                (set_Annotations node (Some (<[key:=value]> m)))
                (Some (<[key2:=value2]> (<[key:=value]> m)))),
             (<[key2:=value2]> (<[key:=value]> m)).
      split; [|split; [reflexivity|split]].
      * by apply (SetNodeAnnotation_stored L _ _ _ _ _ _ _ Hget' eq_refl Hset').
      * apply lookup_insert_eq.
      * intros Hne. rewrite lookup_insert_ne by done. apply lookup_insert_eq.
    + intros b srv'' Hset'.
      exists (set_Unschedulable
                (set_Annotations node (Some (<[key:=value]> m))) b).
      split; [|split; reflexivity].
      by apply (SetUnschedulableState_stored L _ _ _ _ _ Hget' Hset').
Qed.

Lemma count_sep_length s sep :
  count_sep s sep < 3 <-> length (strings_Split s sep) < 4.
Proof. rewrite NodeOpsFacts.strings_Split_length. lia. Qed.

(** X24. After a fetch that succeeds, [GetProjectIdAndZoneFromNode]
    panics exactly when the provider id of the node holds fewer than
    three slashes, as it does for a node without provider id.  The panic
    is the run-time error of the index expression: index 2 against the
    number of segments when the provider id holds fewer than two slashes,
    and index 3 against length 3 when it holds two.  For a provider id
    [scheme://project/zone/instance] whose scheme, project and zone hold
    no slash it returns the project and the zone, whatever the instance
    part looks like. *)
Theorem GetProjectIdAndZoneFromNode_panics_iff :
  forall (Server : Type) (C : Clientset Server) (nodeName : string)
         (srv : Server) (node : Node),
    GetNode nodeName srv = (node, None) ->
    ((exists msg, GetProjectIdAndZoneFromNode nodeName srv = Panics msg) <->
     count_sep (ProviderID (node_Spec node)) slash < 3) /\
    (ProviderID (node_Spec node) = EmptyString ->
     GetProjectIdAndZoneFromNode nodeName srv
       = Panics "runtime error: index out of range [2] with length 1") /\
    (count_sep (ProviderID (node_Spec node)) slash < 2 ->
     GetProjectIdAndZoneFromNode nodeName srv
       = Panics
           (index_out_of_range 2
              (S (count_sep (ProviderID (node_Spec node)) slash)))) /\
    (count_sep (ProviderID (node_Spec node)) slash = 2 ->
     GetProjectIdAndZoneFromNode nodeName srv
       = Panics "runtime error: index out of range [3] with length 3") /\
    (forall scheme project zone instance,
       ProviderID (node_Spec node)
         = provider_id scheme project zone instance ->
       count_sep scheme slash = 0 -> count_sep project slash = 0 ->
       count_sep zone slash = 0 ->
       GetProjectIdAndZoneFromNode nodeName srv
         = Returns (project, zone, None)).
Proof.
  intros Server C nodeName srv node Hget. split; [|split; [|split; [|split]]].
  - rewrite count_sep_length. split.
    + intros (msg & Hp). unfold GetProjectIdAndZoneFromNode in Hp.
      rewrite Hget in Hp.
      destruct (strings_Split (ProviderID (node_Spec node)) slash)
        as [|s0 [|s1 [|s2 [|s3 rest]]]]; cbn in *; try lia. done.
    + by apply NodeOpsFacts.GetProjectIdAndZoneFromNode_short.
  - intros Hid. unfold GetProjectIdAndZoneFromNode. by rewrite Hget, Hid.
  - intros Hc. unfold GetProjectIdAndZoneFromNode. rewrite Hget.
    pose proof (NodeOpsFacts.strings_Split_length
                  (ProviderID (node_Spec node)) slash) as Hlen.
    rewrite <- Hlen.
    destruct (strings_Split (ProviderID (node_Spec node)) slash)
      as [|s0 [|s1 [|s2 rest]]]; cbn [length] in Hlen; try lia; done.
  - intros Hc. unfold GetProjectIdAndZoneFromNode. rewrite Hget.
    pose proof (NodeOpsFacts.strings_Split_length
                  (ProviderID (node_Spec node)) slash) as Hlen.
    rewrite Hc in Hlen.
    destruct (strings_Split (ProviderID (node_Spec node)) slash)
      as [|s0 [|s1 [|s2 [|s3 rest]]]]; cbn [length] in Hlen; try lia; done.
  - intros scheme project zone instance Hid Hs Hp Hz.
    by apply (NodeOpsFacts.GetProjectIdAndZoneFromNode_layout
                Server C nodeName srv node scheme project zone instance).
Qed.

End NodeWritesFacts.

(** ** Theorems about NodeLister *)

Module NodeListFacts.
Import NodeList.

Lemma in_order_union (entries : list (string * string)) :
  forall base : gmap string string,
    NoDup entries.*1 ->
    fold_left (fun labelSelector kv => assign kv.1 kv.2 labelSelector)
              entries base
    = list_to_map entries ∪ base.
Proof.
  induction entries as [|[k v] entries IH]; intros base Hnd; cbn.
  - by rewrite (left_id_L ∅ (∪)).
  - apply NoDup_cons in Hnd as (Hk & Hnd). rewrite IH by done.
    unfold assign. cbn.
    apply map_eq. intros i.
    rewrite !lookup_union.
    destruct (decide (i = k)) as [->|Hne].
    + rewrite !lookup_insert_eq.
      assert (Hnone : (list_to_map entries : gmap string string) !! k = None)
        by (by apply not_elem_of_list_to_map_1).
      rewrite Hnone. cbn. by destruct (base !! k).
    + by rewrite !lookup_insert_ne.
Qed.

Lemma foldr_assign (l : list (string * string)) (base : gmap string string) :
  foldr (uncurry assign) base l = list_to_map l ∪ base.
Proof.
  induction l as [|[k v] l IH]; cbn [foldr].
  - cbn. by rewrite (left_id_L ∅ (∪)).
  - rewrite IH. cbn. unfold assign. by rewrite insert_union_l.
Qed.

Lemma labelSelector_union filters :
  labelSelector filters = filters ∪ {[ preemptible_label := "true" ]}.
Proof.
  unfold labelSelector.
  by rewrite map_fold_foldr, foldr_assign, list_to_map_to_list.
Qed.

(** X25. [GetPreemptibleNodes] lists the nodes that carry every label of
    [filters] and, unless [filters] says otherwise, the label
    [cloud.google.com/gke-preemptible=true]: a filter on that very key
    replaces the built-in requirement.  The selector does not depend on
    the order in which [range] visits the filters, and without filters it
    is the built-in requirement alone. *)
Theorem GetPreemptibleNodes_selector :
  forall (Server : Type) (L : NodeLister Server)
         (filters : gmap string string) (srv : Server),
    GetPreemptibleNodes filters srv
      = Nodes_List (filters ∪ {[ preemptible_label := "true" ]}) srv /\
    (forall key,
       labelSelector filters !! key =
       match filters !! key with
       | Some value => Some value
       | None => if decide (key = preemptible_label) then Some "true" else None
       end) /\
    (forall entries,
       entries ≡ₚ map_to_list filters ->
       labelSelector_in_order entries = labelSelector filters) /\
    labelSelector ∅ = {[ preemptible_label := "true" ]}.
Proof.
  intros Server L filters srv. split; [|split; [|split]].
  - unfold GetPreemptibleNodes. by rewrite labelSelector_union.
  - intros key. rewrite labelSelector_union, lookup_union.
    destruct (filters !! key) as [v|].
    + by rewrite union_Some_l.
    + rewrite (left_id_L None (∪)).
      destruct (decide (key = preemptible_label)) as [->|Hne].
      * by rewrite lookup_singleton_eq.
      * by rewrite lookup_singleton_ne.
  - intros entries Hperm. unfold labelSelector_in_order.
    rewrite in_order_union.
    + rewrite labelSelector_union. f_equal.
      rewrite <- (list_to_map_to_list filters).
      apply list_to_map_proper; [|done].
      rewrite Hperm. apply NoDup_fst_map_to_list.
    + rewrite Hperm. apply NoDup_fst_map_to_list.
  - by rewrite labelSelector_union, (left_id_L ∅ (∪)).
Qed.

End NodeListFacts.

(** ** The further theorems at sample inputs *)

Module MoreWitnesses.
Import Examples MoreExamples.

Lemma fake_find_updated name n' : forall nodes n,
  Name (node_ObjectMeta n') = name ->
  List.find (fun m => String.eqb (Name (node_ObjectMeta m)) name) nodes
    = Some n ->
  List.find (fun m => String.eqb (Name (node_ObjectMeta m)) name)
    (List.map (fun m => if String.eqb (Name (node_ObjectMeta m))
                                      (Name (node_ObjectMeta n'))
                        then n' else m) nodes)
    = Some n'.
Proof.
  intros nodes n Hname. rewrite Hname.
  induction nodes as [|m nodes IH]; cbn; [done|].
  destruct (String.eqb (Name (node_ObjectMeta m)) name) eqn:E.
  - intros _. by rewrite Hname, String.eqb_refl.
  - rewrite E. exact IH.
Qed.

(** The test double keeps what it is given. *)
Lemma fake_stores_updates : NodeWrites.StoresUpdates NodeOps.fake_server.
Proof.
  split.
  - intros name srv n. cbn. unfold NodeOps.fake_get.
    destruct (List.find _ _) as [n0|] eqn:E; [|done].
    intros [= <-]. apply List.find_some in E as (_ & E).
    by apply String.eqb_eq.
  - intros name srv n n' r srv'. cbn.
    unfold NodeOps.fake_get, NodeOps.fake_update.
    destruct (List.find _ (NodeOps.fs_nodes srv)) as [n0|] eqn:E; [|done].
    intros _ Hname. destruct (NodeOps.fs_update_error srv); [done|].
    intros [= _ <-]. cbn.
    by rewrite (fake_find_updated name n' _ n0 Hname E).
Qed.

Lemma filterOutPodByNode_selects_witness :
  Filter.filterOutPodByNode [dns_here; dns_there] "gke-pool-1-abcd"
    = [dns_here] /\
  NoDup (Filter.filterOutPodByNode [dns_here; dns_there] "gke-pool-1-abcd").
Proof.
  destruct (FilterViewsFacts.filterOutPodByNode_selects
              [dns_here; dns_there] "gke-pool-1-abcd")
    as (Heq & _ & _ & _ & Hnd).
  split; [rewrite Heq; reflexivity|].
  apply Hnd. apply (bool_decide_unpack _). vm_compute. reflexivity.
Defined.

Lemma filterOutPodByNode_composes_witness :
  Filter.filterOutPodByNode
    (Filter.filterOutPodByNode [dns_here; dns_there] "gke-pool-1-abcd")
    "gke-pool-1-efgh" = [].
Proof.
  destruct (FilterViewsFacts.filterOutPodByNode_composes
              [dns_here; dns_there] "gke-pool-1-abcd" "gke-pool-1-efgh")
    as (_ & _ & H).
  apply H. discriminate.
Defined.

Lemma owner_filter_membership_witness :
  In shared
     (Filter.filterOutPodByOwnerReferenceKind [web; agent; shared] "Job").
Proof.
  destruct (FilterViewsFacts.owner_filter_membership [web; agent; shared] "Job")
    as (_ & H).
  apply (H shared (owner "Job" "warmup") (owner "ReplicaSet" "shared"));
    vm_compute; auto. discriminate.
Defined.

Lemma owner_filter_single_owner_witness :
  Filter.filterOutPodByOwnerReferenceKind [web; agent; bare] "DaemonSet"
    = List.filter (FilterViews.has_other_owner "DaemonSet") [web; agent; bare]
  /\
  NoDup (Filter.filterOutPodByOwnerReferenceKind [web; agent; bare] "DaemonSet").
Proof.
  destruct (FilterViewsFacts.owner_filter_single_owner
              [web; agent; bare] "DaemonSet") as (Heq & _ & Hnd).
  - apply (bool_decide_unpack _). vm_compute. reflexivity.
  - split; [exact Heq|]. apply Hnd.
    apply (bool_decide_unpack _). vm_compute. reflexivity.
Defined.

Lemma evictPod_returns_iff_witness :
  exists r tr,
    EvictPod.evictPod 4 api_throttle_then_ok never_stopped web = Some (r, tr) /\
    EvictPod.attempts tr <= 3 + 1.
Proof.
  destruct (EvictPodViewsFacts.evictPod_returns_iff
              api_throttle_then_ok never_stopped web) as (_ & H & _).
  apply (H 3 4); [vm_compute; reflexivity|lia].
Defined.

Lemma evictPod_trace_accounting_witness :
  EvictPod.sleeps
    (EvictPod.throttled_then web
       [Some too_many_requests; Some too_many_requests] (Some internal_error))
  = repeat 5
      (length
         (List.filter EvictPodViews.is_throttled
            (EvictPod.responses
               (EvictPod.throttled_then web
                  [Some too_many_requests; Some too_many_requests]
                  (Some internal_error))))).
Proof.
  destruct (EvictPodViewsFacts.evictPod_trace_accounting
              5 api_throttle_then_fail never_stopped web
              (Some internal_error)
              (EvictPod.throttled_then web
                 [Some too_many_requests; Some too_many_requests]
                 (Some internal_error)))
    as (_ & _ & H & _); [vm_compute; reflexivity|].
  exact H.
Defined.

Lemma evictPods_never_fails_witness :
  EvictPods.step (EvictPods.TaskSend 0) web_failed = Blocked /\
  Chan.len (EvictPods.errCh web_failed) = 0.
Proof.
  destruct (EvictPodsViewsFacts.evictPods_never_fails [web] schedule_failed)
    as (_ & H).
  destruct (H web_failed) as (_ & Hsend & Hlen & _);
    [vm_compute; reflexivity|].
  split; [apply Hsend|exact Hlen].
Defined.

Lemma evictPods_fatal_error_stalls_witness :
  EvictPodsViews.stuck_at 0 internal_error web_failed_stopped /\
  EvictPods.pc web_failed_stopped = EvictPods.AtWait.
Proof.
  destruct (EvictPodsViewsFacts.evictPods_fatal_error_stalls
              [web] schedule_failed web_failed 0 internal_error)
    as (_ & H).
  - vm_compute. reflexivity.
  - exists failed_task. split; vm_compute; reflexivity.
  - destruct (H [EvictPods.StopFires] web_failed_stopped)
      as (Hst & _ & Hwait & _); [vm_compute; reflexivity|].
    split; [exact Hst|]. apply Hwait. vm_compute. reflexivity.
Defined.

Lemma evictPods_stop_channels_witness :
  EvictPods.step (EvictPods.TaskWake 0) at_barrier
  = Next (EvictPods.move 0 sleeping_task EvictPods.AtEvict at_barrier).
Proof.
  destruct (EvictPodsViewsFacts.evictPods_stop_channels
              [web] schedule_stop_at_barrier at_barrier) as (_ & H);
    [vm_compute; reflexivity|].
  apply H; vm_compute; reflexivity.
Defined.

Lemma evictPods_one_goroutine_per_pod_witness :
  List.map EvictPods.t_pod (EvictPods.tasks calm_eleven) = eleven /\
  Forall (fun t => EvictPods.t_pc t = EvictPods.Finished)
         (EvictPods.tasks calm_eleven).
Proof.
  destruct (EvictPodsViewsFacts.evictPods_one_goroutine_per_pod
              eleven (EvictPods.calm_schedule 11 11 0) calm_eleven)
    as (_ & _ & _ & _ & H); [vm_compute; reflexivity|].
  apply H; vm_compute; reflexivity.
Defined.

Lemma goroutine_runs_evictPod_witness :
  exists s' t',
    EvictPods.exec
      (EvictPods.schedule_of_trace 0
         (EvictPod.throttled_then (numbered 0)
            (List.map api_throttle_then_ok (seq 0 3)) None))
      first_dispatch = Next s' /\
    EvictPods.tasks s' !! 0 = Some t' /\
    EvictPods.t_pc t' = EvictPods.Finished.
Proof.
  destruct (EvictPodsViewsFacts.goroutine_runs_evictPod
              eleven schedule_first_dispatch first_dispatch 0 first_task
              4 api_throttle_then_ok None
              (EvictPod.throttled_then (numbered 0)
                 (List.map api_throttle_then_ok (seq 0 3)) None))
    as (s' & t' & H1 & H2 & _ & _ & H5 & _);
    [vm_compute; reflexivity..|].
  exists s', t'. split; [exact H1|]. split; [exact H2|exact H5].
Defined.

Lemma evictPods_can_return_witness :
  exists ls' s',
    EvictPods.exec ls' at_barrier = Next s' /\
    EvictPods.pc s' = EvictPods.Returned None.
Proof.
  apply (EvictPodsViewsFacts.evictPods_can_return
           [web] schedule_stop_at_barrier at_barrier);
    [vm_compute; reflexivity|].
  intros i e (t & Hi & Hpc).
  assert (Ht : EvictPods.tasks at_barrier = [sleeping_task])
    by (vm_compute; reflexivity).
  rewrite Ht in Hi. destruct i as [|i]; [|discriminate].
  injection Hi as <-. discriminate.
Defined.

Lemma DrainNode_result_is_listing_error_witness :
  Chan.len (DrainNode.errCh fatal_then_drained) = 0 /\
  DrainViews.evictor_quiet fatal_then_drained.
Proof.
  destruct (DrainViewsFacts.DrainNode_result_is_listing_error
              [web] None schedule_fatal) as (_ & H).
  destruct (H fatal_then_drained) as (_ & Hq & Hlen & _);
    [vm_compute; reflexivity|].
  split; [exact Hlen|exact Hq].
Defined.

Lemma DrainNode_after_return_witness :
  DrainNode.pc web_stopped = DrainNode.Returned None /\
  DrainNode.stopPolling web_stopped = DrainNode.stopPolling web_timed_out.
Proof.
  destruct (DrainViewsFacts.DrainNode_after_return
              [web] (schedule_dispatch ++ [DrainNode.Timeout]) web_timed_out
              None) with (ls' := [DrainNode.Pipeline EvictPods.Main])
                         (s' := web_stopped)
    as (H1 & H2 & _); [vm_compute; reflexivity..|].
  split; [exact H1|exact H2].
Defined.

Lemma DrainNode_drained_stops_nothing_witness :
  DrainNode.step DrainNode.Drained web_throttled_polled
    = Next web_throttled_drained /\
  Chan.closed (DrainNode.stopEvicting web_retrying) = false /\
  Forall (fun t => Chan.ready (EvictPods.t_stop t) = false)
         (EvictPods.tasks (DrainNode.evict web_retrying)).
Proof.
  destruct (DrainViewsFacts.DrainNode_drained_stops_nothing
              [web] schedule_throttled_polled web_throttled_polled)
    as (s1 & Hstep & _ & _ & _ & H); [vm_compute; reflexivity..|].
  assert (Hs1 : s1 = web_throttled_drained).
  { vm_compute in Hstep. injection Hstep as <-. vm_compute. reflexivity. }
  rewrite Hs1 in Hstep, H. split; [exact Hstep|].
  destruct (H [DrainNode.Pipeline (EvictPods.TaskWake 0)] web_retrying)
    as (_ & He & Hall); [vm_compute; reflexivity|].
  split; [exact He|exact Hall].
Defined.

Lemma DrainNode_poller_verdict_witness :
  DrainNode.step (DrainNode.Poll [agent; bare] None)
    (DrainNode.start [web] None)
  = Next (DrainNode.set_poller (DrainNode.start [web] None)
            DrainNode.AtDoneSend).
Proof.
  destruct (DrainViewsFacts.DrainNode_poller_verdict
              [agent; bare] (DrainNode.start [web] None))
    as (_ & H & _); [reflexivity|].
  apply H. intros p r [<-|[<-|[]]] Hr; cbn in Hr.
  - destruct Hr as [<-|[]]. reflexivity.
  - destruct Hr.
Defined.

Lemma DrainNode_evicts_only_filtered_witness :
  NoDup (List.map EvictPods.t_pod
           (EvictPods.tasks (DrainNode.evict three_drained))).
Proof.
  destruct (DrainViewsFacts.DrainNode_evicts_only_filtered
              three schedule_drained three_drained) as (_ & _ & H);
    [vm_compute; reflexivity|].
  apply H; apply (bool_decide_unpack _); vm_compute; reflexivity.
Defined.

Lemma DrainKubeDNSFromNode_result_witness :
  exists s',
    DrainKubeDNS.step "gke-pool-1-abcd" DrainNode.Timeout kube_dispatched
      = Next s' /\
    DrainNode.pc s' = DrainNode.Returned None /\
    Chan.closed (DrainNode.stopPolling s') = true /\
    Chan.closed (DrainNode.stopEvicting s') = true.
Proof.
  destruct (DrainViewsFacts.DrainKubeDNSFromNode_result
              "gke-pool-1-abcd" [dns_here; dns_there] None
              [DrainNode.Pipeline EvictPods.Main]) as (_ & H).
  destruct (H kube_dispatched) as (_ & _ & _ & _ & Hsel);
    [vm_compute; reflexivity|].
  apply Hsel; [vm_compute; reflexivity|]. by left.
Defined.

Lemma DrainKubeDNSFromNode_evicts_node_pods_witness :
  List.map EvictPods.t_pod (EvictPods.tasks (DrainNode.evict kube_dispatched))
    = take (length (EvictPods.tasks (DrainNode.evict kube_dispatched)))
           (List.filter (FilterViews.on_node "gke-pool-1-abcd")
                        [dns_here; dns_there]) /\
  NoDup (List.map EvictPods.t_pod
           (EvictPods.tasks (DrainNode.evict kube_dispatched))).
Proof.
  destruct (DrainViewsFacts.DrainKubeDNSFromNode_evicts_node_pods
              "gke-pool-1-abcd" [dns_here; dns_there]
              [DrainNode.Pipeline EvictPods.Main] kube_dispatched)
    as (_ & Hpre & _ & Hnd); [vm_compute; reflexivity|].
  split; [exact Hpre|]. apply Hnd.
  apply (bool_decide_unpack _). vm_compute. reflexivity.
Defined.

Lemma DrainKubeDNSFromNode_poller_verdict_witness :
  DrainKubeDNS.step "gke-pool-1-abcd" (DrainNode.Poll [dns_there] None)
    kube_start
  = Next (DrainNode.set_poller kube_start DrainNode.AtDoneSend).
Proof.
  destruct (DrainViewsFacts.DrainKubeDNSFromNode_poller_verdict
              "gke-pool-1-abcd" [dns_there] kube_start)
    as (_ & H & _); [reflexivity|].
  apply H. intros p [<-|[]]. discriminate.
Defined.

Lemma SetUnschedulableState_cordons_witness :
  NodeOps.GetNode "gke-pool-1-abcd" cordoned
    = (NodeWrites.set_Unschedulable (gke_node None) true, None) /\
  NodeOps.GetProjectIdAndZoneFromNode "gke-pool-1-abcd" cordoned
    = NodeOps.GetProjectIdAndZoneFromNode "gke-pool-1-abcd" (cluster None).
Proof.
  destruct (NodeWritesFacts.SetUnschedulableState_cordons
              NodeOps.fake_server NodeOps.fake_clientset fake_stores_updates
              "gke-pool-1-abcd" true (cluster None) (gke_node None))
    as (_ & _ & H).
  destruct (H eq_refl cordoned) as (H1 & _ & _ & H4 & _);
    [vm_compute; reflexivity|].
  split; [exact H1|exact H4].
Defined.

Lemma SetNodeAnnotation_round_trip_witness :
  NodeOps.GetNode "gke-pool-1-abcd"
    (cluster (Some (<["estafette.io/state":="killing"]> ∅)))
  = (NodeOps.set_Annotations (gke_node (Some ∅))
       (Some (<["estafette.io/state":="killing"]> ∅)), None).
Proof.
  destruct (NodeWritesFacts.SetNodeAnnotation_round_trip
              NodeOps.fake_server NodeOps.fake_clientset fake_stores_updates
              "gke-pool-1-abcd" "estafette.io/state" "killing"
              (cluster (Some ∅)) (gke_node (Some ∅))) as (_ & H).
  destruct (H ∅ (cluster (Some (<["estafette.io/state":="killing"]> ∅))))
    as (H1 & _); [reflexivity..|].
  exact H1.
Defined.

Lemma GetProjectIdAndZoneFromNode_panics_iff_witness :
  NodeOps.GetProjectIdAndZoneFromNode "node-1" bare_metal
  = NodeOps.Panics "runtime error: index out of range [2] with length 1".
Proof.
  destruct (NodeWritesFacts.GetProjectIdAndZoneFromNode_panics_iff
              NodeOps.fake_server NodeOps.fake_clientset
              "node-1" bare_metal (node "node-1" EmptyString None))
    as (_ & H & _); [reflexivity|].
  apply H. reflexivity.
Defined.

Lemma GetPreemptibleNodes_selector_witness :
  NodeList.GetPreemptibleNodes ∅ labelled_cluster = ([spot_node], None) /\
  NodeList.GetPreemptibleNodes {[ NodeList.preemptible_label := "false" ]}
    labelled_cluster = ([steady_node], None) /\
  NodeList.labelSelector_in_order [("pool", "a")]
    = NodeList.labelSelector {[ "pool" := "a" ]}.
Proof.
  split; [|split].
  - destruct (NodeListFacts.GetPreemptibleNodes_selector
                NodeList.labelled_server NodeList.fake_lister
                ∅ labelled_cluster) as (H & _).
    rewrite H. vm_compute. reflexivity.
  - destruct (NodeListFacts.GetPreemptibleNodes_selector
                NodeList.labelled_server NodeList.fake_lister
                {[ NodeList.preemptible_label := "false" ]} labelled_cluster)
      as (H & _).
    rewrite H. vm_compute. reflexivity.
  - destruct (NodeListFacts.GetPreemptibleNodes_selector
                NodeList.labelled_server NodeList.fake_lister
                {[ "pool" := "a" ]} labelled_cluster) as (_ & _ & H & _).
    apply H. by rewrite map_to_list_singleton.
Defined.

End MoreWitnesses.
